(** * Photo-mosaic builder: a shallow embedding of [mosaic.py]

    The development follows the Python module function by function.
    Python integers are [Z] (tile indices and list positions are [nat]),
    exceptions are an explicit [result] type, the availability set of
    [create_mosaic] is a [gset nat], and the library calls whose code is
    not part of the module (numpy's [argsort], [random.shuffle], the image
    library) are taken through their documented contracts or as
    parameters.

    Python floats are followed at two levels.  The first part of the file
    idealises them as exact rationals [Q], with [int(_)] the truncation
    toward zero; it carries the properties that do not depend on how a
    float is rounded (containment, coverage, counting, the control flow of
    the loops, which exception is raised).  The module [Double] then
    follows the functions whose result does depend on it with binary64
    arithmetic, rounding included. *)

From Stdlib Require Import ZArith QArith Qround Qabs Lqa Lia Sorted Permutation.
From Stdlib Require Import SpecFloat.
From stdpp Require Import gmap strings list sorting pretty.

Open Scope Z_scope.

(** ** Exceptions *)

Inductive exn : Type :=
  | ZeroDivisionError
  | UnboundLocalError
  | IndexError
  | StopIteration
  | OverflowError
  | ValueError
  | LibraryError (name : string).

Inductive result (A : Type) : Type :=
  | Ok (a : A)
  | Raise (e : exn).

Arguments Ok {A} a.
Arguments Raise {A} e.

Global Instance result_ret : MRet result := fun _ a => Ok a.
Global Instance result_bind : MBind result := fun _ _ k r =>
  match r with
  | Ok a => k a
  | Raise e => Raise e
  end.

(** ** Numbers *)

(** [int(q)] for a float [q]: truncation toward zero. *)
Definition py_int (q : Q) : Z := Z.quot (Qnum q) (Zpos (Qden q)).

(** [a / b] on numbers (true division). *)
Definition py_truediv (a b : Q) : result Q :=
  if Qeq_bool b 0 then Raise ZeroDivisionError else Ok (a / b)%Q.

(** [a % b] on integers. *)
Definition py_mod (a b : Z) : result Z :=
  if b =? 0 then Raise ZeroDivisionError else Ok (a mod b).

(** [range(n)] *)
Definition range (n : Z) : list Z := seqZ 0 n.

(** [l[i]] for a list position. *)
Definition getitem {A} (l : list A) (i : nat) : result A :=
  match l !! i with
  | Some a => Ok a
  | None => Raise IndexError
  end.

(** Where a slice bound [i] of [l[:i]] or [l[i:]] falls in a list of
    length [n]: negative bounds count from the end, and both ends clip. *)
Definition slice_bound (n : nat) (i : Z) : nat :=
  Z.to_nat (if i <? 0 then Z.max 0 (i + Z.of_nat n) else Z.min i (Z.of_nat n)).

(** ** [random.shuffle]

    The Fisher-Yates loop of the standard library,
    [for i in reversed(range(1, len(x))): j = randbelow(i + 1); swap],
    with the random source an oracle [draws]: the draw at position [i] is
    [draws i] reduced below [i + 1].  Both positions of a swap are then
    inside the list, so the out-of-range case of [swap] is never reached. *)

Definition swap {A} (i j : nat) (x : list A) : list A :=
  match x !! i, x !! j with
  | Some a, Some b => <[i:=b]> (<[j:=a]> x)
  | _, _ => x
  end.

Fixpoint shuffle_loop {A} (draws : nat -> nat) (i : nat) (x : list A) : list A :=
  match i with
  | O => x
  | S i' => shuffle_loop draws i' (swap i (draws i mod (S i))%nat x)
  end.

Definition shuffle {A} (draws : nat -> nat) (x : list A) : list A :=
  shuffle_loop draws (length x - 1) x.

(** ** [shuffle_first_items] *)

Definition shuffle_first_items {A} (draws : nat -> nat) (lst : list A) (i : Z) : list A :=
  if i =? 0 then lst
  else
    let first_few := take (slice_bound (length lst) i) lst in
    let remaining := drop (slice_bound (length lst) i) lst in
    shuffle draws first_few ++ remaining.

(** ** [list.sort(key=...)]

    Python guarantees that [sort] is stable; a stable sort is determined by
    its input and the keys, so it is written here as the insertion of each
    element in front of the sorted rest, ahead of the first element whose
    key is not smaller. *)

Fixpoint insert_by {A} (key : A -> Q) (a : A) (l : list A) : list A :=
  match l with
  | [] => [a]
  | b :: l' => if Qle_bool (key a) (key b) then a :: l else b :: insert_by key a l'
  end.

Definition sort_by {A} (key : A -> Q) (l : list A) : list A :=
  foldr (insert_by key) [] l.

(** ** [bound] *)

Definition bound (low high value : Z) : Z := Z.max low (Z.min high value).

(** ** [resize_box_aspect_crop_to_extent]

    The image enters through [img.size]; [centerpoint] is [None] when the
    caller passes nothing (or an empty tuple), which is the case
    [not centerpoint] tests. *)

Definition box : Type := Z * Z * Z * Z.

Definition resize_box_aspect_crop_to_extent
    (size : Z * Z) (target_aspect : Q) (centerpoint : option (Z * Z)) : result box :=
  let width := size.1 in
  let height := size.2 in
  let centerpoint :=
    match centerpoint with
    | Some c => c
    | None => (py_int (inject_Z width / 2), py_int (inject_Z height / 2))
    end in
  let requested_target_x := centerpoint.1 in
  let requested_target_y := centerpoint.2 in
  aspect ← py_truediv (inject_Z width) (inject_Z height);
  if negb (Qle_bool aspect target_aspect) then
    let new_width := py_int (target_aspect * inject_Z height) in
    let new_width_half := py_int (inject_Z new_width / 2) in
    let target_x := bound new_width_half (width - new_width_half) requested_target_x in
    let left := target_x - new_width_half in
    let right := target_x + new_width_half in
    Ok (left, 0, right, height)
  else
    q ← py_truediv (inject_Z width) target_aspect;
    let new_height := py_int q in
    let new_height_half := py_int (inject_Z new_height / 2) in
    let target_y := bound new_height_half (height - new_height_half) requested_target_y in
    let top := target_y - new_height_half in
    let bottom := target_y + new_height_half in
    Ok (0, top, width, bottom).

(** ** [Config]

    The constructor stores its arguments; no check is made.  The derived
    [tile_height] is a property, computed (and possibly failing) on every
    read. *)

Record Config : Type := mkConfig {
  tile_ratio : Q;
  match_width : Z;
  tile_width : Z;
  enlargement : Q;
  color_mode : string;
  rotate : bool
}.

Definition Config_init (tile_ratio : Q) (tile_width match_width : Z)
    (enlargement : Q) (color_mode : string) (rotate : bool) : result Config :=
  Ok {| tile_ratio := tile_ratio;
        match_width := match_width;
        tile_width := tile_width;
        enlargement := enlargement;
        color_mode := color_mode;
        rotate := rotate |}.

Definition tile_height (self : Config) : result Z :=
  q ← py_truediv (inject_Z (tile_width self)) (tile_ratio self);
  Ok (py_int q).

Definition tile_size (self : Config) : result (Z * Z) :=
  h ← tile_height self;
  Ok (tile_width self, h).

(** ** [SourceImage.__init__]

    Only the geometry is kept: the size [(w, h)] of the enlarged image and
    the box handed to [crop], if any.  [w_diff] and [h_diff] come from a
    true division by two, so they are halves of integers, not integers. *)

Definition qbox : Type := Q * Q * Q * Q.

Record SourceImage : Type := mkSourceImage {
  large_size : Z * Z;
  crop_box : option qbox
}.

Definition SourceImage_init (img_size : Z * Z) (config : Config) : result SourceImage :=
  let w := py_int (inject_Z img_size.1 * enlargement config) in
  let h := py_int (inject_Z img_size.2 * enlargement config) in
  rw ← py_mod w (tile_width config);
  let w_diff := (inject_Z rw / 2)%Q in
  th ← tile_height config;
  rh ← py_mod h th;
  let h_diff := (inject_Z rh / 2)%Q in
  Ok {| large_size := (w, h);
        crop_box :=
          if negb (Qeq_bool w_diff 0) || negb (Qeq_bool h_diff 0)
          then Some (w_diff, h_diff, inject_Z w - w_diff, inject_Z h - h_diff)%Q
          else None |}.

(** The width and height of a crop box. *)
Definition qbox_width (b : qbox) : Q := (b.1.2 - b.1.1.1)%Q.
Definition qbox_height (b : qbox) : Q := (b.2 - b.1.1.2)%Q.

(** ** [MosaicImage.__init__]: the tile counts *)

Definition MosaicImage_init (original_size : Z * Z) (config : Config) : result (Z * Z) :=
  qx ← py_truediv (inject_Z original_size.1) (inject_Z (tile_width config));
  let x_tile_count := py_int qx in
  th ← tile_height config;
  qy ← py_truediv (inject_Z original_size.2) (inject_Z th);
  let y_tile_count := py_int qy in
  Ok (x_tile_count, y_tile_count).

(** ** [coords_from_middle] *)

Definition coords_key (x_mid y_mid : Z) (y_bias : Q) (c : Z * Z) : Q :=
  (inject_Z (Z.abs (c.1 - x_mid)) * y_bias + inject_Z (Z.abs (c.2 - y_mid)))%Q.

Definition coords_from_middle (draws : nat -> nat)
    (x_count y_count : Z) (y_bias : Q) (shuffle_first : Z) : list (Z * Z) :=
  let x_mid := py_int (inject_Z x_count / 2) in
  let y_mid := py_int (inject_Z y_count / 2) in
  let coords := list_prod (range x_count) (range y_count) in
  let coords := sort_by (coords_key x_mid y_mid y_bias) coords in
  let coords := shuffle_first_items draws coords shuffle_first in
  coords.

(** The order in which [itertools.product] lists two cells: [x] in the
    outer loop, [y] in the inner one. *)
Definition enumerated_before (c d : Z * Z) : Prop :=
  c.1 < d.1 \/ (c.1 = d.1 /\ c.2 < d.2).

(** [c] comes before [d] in a list sorted ascending by [key], ties kept in
    the order [before]. *)
Definition stable_lt {A} (key : A -> Q) (before : A -> A -> Prop) (c d : A) : Prop :=
  (key c < key d)%Q \/ ((key c == key d)%Q /\ before c d).

(** The key as the formula [|x - x_count/2| * y_bias + |y - y_count/2|]
    reads with [/] the division of numbers. *)
Definition centre_key (x_count y_count : Z) (y_bias : Q) (c : Z * Z) : Q :=
  (Qabs (inject_Z c.1 - inject_Z x_count / 2) * y_bias
   + Qabs (inject_Z c.2 - inject_Z y_count / 2))%Q.

(** ** [TileBox]

    [tiles], [tile_names] and [tile_array] are the three parallel lists of
    the class.  A tile image is an opaque [Img]; its row of [tile_array]
    (and the comparison block) is the flattened list of its pixel samples.
    The embedding covers pools that are not empty and whose rows have the
    shape of the block, as the caller arranges by resizing both to the
    match size; outside of them numpy has no common shape for the
    difference, and nothing is stated of the query there but the unbound
    result of the other colour modes. *)

Record TileBox (Img : Type) : Type := mkTileBox {
  config : Config;
  tiles : list Img;
  tile_names : list string;
  tile_array : list (list Z)
}.

Arguments mkTileBox {Img}.
Arguments config {Img}.
Arguments tiles {Img}.
Arguments tile_names {Img}.
Arguments tile_array {Img}.

(** [.mean(axes)]: the mean of the samples of one tile. *)
Definition mean (l : list Q) : Q :=
  (foldr Qplus 0 l / inject_Z (Z.of_nat (length l)))%Q.

(** [((tile - a) ** 2).mean(...)] for one row of the tile array. *)
Definition squared_difference_mean (a t : list Z) : Q :=
  mean (zip_with (fun p q => inject_Z ((p - q) ^ 2)) t a).

(** What numpy documents of [argsort] with its default [kind]: the result
    lists every position of the array once, in an order that sorts the
    values.  The default kind is not a stable sort, so nothing is promised
    about the order of equal values. *)
Definition argsort_contract (argsort : list Q -> list nat) : Prop :=
  forall v : list Q,
    argsort v ≡ₚ seq 0 (length v)
    /\ StronglySorted (fun i j => (nth i v 0 <= nth j v 0)%Q) (argsort v).

(** A sort of positions that meets the contract, for the sample runs: it
    keeps equal values in position order. *)
Definition argsort_stable (v : list Q) : list nat :=
  sort_by (fun i => nth i v 0%Q) (seq 0 (length v)).

(** [best_tile_block_match]: [match_results] is bound in the ['RGB'] and
    ['L'] branches only; reading it on any other mode raises. *)
Definition best_tile_block_match {Img} (argsort : list Q -> list nat)
    (self : TileBox Img) (tile_block_original : list Z) : result (list nat) :=
  let a := tile_block_original in
  match_results ←
    (if decide (color_mode (config self) = "RGB") then
       Ok (map (squared_difference_mean a) (tile_array self))
     else if decide (color_mode (config self) = "L") then
       Ok (map (squared_difference_mean a) (tile_array self))
     else Raise UnboundLocalError);
  Ok (argsort match_results).

(** ** The assembly loop of [create_mosaic] *)

Record assignment (Img : Type) : Type := mkAssignment {
  a_index : nat;
  a_tile : Img;
  a_name : string;
  a_box : box
}.

Arguments mkAssignment {Img}.
Arguments a_index {Img}.
Arguments a_tile {Img}.
Arguments a_name {Img}.
Arguments a_box {Img}.

(** How the loop ends: every cell was visited, the availability set ran
    empty ([break]), or an exception left the loop. *)
Inductive stop : Type :=
  | Completed
  | RanOutOfTiles
  | Raised (e : exn).

(** [next(j for j in m if j in available)] *)
Definition next_available (m : list nat) (available : gset nat) : result nat :=
  match List.find (fun j => bool_decide (j ∈ available)) m with
  | Some j => Ok j
  | None => Raise StopIteration
  end.

(** [indeces]: the tile and, with rotation, its three rotated copies. *)
Definition indeces (rotate : bool) (j : nat) : list nat :=
  if rotate then map (fun k => (j / 4 * 4 + k)%nat) [3; 2; 1; 0]%nat else [j].

(** The choice of a tile for one cell, with the availability set after it. *)
Definition choose (reuse rotate : bool) (m : list nat) (available : gset nat)
    : result (nat * gset nat) :=
  if negb reuse then
    j ← next_available m available;
    Ok (j, available ∖ list_to_set (indeces rotate j))
  else
    j ← getitem m 0;
    Ok (j, available).

(** The loop over [enumerate(matches)], from cell number [i] on.  A record
    is emitted for a cell once the tile, its name and the cell's box have
    been fetched; it stands for the tile pasted on the mosaic and the entry
    added to the build instructions.  The run is followed without a
    keyboard interrupt. *)
Fixpoint assemble {Img} (reuse rotate : bool) (tiles : list Img)
    (tile_names : list string) (boxes : list box)
    (i : nat) (available : gset nat) (matches : list (list nat))
    : list (assignment Img) * stop :=
  match matches with
  | [] => ([], Completed)
  | m :: rest =>
      if decide (available = ∅) then ([], RanOutOfTiles)
      else
        match
          '(j, available') ← choose reuse rotate m available;
          tile ← getitem tiles j;
          tile_name ← getitem tile_names j;
          b ← getitem boxes i;
          Ok (mkAssignment j tile tile_name b, available')
        with
        | Raise e => ([], Raised e)
        | Ok (record, available') =>
            let '(records, s) :=
              assemble reuse rotate tiles tile_names boxes (S i) available' rest in
            (record :: records, s)
        end
  end.

(** [available = set(range(len(tile_box.tiles)))], then the loop. *)
Definition assemble_mosaic {Img} (reuse : bool) (tile_box : TileBox Img)
    (matches : list (list nat)) (boxes : list box) : list (assignment Img) * stop :=
  let available : gset nat := list_to_set (seq 0 (length (tiles tile_box))) in
  assemble reuse (rotate (config tile_box)) (tiles tile_box) (tile_names tile_box)
    boxes 0 available matches.

(** ** [create_mosaic]

    The image and plotting libraries are outside the module; what the
    function needs from them enters as parameters: [image_size], the size
    of the source image once resized and cropped; [comparison_block], the
    samples of the source under a cell box once resized to the match size;
    [save], the outcome of [mosaic.save()] on the canvas with the tiles of
    the given records pasted; and [show_instructions], the outcome of
    drawing the sheet of these records. *)

(** [try: body finally: handler]: the handler runs whatever the body did,
    and an exception of the handler replaces that of the body. *)
Definition try_finally {A} (body : result A) (handler : result ()) : result A :=
  match handler with
  | Ok _ => body
  | Raise e => Raise e
  end.

Section create_mosaic.
Context {Img : Type}.
Variable argsort : list Q -> list nat.
Variable draws : nat -> nat.
Variable image_size : SourceImage -> Z * Z.
Variable comparison_block : box -> list Z.
Variable save : list (assignment Img) -> result ().
Variable show_instructions : list (assignment Img) -> result ().

(** The first loop: a ranking and a box for every cell of the traversal. *)
Fixpoint match_tiles (tile_box : TileBox Img) (coords : list (Z * Z))
    : result (list (list nat) * list box) :=
  match coords with
  | [] => Ok ([], [])
  | (x, y) :: rest =>
      let cfg := config tile_box in
      th ← tile_height cfg;
      let box_crop :=
        (x * tile_width cfg, y * th, (x + 1) * tile_width cfg, (y + 1) * th) in
      m ← best_tile_block_match argsort tile_box (comparison_block box_crop);
      '(matches, boxes) ← match_tiles tile_box rest;
      Ok (m :: matches, box_crop :: boxes)
  end.

(** [config.tile_ratio], for use where an argument has the field's name. *)
Local Abbreviation config_tile_ratio := tile_ratio (only parsing).

(** The end of a run: the [try] statement around the assembly loop, whose
    body saves the canvas before the [break] and whose [finally] saves it
    in every case, then the last [mosaic.save()] and the instruction sheet.
    An exception that left the loop leaves the run once the [finally] has
    saved what was assembled. *)
Definition finish (records : list (assignment Img)) (s : stop)
    : result (list (assignment Img) * stop) :=
  _ ← try_finally
        match s with
        | Completed => Ok ()
        | RanOutOfTiles => save records
        | Raised e => Raise e
        end
        (save records);
  _ ← save records;
  _ ← show_instructions records;
  Ok (records, s).

(** [pool] stands for [TileBox(tile_paths, config)]: the tiles read and
    prepared under the configuration.  What a run returns in the
    embedding is what it has built: the records of the tiles placed and
    the way the assembly loop ended. *)
Definition create_mosaic (img_size : Z * Z) (tile_ratio : Q)
    (tile_width match_width : Z) (enlargement : Q) (reuse : bool)
    (color_mode : string) (pool : Config -> TileBox Img) (shuffle_first : Z)
    (rotate : bool) : result (list (assignment Img) * stop) :=
  cfg ← Config_init tile_ratio tile_width match_width enlargement color_mode rotate;
  source_image ← SourceImage_init img_size cfg;
  '(x_tile_count, y_tile_count) ← MosaicImage_init (image_size source_image) cfg;
  let tile_box := pool cfg in
  '(matches, boxes) ←
    match_tiles tile_box
      (coords_from_middle draws x_tile_count y_tile_count
         (config_tile_ratio cfg) shuffle_first);
  let '(records, s) := assemble_mosaic reuse tile_box matches boxes in
  finish records s.

End create_mosaic.

(** ** Readings of the specification that the code is compared with *)


(** ** Sample inputs *)

Definition wood_config (color_mode : string) (rotate : bool) : Config :=
  mkConfig 1 20 50 (5 # 2) color_mode rotate.

(** A pool of one grey tile under a mode that is neither ['RGB'] nor ['L']. *)
Definition cmyk_pool : TileBox unit :=
  mkTileBox (wood_config "CMYK" false) [tt] ["0001"] [[128; 128; 128; 128]].

(** Three tiles and five cells that all rank tile 1 first. *)
Definition small_pool : TileBox unit :=
  mkTileBox (wood_config "RGB" false) [tt; tt; tt] ["0001"; "0002"; "0003"]
    [[10]; [20]; [30]].

Definition small_matches : list (list nat) :=
  [[1; 0; 2]; [1; 2; 0]; [1; 0; 2]; [0; 1; 2]; [2; 1; 0]]%nat.

Definition small_boxes : list box :=
  [(0, 0, 50, 50); (50, 0, 100, 50); (0, 50, 50, 100); (50, 50, 100, 100);
   (100, 0, 150, 50)].

(** ** The availability set along a run *)

(** The availability set once the tiles [chosen] have been taken, each
    with its [indeces]. *)
Definition consume (rotate : bool) (available : gset nat) (chosen : list nat)
    : gset nat :=
  foldl (fun av j => av ∖ list_to_set (indeces rotate j)) available chosen.

(** The number of pool entries one tile stands for. *)
Definition group_size (rotate : bool) : nat := if rotate then 4%nat else 1%nat.

(** The availability set is made of whole groups. *)
Definition whole_groups (rotate : bool) (available : gset nat) : Prop :=
  forall j k, j ∈ available -> k ∈ indeces rotate j -> k ∈ available.

(** The box of the cell [(x, y)] as the first loop of [create_mosaic]
    computes it. *)
Definition box_crop (cfg : Config) (th : Z) (c : Z * Z) : box :=
  (c.1 * tile_width cfg, c.2 * th, (c.1 + 1) * tile_width cfg, (c.2 + 1) * th).

(** ** [TileBox.__init__]

    The image library enters through the operations of this section: a
    tile path is opened, cropped, resized, converted and rotated by it, and
    [pixels] reads the samples of an image as [np.array] does.  A label is
    a string of characters as Rocq has them (bytes), which is what Python
    has for the ASCII names the tiles carry. *)

(** [s.split('.')[0]] *)
Fixpoint before_first_dot (s : string) : string :=
  match s with
  | EmptyString => EmptyString
  | String c s' =>
      if Ascii.eqb c (Ascii.ascii_of_nat 46) then EmptyString else String c (before_first_dot s')
  end.

(** [s[-4:]] *)
Definition last_four (s : string) : string :=
  String.substring (String.length s - 4) 4 s.

Definition newline : string := String (Ascii.ascii_of_nat 10) EmptyString.

Section TileBox_init.
Context {Img Path : Type}.
Variable stem : Path -> string.
Variable open_image : Path -> Img.
Variable image_size_of : Img -> Z * Z.
Variable crop : Img -> box -> Img.
Variable resize_antialias : Img -> Z * Z -> Img.
Variable resize_nearest : Img -> Z * Z -> Img.
Variable convert : Img -> string -> Img.
Variable rotate_image : Img -> Z -> Img.
Variable pixels : Img -> list Z.

(** [aspect_crop_to_extent] *)
Definition aspect_crop_to_extent (img : Img) (target_aspect : Q)
    (centerpoint : option (Z * Z)) : result Img :=
  resize ← resize_box_aspect_crop_to_extent (image_size_of img) target_aspect
             centerpoint;
  Ok (crop img resize).

(** The three rotated copies of a tile, with their labels. *)
Definition rotated_copies (large_tile_img : Img) (name : string)
    : list (Img * string) :=
  map (fun '(i, direction) =>
         (rotate_image large_tile_img (90 * (1 + i)),
          name +:+ ((newline +:+ "r" +:+ pretty (90 * (1 + i))) +:+ direction)))
      [(0, "→"); (1, "↓"); (2, "←")].

(** [__process_tile], on the lists [tiles] and [tile_names] of the box. *)
Definition process_tile (cfg : Config) (self : list Img * list string)
    (tile_path : Path) : result (list Img * list string) :=
  img ← aspect_crop_to_extent (open_image tile_path) (tile_ratio cfg) None;
  sz ← tile_size cfg;
  let large_tile_img := convert (resize_antialias img sz) (color_mode cfg) in
  let name := last_four (before_first_dot (stem tile_path)) in
  let tiles' := self.1 ++ [large_tile_img] in
  let tile_names' := self.2 ++ [name] in
  if rotate cfg then
    let copies := rotated_copies large_tile_img name in
    Ok (tiles' ++ copies.*1, tile_names' ++ copies.*2)
  else Ok (tiles', tile_names').

(** The loop of [prepare_tiles_from_paths]. *)
Fixpoint process_tiles (cfg : Config) (self : list Img * list string)
    (tile_paths : list Path) : result (list Img * list string) :=
  match tile_paths with
  | [] => Ok self
  | tile_path :: rest =>
      self' ← process_tile cfg self tile_path;
      process_tiles cfg self' rest
  end.

Definition prepare_tiles_from_paths (cfg : Config) (tile_paths : list Path)
    : result (TileBox Img) :=
  self ← process_tiles cfg ([], []) tile_paths;
  q ← py_truediv (inject_Z (match_width cfg)) (tile_ratio cfg);
  let match_size := (match_width cfg, py_int q) in
  Ok (mkTileBox cfg self.1 self.2
        (map (fun t => pixels (resize_nearest t match_size)) self.1)).

Definition TileBox_init (tile_paths : list Path) (cfg : Config)
    : result (TileBox Img) :=
  prepare_tiles_from_paths cfg tile_paths.

End TileBox_init.

(** ** More sample inputs *)

(** The second record of the run of [small_pool] over [small_matches]. *)
Definition small_second_record : assignment unit :=
  mkAssignment 2 tt "0003" (50, 0, 100, 50).

(** A comparison block read off the left edge of the cell. *)
Definition sample_block (b : box) : list Z := [b.1.1.1 / 4].

(** The cells of a 100 by 100 image under [small_pool], shuffle of two. *)
Definition sample_cells : list (list nat) * list box :=
  Eval vm_compute in
    match match_tiles argsort_stable sample_block small_pool
            (coords_from_middle (fun i => i) 2 2 1 2) with
    | Ok cells => cells
    | Raise _ => ([], [])
    end.

(** A one-tile pool for any configuration. *)
Definition one_tile_pool (cfg : Config) : TileBox unit :=
  mkTileBox cfg [tt] ["0001"] [[128]].

(** An image library on images that are named by strings. *)
Definition sample_rotate (img : string) (angle : Z) : string :=
  img +:+ "@" +:+ pretty angle.

Definition sample_TileBox_init (tile_paths : list string) (cfg : Config)
    : result (TileBox string) :=
  TileBox_init (fun p => p) (fun p => p) (fun _ => (100, 50)) (fun img _ => img)
    (fun img _ => img) (fun img _ => img) (fun img _ => img) sample_rotate
    (fun _ => [1; 2; 3]) tile_paths cfg.

Definition sample_rotated_pool : TileBox string :=
  Eval vm_compute in
    match sample_TileBox_init ["IMG_0012.v2"; "ab"] (wood_config "RGB" true) with
    | Ok tb => tb
    | Raise _ => mkTileBox (wood_config "RGB" true) [] [] []
    end.

(** ** [process] of [compile_wood_mosaic.py]

    The script calls [create_mosaic] on each source image with its own
    settings and the defaults of the rest ([match_width = 20],
    [shuffle_first = 30]). *)

Section process.
Context {Img : Type}.
Variable argsort : list Q -> list nat.
Variable draws : nat -> nat.
Variable image_size : SourceImage -> Z * Z.
Variable comparison_block : box -> list Z.
Variable save : list (assignment Img) -> result ().
Variable show_instructions : list (assignment Img) -> result ().

Definition process (path_size : Z * Z) (tiles : Config -> TileBox Img)
    : result (list (assignment Img) * stop) :=
  create_mosaic argsort draws image_size comparison_block save show_instructions
    path_size 1 50 20 (5 # 2) false "RGB" tiles 30 true.

End process.

(** A comparison block of three samples. *)
Definition sample_block3 (b : box) : list Z := [b.1.1.1 / 4; 0; 0].
(** ** The functions that depend on rounding, in double precision

    A Python number is an unbounded [int] or a [float]; a float is a
    binary64 value, here a [spec_float] with 53 bits of precision, and its
    arithmetic is that of IEEE 754 with rounding to nearest even, as the
    standard library specifies it ([SFmul], [SFadd], [SFsub], [SFdiv]).
    The functions of this part are those of the first part written once
    more with these numbers, operation by operation. *)

Module Double.

Definition prec : Z := 53.
Definition emax : Z := 1024.

Inductive number : Type :=
  | Int (n : Z)
  | Float (x : spec_float).

(** An [int] as an operand that is not rounded: [int / int] is the
    correctly rounded quotient of the two integers themselves. *)
Definition exact (n : Z) : spec_float :=
  match n with
  | Z0 => S754_zero false
  | Zpos p => S754_finite false p 0
  | Zneg p => S754_finite true p 0
  end.

(** [float(n)], the conversion an [int] undergoes when it meets a float:
    rounded to nearest even, refused beyond the range of a float. *)
Definition float_of_int (n : Z) : result spec_float :=
  match binary_normalize prec emax n 0 false with
  | S754_infinity _ => Raise OverflowError
  | x => Ok x
  end.

Definition to_float (a : number) : result spec_float :=
  match a with
  | Int n => float_of_int n
  | Float x => Ok x
  end.

Definition is_zero (x : spec_float) : bool :=
  match x with
  | S754_zero _ => true
  | _ => false
  end.

(** [a * b] *)
Definition mul (a b : number) : result number :=
  match a, b with
  | Int m, Int n => Ok (Int (m * n))
  | _, _ =>
      x ← to_float a;
      y ← to_float b;
      Ok (Float (SFmul prec emax x y))
  end.

(** [a + b] *)
Definition add (a b : number) : result number :=
  match a, b with
  | Int m, Int n => Ok (Int (m + n))
  | _, _ =>
      x ← to_float a;
      y ← to_float b;
      Ok (Float (SFadd prec emax x y))
  end.

(** [a - b] *)
Definition sub (a b : number) : result number :=
  match a, b with
  | Int m, Int n => Ok (Int (m - n))
  | _, _ =>
      x ← to_float a;
      y ← to_float b;
      Ok (Float (SFsub prec emax x y))
  end.

(** [a / b] (true division) *)
Definition truediv (a b : number) : result number :=
  match a, b with
  | Int m, Int n =>
      if n =? 0 then Raise ZeroDivisionError
      else
        match SFdiv prec emax (exact m) (exact n) with
        | S754_infinity _ => Raise OverflowError
        | q => Ok (Float q)
        end
  | _, _ =>
      x ← to_float a;
      y ← to_float b;
      if is_zero y then Raise ZeroDivisionError
      else Ok (Float (SFdiv prec emax x y))
  end.

(** [int(a)]: a float is truncated toward zero. *)
Definition int (a : number) : result Z :=
  match a with
  | Int n => Ok n
  | Float (S754_zero _) => Ok 0
  | Float (S754_infinity _) => Raise OverflowError
  | Float S754_nan => Raise ValueError
  | Float (S754_finite s m e) => Ok (cond_Zopp s (Z.shiftl (Zpos m) e))
  end.

(** The truth value of a number in a condition: it is not zero. *)
Definition truthy (a : number) : bool :=
  match a with
  | Int n => negb (n =? 0)
  | Float x => negb (is_zero x)
  end.

(** [n < x] and [x < n] for an [int] and a float: Python compares the two
    values exactly, without converting the [int]. *)
Definition int_lt_float (n : Z) (x : spec_float) : bool :=
  match x with
  | S754_nan => false
  | S754_infinity s => negb s
  | S754_zero _ => n <? 0
  | S754_finite s m e =>
      if 0 <=? e then n <? cond_Zopp s (Z.shiftl (Zpos m) e)
      else Z.shiftl n (- e) <? cond_Zopp s (Zpos m)
  end.

Definition float_lt_int (x : spec_float) (n : Z) : bool :=
  match x with
  | S754_nan => false
  | S754_infinity s => s
  | S754_zero _ => 0 <? n
  | S754_finite s m e =>
      if 0 <=? e then cond_Zopp s (Z.shiftl (Zpos m) e) <? n
      else cond_Zopp s (Zpos m) <? Z.shiftl n (- e)
  end.

(** [a < b] *)
Definition lt (a b : number) : bool :=
  match a, b with
  | Int m, Int n => m <? n
  | Float x, Float y => SFltb x y
  | Int m, Float y => int_lt_float m y
  | Float x, Int n => float_lt_int x n
  end.

(** The floats of value [n] and [n / 2] for an integer [n], when these
    values are floats (below 2^53 they are), the nearest float otherwise. *)
Definition whole (n : Z) : spec_float := binary_normalize prec emax n 0 false.
Definition half (n : Z) : spec_float := binary_normalize prec emax n (-1) false.

(** The mantissa [q] with [n] zeros appended, [n] possibly zero. *)
Definition lshift (q : positive) (n : Z) : positive :=
  match n with
  | Zpos k => Pos.iter xO q k
  | _ => q
  end.

(** Where a float other than NaN stands among the floats: by sign and
    class first, then by exponent and mantissa; [x < y] holds exactly when
    the rank of [x] precedes that of [y]. *)
Definition rank (x : spec_float) : Z * Z * Z :=
  match x with
  | S754_zero _ => (0, 0, 0)
  | S754_infinity s => (cond_Zopp s 2, 0, 0)
  | S754_nan => (0, 0, 0)
  | S754_finite s m e => (cond_Zopp s 1, cond_Zopp s e, cond_Zopp s (Zpos m))
  end.

Definition rank_lt (a b : Z * Z * Z) : Prop :=
  a.1.1 < b.1.1
  \/ (a.1.1 = b.1.1 /\ (a.1.2 < b.1.2 \/ (a.1.2 = b.1.2 /\ a.2 < b.2))).

(** A float that is zero or finite. *)
Definition finite_float (x : spec_float) : Prop :=
  match x with
  | S754_zero _ | S754_finite _ _ _ => True
  | _ => False
  end.

(** An int, or a double (a float in the format of binary64) other than
    NaN and the infinities. *)
Definition finite (a : number) : Prop :=
  match a with
  | Int _ => True
  | Float x => finite_float x /\ valid_binary prec emax x = true
  end.

(** The keys that [<] orders: the ints among themselves, and the floats
    other than NaN among themselves. *)
Definition int_key (a : number) : Prop :=
  match a with
  | Int _ => True
  | Float _ => False
  end.

Definition float_key (a : number) : Prop :=
  match a with
  | Int _ => False
  | Float x => x <> S754_nan
  end.

(** ** [list.sort(key=...)]

    The keys are computed first, one per element and in order; an
    exception among them leaves the sort.  The elements are then sorted by
    their keys, compared with [<] only, and the sort is stable: as in the
    first part, the insertion of each element in front of the sorted rest,
    ahead of the first element whose key is not smaller than its own.
    This determines the result when [<] orders the keys, which a NaN among
    them would break; no theorem is stated for that case. *)

Fixpoint decorate {A} (key : A -> result number) (l : list A)
    : result (list (number * A)) :=
  match l with
  | [] => Ok []
  | a :: l' =>
      k ← key a;
      d ← decorate key l';
      Ok ((k, a) :: d)
  end.

Fixpoint insert_lt {A K} (lt : K -> K -> bool) (key : A -> K) (a : A) (l : list A)
    : list A :=
  match l with
  | [] => [a]
  | b :: l' => if lt (key b) (key a) then b :: insert_lt lt key a l' else a :: l
  end.

Definition sort_lt {A K} (lt : K -> K -> bool) (key : A -> K) (l : list A) : list A :=
  foldr (insert_lt lt key) [] l.

Definition list_sort {A} (key : A -> result number) (l : list A) : result (list A) :=
  d ← decorate key l;
  Ok (sort_lt lt fst d).*2.

(** ** [coords_from_middle] *)

Definition coords_key (x_mid y_mid : Z) (y_bias : number) (c : Z * Z)
    : result number :=
  p ← mul (Int (Z.abs (c.1 - x_mid))) y_bias;
  add p (Int (Z.abs (c.2 - y_mid))).

Definition coords_from_middle (draws : nat -> nat)
    (x_count y_count : Z) (y_bias : number) (shuffle_first : Z)
    : result (list (Z * Z)) :=
  qx ← truediv (Int x_count) (Int 2);
  x_mid ← int qx;
  qy ← truediv (Int y_count) (Int 2);
  y_mid ← int qy;
  let coords := list_prod (range x_count) (range y_count) in
  coords ← list_sort (coords_key x_mid y_mid y_bias) coords;
  let coords := shuffle_first_items draws coords shuffle_first in
  Ok coords.

(** [c] is listed before [d] by a stable ascending sort on [key]: the key
    of [d] is not smaller than that of [c], and when neither key is
    smaller than the other, [c] comes [before] [d]. *)
Definition sorted_before {A} (key : A -> result number) (before : A -> A -> Prop)
    (c d : A) : Prop :=
  exists kc kd,
    key c = Ok kc /\ key d = Ok kd
    /\ lt kd kc = false
    /\ (lt kc kd = true \/ before c d).

(** The key of [d] is not smaller than that of [c]. *)
Definition not_farther {A} (key : A -> result number) (c d : A) : Prop :=
  exists kc kd, key c = Ok kc /\ key d = Ok kd /\ lt kd kc = false.

(** ** [Config] and [SourceImage.__init__] *)

Record Config : Type := mkConfig {
  tile_ratio : number;
  match_width : Z;
  tile_width : Z;
  enlargement : number;
  color_mode : string;
  rotate : bool
}.

Definition tile_height (self : Config) : result Z :=
  q ← truediv (Int (tile_width self)) (tile_ratio self);
  int q.

(** The geometry of the source image: the size [(w, h)] of the enlarged
    image and the box handed to [crop], if any, as the four numbers of the
    tuple. *)
Record SourceImage : Type := mkSourceImage {
  large_size : Z * Z;
  crop_box : option (number * number * number * number)
}.

Definition SourceImage_init (img_size : Z * Z) (config : Config) : result SourceImage :=
  pw ← mul (Int img_size.1) (enlargement config);
  w ← int pw;
  ph ← mul (Int img_size.2) (enlargement config);
  h ← int ph;
  rw ← py_mod w (tile_width config);
  w_diff ← truediv (Int rw) (Int 2);
  th ← tile_height config;
  rh ← py_mod h th;
  h_diff ← truediv (Int rh) (Int 2);
  if truthy w_diff || truthy h_diff then
    right ← sub (Int w) w_diff;
    bottom ← sub (Int h) h_diff;
    Ok {| large_size := (w, h); crop_box := Some (w_diff, h_diff, right, bottom) |}
  else Ok {| large_size := (w, h); crop_box := None |}.

(** ** Readings of the specification that the code is compared with *)

(** The reading of the crop under which each side loses the truncated half
    of the remainder. *)
Definition truncated_crop (img_size : Z * Z) (config : Config) : Prop :=
  exists s th,
    SourceImage_init img_size config = Ok s
    /\ tile_height config = Ok th
    /\ let w := s.(large_size).1 in
       let h := s.(large_size).2 in
       let dw := (w mod tile_width config) / 2 in
       let dh := (h mod th) / 2 in
       match crop_box s with
       | Some (l, t, r, b) =>
           l = Float (whole dw) /\ t = Float (whole dh)
           /\ r = Float (whole (w - dw)) /\ b = Float (whole (h - dh))
       | None => dw = 0 /\ dh = 0
       end.

(** The exact value of a finite float. *)
Definition value (x : spec_float) : Q :=
  match x with
  | S754_finite s m e =>
      if 0 <=? e then inject_Z (cond_Zopp s (Z.shiftl (Zpos m) e))
      else (inject_Z (cond_Zopp s (Zpos m)) / inject_Z (Z.shiftl 1 (- e)))%Q
  | _ => 0%Q
  end.

(** ** Sample inputs *)

(** The floats that the literals [2.4] (the default [1920/800]), [2.5],
    [2.3], [0.7] and [1.1] denote. *)
Definition quotient (m n : Z) : spec_float := SFdiv prec emax (exact m) (exact n).

Definition f2_4 : spec_float := Eval vm_compute in quotient 1920 800.
Definition f2_5 : spec_float := Eval vm_compute in quotient 5 2.
Definition f2_3 : spec_float := Eval vm_compute in quotient 23 10.
Definition f0_7 : spec_float := Eval vm_compute in quotient 7 10.
Definition f1_1 : spec_float := Eval vm_compute in quotient 11 10.

Definition wood_config : Config := mkConfig (Int 1) 20 50 (Float f2_5) "RGB" true.

End Double.

(** The traversal of the code sorted by the key with the exact centre,
    ties in enumeration order. *)
Definition sorted_from_exact_centre (x_count y_count : Z) (y_bias : Q)
    (coords : list (Z * Z)) : Prop :=
  StronglySorted (stable_lt (centre_key x_count y_count y_bias) enumerated_before) coords.

(** The traversal sorted by the key with the truncated centre in exact
    arithmetic, ties in enumeration order. *)
Definition sorted_by_exact_key (x_count y_count : Z) (y_bias : Q)
    (coords : list (Z * Z)) : Prop :=
  StronglySorted
    (stable_lt (coords_key (x_count ÷ 2) (y_count ÷ 2) y_bias) enumerated_before)
    coords.
(** ** Facts about truncation *)

Lemma py_int_floor (q : Q) : (0 <= q)%Q -> py_int q = Qfloor q.
Proof.
  destruct q as [n d]. unfold Qle, py_int, Qfloor. simpl. intros H.
  apply Z.quot_div_nonneg; lia.
Qed.

Lemma py_int_nonneg (q : Q) : (0 <= q)%Q -> 0 <= py_int q.
Proof.
  intros H. rewrite py_int_floor by done.
  change 0 with (Qfloor 0). by apply Qfloor_resp_le.
Qed.

Lemma py_int_le (q : Q) (n : Z) : (0 <= q)%Q -> (q <= inject_Z n)%Q -> py_int q <= n.
Proof.
  intros H0 H. rewrite py_int_floor by done.
  rewrite <- (Qfloor_Z n). by apply Qfloor_resp_le.
Qed.

Lemma py_int_half (n : Z) : 0 <= n -> py_int (inject_Z n / 2) = n / 2.
Proof.
  intros H. unfold py_int. simpl. rewrite Z.mul_1_r.
  apply Z.quot_div_nonneg; lia.
Qed.

Lemma Qdiv_mul_cancel (a b : Q) : (0 < b)%Q -> (a / b * b == a)%Q.
Proof.
  intros Hb. field. intros E. rewrite E in Hb. by apply Qlt_irrefl in Hb.
Qed.

Lemma Qdiv_le_mul (a b c : Q) : (0 < b)%Q -> (a / b <= c)%Q -> (a <= c * b)%Q.
Proof.
  intros Hb H. apply (Qmult_le_r _ _ b) in H; [|done].
  by rewrite Qdiv_mul_cancel in H.
Qed.

Lemma Qlt_div_mul (a b c : Q) : (0 < b)%Q -> (c < a / b)%Q -> (c * b < a)%Q.
Proof.
  intros Hb H. apply (Qmult_lt_r _ _ b) in H; [|done].
  by rewrite Qdiv_mul_cancel in H.
Qed.

Lemma bound_between (low high value : Z) :
  low <= high -> low <= bound low high value <= high.
Proof. unfold bound. lia. Qed.

(** C10: for an image of positive width and height and a positive target
    aspect, whatever centerpoint is requested (or none), the crop box is
    returned and lies inside the image:
    0 <= left <= right <= width and 0 <= top <= bottom <= height. *)
Theorem aspect_crop_box_within_image (width height : Z) (target_aspect : Q)
    (centerpoint : option (Z * Z)) :
  0 < width -> 0 < height -> (0 < target_aspect)%Q ->
  exists left top right bottom,
    resize_box_aspect_crop_to_extent (width, height) target_aspect centerpoint
      = Ok (left, top, right, bottom)
    /\ 0 <= left <= right /\ right <= width
    /\ 0 <= top <= bottom /\ bottom <= height.
Proof.
  intros Hw Hh Ht.
  assert (HhQ : (0 < inject_Z height)%Q) by (unfold Qlt; simpl; lia).
  assert (HwQ : (0 < inject_Z width)%Q) by (unfold Qlt; simpl; lia).
  unfold resize_box_aspect_crop_to_extent, py_truediv. cbn [fst snd].
  destruct (Qeq_bool (inject_Z height) 0) eqn:Eh.
  { apply Qeq_bool_iff in Eh. rewrite Eh in HhQ. by apply Qlt_irrefl in HhQ. }
  cbn [mbind result_bind].
  destruct (Qle_bool (inject_Z width / inject_Z height) target_aspect) eqn:Ea; cbn [negb].
  - (* crop the top and bottom *)
    apply Qle_bool_iff in Ea.
    destruct (Qeq_bool target_aspect 0) eqn:Et.
    { apply Qeq_bool_iff in Et. rewrite Et in Ht. by apply Qlt_irrefl in Ht. }
    cbn [mbind result_bind].
    set (new_height := py_int (inject_Z width / target_aspect)).
    assert (Hq0 : (0 <= inject_Z width / target_aspect)%Q).
    { apply Qle_shift_div_l; [done|]. rewrite Qmult_0_l. by apply Qlt_le_weak. }
    assert (Hq1 : (inject_Z width / target_aspect <= inject_Z height)%Q).
    { apply Qle_shift_div_r; [done|].
      apply Qdiv_le_mul in Ea; [|done].
      by rewrite Qmult_comm. }
    assert (H0 : 0 <= new_height) by by apply py_int_nonneg.
    assert (H1 : new_height <= height) by by apply py_int_le.
    rewrite py_int_half by done.
    set (hh := new_height / 2).
    assert (0 <= hh /\ 2 * hh <= new_height) as [? ?].
    { subst hh. split; [apply Z.div_pos; lia|]. apply Z.mul_div_le. lia. }
    eexists _, _, _, _. split; [reflexivity|].
    pose proof (bound_between hh (height - hh)
                  (match centerpoint with
                   | Some c => c
                   | None => (py_int (inject_Z width / 2), py_int (inject_Z height / 2))
                   end).2 ltac:(lia)).
    lia.
  - (* crop the left and right edges *)
    assert (Ea' : (target_aspect < inject_Z width / inject_Z height)%Q).
    { apply Qnot_le_lt. intros Hle. apply Qle_bool_iff in Hle. congruence. }
    set (new_width := py_int (target_aspect * inject_Z height)).
    assert (Hq0 : (0 <= target_aspect * inject_Z height)%Q).
    { apply Qmult_le_0_compat; by apply Qlt_le_weak. }
    assert (Hq1 : (target_aspect * inject_Z height <= inject_Z width)%Q).
    { apply Qlt_le_weak. by apply Qlt_div_mul. }
    assert (H0 : 0 <= new_width) by by apply py_int_nonneg.
    assert (H1 : new_width <= width) by by apply py_int_le.
    rewrite py_int_half by done.
    set (hw := new_width / 2).
    assert (0 <= hw /\ 2 * hw <= new_width) as [? ?].
    { subst hw. split; [apply Z.div_pos; lia|]. apply Z.mul_div_le. lia. }
    eexists _, _, _, _. split; [reflexivity|].
    pose proof (bound_between hw (width - hw)
                  (match centerpoint with
                   | Some c => c
                   | None => (py_int (inject_Z width / 2), py_int (inject_Z height / 2))
                   end).1 ltac:(lia)).
    lia.
Qed.


(** ** The assembly loop *)

Section assembly.
Context {Img : Type}.
Implicit Types (tiles : list Img) (tile_names : list string) (boxes : list box).
Implicit Types (available : gset nat) (m : list nat) (matches : list (list nat)).

Lemma getitem_Ok {A} (l : list A) (i : nat) (a : A) :
  getitem l i = Ok a <-> l !! i = Some a.
Proof. unfold getitem. destruct (l !! i); split; congruence. Qed.

Lemma getitem_lt {A} (l : list A) (i : nat) :
  (i < length l)%nat -> exists a, getitem l i = Ok a.
Proof.
  intros H. destruct (lookup_lt_is_Some_2 l i H) as [a Ha].
  exists a. by apply getitem_Ok.
Qed.

Lemma next_available_Ok m available j :
  next_available m available = Ok j -> j ∈ available /\ j ∈ m.
Proof.
  unfold next_available.
  destruct (find _ m) as [j'|] eqn:Hf; [|done].
  intros [= <-]. apply find_some in Hf as [Hin Hb].
  apply bool_decide_eq_true in Hb. split; [done|]. by apply list_elem_of_In.
Qed.

Lemma next_available_some m available j :
  j ∈ available -> j ∈ m -> exists j', next_available m available = Ok j'.
Proof.
  intros Ha Hm. unfold next_available.
  destruct (find _ m) as [j'|] eqn:Hf; [by eexists|].
  apply list_elem_of_In in Hm.
  pose proof (find_none _ _ Hf j Hm) as Hb. simpl in Hb.
  apply bool_decide_eq_false in Hb. done.
Qed.

Lemma index_in_indeces (rotate : bool) (j : nat) : j ∈ indeces rotate j.
Proof.
  destruct rotate; simpl; [|set_solver].
  pose proof (Nat.div_mod_eq j 4). pose proof (Nat.mod_upper_bound j 4).
  assert (j = j / 4 * 4 + 3 \/ j = j / 4 * 4 + 2
          \/ j = j / 4 * 4 + 1 \/ j = j / 4 * 4 + 0)%nat as Hj by lia.
  rewrite !elem_of_cons. tauto.
Qed.

(** What one turn of the loop does when it emits a record. *)
Lemma assemble_cons_inv reuse rotate tiles tile_names boxes i available m matches
    records s :
  assemble reuse rotate tiles tile_names boxes i available (m :: matches) = (records, s) ->
  records = []
  \/ exists j available' tile tile_name b,
       available ≠ ∅
       /\ choose reuse rotate m available = Ok (j, available')
       /\ tiles !! j = Some tile
       /\ tile_names !! j = Some tile_name
       /\ boxes !! i = Some b
       /\ records = mkAssignment j tile tile_name b
            :: (assemble reuse rotate tiles tile_names boxes (S i) available' matches).1
       /\ s = (assemble reuse rotate tiles tile_names boxes (S i) available' matches).2.
Proof.
  simpl. case_decide as Hav; [intros [= <- <-]; by left|].
  destruct (choose reuse rotate m available) as [[j available']|e] eqn:Hc; simpl;
    [|intros [= <- <-]; by left].
  destruct (getitem tiles j) as [tile|e] eqn:Ht; simpl; [|intros [= <- <-]; by left].
  destruct (getitem tile_names j) as [tile_name|e] eqn:Hn; simpl;
    [|intros [= <- <-]; by left].
  destruct (getitem boxes i) as [b|e] eqn:Hb; simpl; [|intros [= <- <-]; by left].
  destruct (assemble reuse rotate tiles tile_names boxes (S i) available' matches)
    as [records' s'] eqn:Hrest.
  intros [= <- <-]. right.
  exists j, available', tile, tile_name, b.
  rewrite <- !getitem_Ok, Hrest. done.
Qed.

(** Without reuse every emitted tile was available when the loop reached
    its cell. *)
Lemma no_reuse_records_available rotate tiles tile_names boxes matches :
  forall i available,
    Forall (fun r => a_index r ∈ available)
      (assemble false rotate tiles tile_names boxes i available matches).1.
Proof.
  induction matches as [|m matches IH]; intros i available; [by constructor|].
  destruct (assemble false rotate tiles tile_names boxes i available (m :: matches))
    as [records s] eqn:Hrun.
  apply assemble_cons_inv in Hrun
    as [->|(j & available' & tile & tile_name & b & _ & Hc & _ & _ & _ & -> & _)];
    [by constructor|].
  unfold choose in Hc. simpl in Hc.
  destruct (next_available m available) as [j'|] eqn:Hn; [|done].
  simpl in Hc.
  assert (j' = j /\ available ∖ list_to_set (indeces rotate j') = available')
    as [-> <-] by (by inversion Hc).
  apply next_available_Ok in Hn as [Hj _].
  simpl. constructor; [done|].
  eapply Forall_impl; [apply IH|]. simpl.
  intros r Hr. by apply elem_of_difference in Hr as [? _].
Qed.

Lemma no_reuse_groups_distinct rotate tiles tile_names boxes matches :
  forall i available,
    NoDup (map (fun r => indeces rotate (a_index r))
             (assemble false rotate tiles tile_names boxes i available matches).1).
Proof.
  induction matches as [|m matches IH]; intros i available; [by constructor|].
  destruct (assemble false rotate tiles tile_names boxes i available (m :: matches))
    as [records s] eqn:Hrun.
  apply assemble_cons_inv in Hrun
    as [->|(j & available' & tile & tile_name & b & _ & Hc & _ & _ & _ & -> & _)];
    [by constructor|].
  unfold choose in Hc. simpl in Hc.
  destruct (next_available m available) as [j'|] eqn:Hn; [|done].
  simpl in Hc.
  assert (j' = j /\ available ∖ list_to_set (indeces rotate j') = available')
    as [-> <-] by (by inversion Hc).
  simpl. constructor; [|apply IH].
  intros Hin. apply list_elem_of_In, in_map_iff in Hin as (r & Heq & Hr).
  pose proof (no_reuse_records_available rotate tiles tile_names boxes matches (S i)
                (available ∖ list_to_set (indeces rotate j))) as Hav.
  rewrite Forall_forall in Hav. apply list_elem_of_In in Hr. apply Hav in Hr.
  pose proof (index_in_indeces rotate (a_index r)) as Hself.
  rewrite Heq in Hself. apply elem_of_difference in Hr as [_ Hr].
  apply Hr, elem_of_list_to_set, Hself.
Qed.

(** With reuse the loop takes the head of each ranking and leaves the
    availability set alone. *)
Lemma reuse_records_top rotate tiles tile_names boxes matches :
  forall i available,
    let records :=
      (assemble true rotate tiles tile_names boxes i available matches).1 in
    Forall2 (fun r m => m !! 0%nat = Some (a_index r))
      records (take (length records) matches)
    /\ a_box <$> records = take (length records) (drop i boxes).
Proof.
  induction matches as [|m matches IH]; intros i available; [by split; constructor|].
  cbv zeta.
  destruct (assemble true rotate tiles tile_names boxes i available (m :: matches))
    as [records s] eqn:Hrun.
  apply assemble_cons_inv in Hrun
    as [->|(j & available' & tile & tile_name & b & _ & Hc & _ & _ & Hb & -> & _)];
    [by split; constructor|].
  unfold choose in Hc. simpl in Hc.
  destruct (getitem m 0) as [j'|] eqn:Hg; [|done].
  simpl in Hc. assert (j' = j) as -> by (by inversion Hc).
  apply getitem_Ok in Hg.
  destruct (IH (S i) available') as [IH1 IH2].
  simpl. split; [by constructor|].
  rewrite (drop_S _ _ _ Hb). simpl. by f_equal.
Qed.

(** Without reuse or rotation, when every ranking lists the whole pool
    and there are more cells than available tiles, the loop emits one
    record per available tile and then breaks. *)
Lemma assemble_exhausts tiles tile_names boxes (K : nat) matches :
  length tiles = K -> length tile_names = K ->
  Forall (fun m => forall j, (j < K)%nat -> j ∈ m) matches ->
  forall i available,
    (forall j, j ∈ available -> (j < K)%nat) ->
    (size available < length matches)%nat ->
    (i + length matches <= length boxes)%nat ->
    exists records,
      assemble false false tiles tile_names boxes i available matches
        = (records, RanOutOfTiles)
      /\ length records = size available
      /\ (forall j, j ∈ a_index <$> records <-> j ∈ available)
      /\ a_box <$> records = take (size available) (drop i boxes).
Proof.
  intros Ht Hn. induction matches as [|m matches IH];
    intros Hfull i available Hlt Hsize Hboxes; [simpl in Hsize; lia|].
  apply Forall_cons in Hfull as [Hm Hfull]. specialize (IH Hfull).
  simpl assemble. case_decide as Hav.
  { subst available. exists []. rewrite size_empty. simpl.
    split; [done|]. split; [done|]. split; [|done].
    intros j. split; intros Hj; [by apply elem_of_nil in Hj|by apply elem_of_empty in Hj]. }
  destruct (set_choose_L _ Hav) as [j0 Hj0].
  destruct (next_available_some m available j0 Hj0 (Hm _ (Hlt _ Hj0))) as [j Hj].
  unfold choose. simpl. rewrite Hj. simpl.
  apply next_available_Ok in Hj as [Hja _].
  destruct (getitem_lt tiles j) as [tile ->]; [specialize (Hlt _ Hja); lia|].
  destruct (getitem_lt tile_names j) as [tile_name ->]; [specialize (Hlt _ Hja); lia|].
  destruct (getitem_lt boxes i) as [b Hb]; [simpl in Hboxes; lia|].
  rewrite Hb. simpl.
  rewrite (union_empty_r_L ({[j]} : gset nat)).
  assert (Hsz : size available = S (size (available ∖ {[j]}))).
  { rewrite size_difference by (by apply singleton_subseteq_l).
    rewrite size_singleton.
    assert (size available ≠ 0)%nat by (by intros ?%size_empty_inv%leibniz_equiv).
    lia. }
  destruct (IH (S i) (available ∖ {[j]})) as (records & -> & Hlen & Hidx & Hbx).
  { intros j' Hj'. apply Hlt. by apply elem_of_difference in Hj' as [? _]. }
  { simpl in Hsize. lia. }
  { simpl in Hboxes. lia. }
  eexists. split; [reflexivity|]. rewrite Hsz.
  split; [simpl; by rewrite Hlen|]. split.
  - intros j'. rewrite fmap_cons, elem_of_cons, Hidx, elem_of_difference,
      elem_of_singleton. simpl.
    split; [intros [->|[? _]]; done|].
    intros Hj'. destruct (decide (j' = j)); [by left|by right].
  - apply getitem_Ok in Hb. rewrite fmap_cons, (drop_S _ _ _ Hb), Hbx. done.
Qed.

End assembly.

Lemma NoDup_map_coarser {A B C} (f : A -> B) (g : A -> C) (l : list A) :
  (forall x y, g x = g y -> f x = f y) -> NoDup (map f l) -> NoDup (map g l).
Proof.
  intros Hfg. induction l as [|a l IH]; simpl; [constructor|].
  rewrite !NoDup_cons. intros [Hnotin Hnd]. split; [|by apply IH].
  intros Hin. apply Hnotin.
  apply list_elem_of_In, in_map_iff in Hin as (x & Hx & Hin).
  apply list_elem_of_In, in_map_iff. exists x. split; [by apply Hfg|done].
Qed.

(** C1: in a run without reuse no two emitted records refer to the same
    rotation group when rotation is on (the group of [j] being the four
    indices from [floor(j/4)*4]), and no two refer to the same tile index
    when rotation is off. *)
Theorem no_reuse_records_are_distinct {Img} (tile_box : TileBox Img)
    (matches : list (list nat)) (boxes : list box) :
  let records := (assemble_mosaic false tile_box matches boxes).1 in
  NoDup (map (fun r => indeces (rotate (config tile_box)) (a_index r)) records)
  /\ (if rotate (config tile_box)
      then NoDup (map (fun r => (a_index r / 4 * 4)%nat) records)
      else NoDup (map a_index records)).
Proof.
  simpl. unfold assemble_mosaic.
  pose proof (no_reuse_groups_distinct (rotate (config tile_box)) (tiles tile_box)
                (tile_names tile_box) boxes matches 0
                (list_to_set (seq 0 (length (tiles tile_box))))) as Hnd.
  split; [done|].
  destruct (rotate (config tile_box)).
  - eapply NoDup_map_coarser; [|exact Hnd]. simpl. intros x y ->. done.
  - eapply NoDup_map_coarser; [|exact Hnd]. simpl. intros x y ->. done.
Qed.

(** C3: in a run with reuse the tile of every emitted record is the first
    element of the ranking of its cell, whatever was chosen before and
    whatever the availability set holds. *)
Theorem reuse_takes_top_ranked {Img} (rotate : bool) (tiles : list Img)
    (tile_names : list string) (boxes : list box) (i : nat)
    (available : gset nat) (matches : list (list nat)) :
  let records := (assemble true rotate tiles tile_names boxes i available matches).1 in
  Forall2 (fun r m => m !! 0%nat = Some (a_index r))
    records (take (length records) matches)
  /\ a_box <$> records = take (length records) (drop i boxes).
Proof. apply reuse_records_top. Qed.

(** C4: without reuse and without rotation, a pool of K tiles and more
    than K cells give exactly K records, one per tile of the pool, placed
    on the first K cells of the traversal; the loop then stops by its
    [break], not by an exception, and the other cells get no record. *)
Theorem pool_exhaustion_stops_after_K {Img} (tile_box : TileBox Img)
    (matches : list (list nat)) (boxes : list box) :
  let K := length (tiles tile_box) in
  rotate (config tile_box) = false ->
  length (tile_names tile_box) = K ->
  length boxes = length matches ->
  Forall (fun m => m ≡ₚ seq 0 K) matches ->
  (K < length matches)%nat ->
  exists records,
    assemble_mosaic false tile_box matches boxes = (records, RanOutOfTiles)
    /\ length records = K
    /\ a_index <$> records ≡ₚ seq 0 K
    /\ a_box <$> records = take K boxes.
Proof.
  intros K Hrot Hnames Hboxes Hperm Hcells.
  unfold assemble_mosaic. rewrite Hrot. fold K.
  assert (Hsize : size (list_to_set (seq 0 K) : gset nat) = K).
  { rewrite size_list_to_set by apply NoDup_seq. apply length_seq. }
  destruct (assemble_exhausts (tiles tile_box) (tile_names tile_box) boxes K matches
              eq_refl Hnames) with (i := 0%nat) (available := (list_to_set (seq 0 K) : gset nat))
    as (records & Hrun & Hlen & Hidx & Hbx).
  - eapply Forall_impl; [exact Hperm|]. simpl. intros m Hm j Hj.
    rewrite Hm. apply elem_of_seq. lia.
  - intros j Hj. apply elem_of_list_to_set, elem_of_seq in Hj. lia.
  - by rewrite Hsize.
  - simpl. lia.
  - rewrite Hsize in Hlen, Hbx. exists records.
    split; [done|]. split; [done|]. split; [|done].
    apply NoDup_Permutation; [|apply NoDup_seq|].
    + pose proof (no_reuse_groups_distinct false (tiles tile_box) (tile_names tile_box)
                    boxes matches 0 (list_to_set (seq 0 K))) as Hnd.
      rewrite Hrun in Hnd. simpl in Hnd.
      eapply (NoDup_map_coarser _ a_index) in Hnd; [done|]. by intros x y ->.
    + intros j. rewrite Hidx. apply elem_of_list_to_set.
Qed.

(** ** Sorting by key *)

Section sort_by.
Context {A : Type} (key : A -> Q).

Lemma insert_by_perm (a : A) (l : list A) : insert_by key a l ≡ₚ a :: l.
Proof.
  induction l as [|b l IH]; simpl; [done|].
  destruct (Qle_bool (key a) (key b)); [done|].
  rewrite IH. apply perm_swap.
Qed.

Lemma sort_by_perm (l : list A) : sort_by key l ≡ₚ l.
Proof.
  induction l as [|a l IH]; simpl; [done|].
  fold (sort_by key l). by rewrite insert_by_perm, IH.
Qed.

Lemma stable_lt_key_le (before : A -> A -> Prop) (c d : A) :
  stable_lt key before c d -> (key c <= key d)%Q.
Proof. intros [H|[H _]]; [by apply Qlt_le_weak|]. rewrite H. apply Qle_refl. Qed.

(** Inserting an element that precedes all of [l] in the original order
    keeps [l] sorted with ties in the original order. *)
Lemma insert_by_sorted (before : A -> A -> Prop) (a : A) (l : list A) :
  StronglySorted (stable_lt key before) l ->
  Forall (before a) l ->
  StronglySorted (stable_lt key before) (insert_by key a l).
Proof.
  induction l as [|b l IH]; simpl; intros Hs Hb.
  { constructor; constructor. }
  apply StronglySorted_inv in Hs as [Hs Hbl].
  destruct (Qle_bool (key a) (key b)) eqn:Hab.
  - apply Qle_bool_iff in Hab.
    constructor; [by constructor|].
    assert (Hle : Forall (fun c => (key a <= key c)%Q) (b :: l)).
    { constructor; [done|]. eapply Forall_impl; [exact Hbl|]. simpl.
      intros c Hc. eapply Qle_trans; [exact Hab|]. by eapply stable_lt_key_le. }
    rewrite Forall_forall in Hle, Hb. apply Forall_forall. intros c Hc.
    destruct (Qle_lt_or_eq _ _ (Hle c Hc)) as [Hlt|Heq]; [by left|].
    right. split; [done|]. by apply Hb.
  - assert (Hba : (key b < key a)%Q).
    { apply Qnot_le_lt. intros Hle. apply Qle_bool_iff in Hle. congruence. }
    apply Forall_cons in Hb as [_ Hb].
    constructor; [by apply IH|].
    rewrite insert_by_perm. constructor; [by left|done].
Qed.

Lemma sort_by_stable (before : A -> A -> Prop) (l : list A) :
  StronglySorted before l ->
  StronglySorted (stable_lt key before) (sort_by key l).
Proof.
  induction l as [|a l IH]; simpl; intros Hs; [constructor|].
  apply StronglySorted_inv in Hs as [Hs Ha].
  fold (sort_by key l). apply insert_by_sorted; [by apply IH|].
  by rewrite sort_by_perm.
Qed.

(** Whatever the order of the input, the output is sorted by key. *)
Lemma sort_by_sorted (l : list A) :
  StronglySorted (fun c d => (key c <= key d)%Q) (sort_by key l).
Proof.
  assert (Htriv : StronglySorted (fun _ _ : A => True) l).
  { induction l; constructor; [done|]. by apply Forall_forall. }
  apply (sort_by_stable _ l) in Htriv.
  induction Htriv as [|c l' Hl' IH Hc]; constructor; [done|].
  eapply Forall_impl; [exact Hc|]. intros d. apply stable_lt_key_le.
Qed.

End sort_by.

(** ** Shuffling *)

Section shuffle.
Context {A : Type}.
Implicit Types (x : list A).

Lemma insert_head_perm x (j : nat) (b c : A) :
  x !! j = Some b -> b :: <[j:=c]> x ≡ₚ c :: x.
Proof.
  revert j. induction x as [|d x IH]; intros [|j] Hj; simplify_eq/=.
  - apply perm_swap.
  - rewrite perm_swap, (IH j Hj). apply perm_swap.
Qed.

Lemma swap_perm (i j : nat) x : swap i j x ≡ₚ x.
Proof.
  unfold swap. revert i j. induction x as [|c x IH]; intros i j; [by destruct i|].
  destruct i as [|i], j as [|j]; simpl.
  - done.
  - destruct (x !! j) as [b|] eqn:Hj; [|done]. by apply insert_head_perm.
  - destruct (x !! i) as [a|] eqn:Hi; [|done]. by apply insert_head_perm.
  - specialize (IH i j).
    destruct (x !! i) as [a|], (x !! j) as [b|]; try done.
    by constructor.
Qed.

Lemma shuffle_perm (draws : nat -> nat) x : shuffle draws x ≡ₚ x.
Proof.
  unfold shuffle. generalize (length x - 1)%nat as i. intros i. revert x.
  induction i as [|i IH]; intros x; simpl; [done|].
  by rewrite IH, swap_perm.
Qed.

Lemma shuffle_first_items_perm (draws : nat -> nat) (lst : list A) (i : Z) :
  shuffle_first_items draws lst i ≡ₚ lst.
Proof.
  unfold shuffle_first_items. destruct (i =? 0); [done|].
  by rewrite shuffle_perm, take_drop.
Qed.

Lemma shuffle_first_items_zero (draws : nat -> nat) (lst : list A) :
  shuffle_first_items draws lst 0 = lst.
Proof. done. Qed.

End shuffle.

(** ** The grid and its traversal *)

Lemma seqZ_sorted (n : Z) : forall m, StronglySorted Z.lt (seqZ m n).
Proof.
  remember (Z.to_nat n) as k eqn:Hk. revert n Hk.
  induction k as [|k IH]; intros n Hk m.
  - rewrite seqZ_nil by lia. constructor.
  - rewrite seqZ_cons by lia. constructor; [apply IH; lia|].
    apply Forall_seqZ. lia.
Qed.

Lemma StronglySorted_irrefl_NoDup {A} (R : A -> A -> Prop) (l : list A) :
  (forall a, ~ R a a) -> StronglySorted R l -> NoDup l.
Proof.
  intros Hirr. induction 1 as [|a l Hs IH Ha]; constructor; [|done].
  intros Hin. rewrite Forall_forall in Ha. by apply (Hirr a), Ha.
Qed.

Lemma list_prod_enumerated (l1 l2 : list Z) :
  StronglySorted Z.lt l1 -> StronglySorted Z.lt l2 ->
  StronglySorted enumerated_before (list_prod l1 l2).
Proof.
  intros H1 H2. induction H1 as [|a l1 Hs IH Ha]; simpl; [constructor|].
  apply StronglySorted_app_2; [| |done].
  - intros c d Hc Hd.
    apply list_elem_of_In, in_map_iff in Hc as (y & <- & _).
    destruct d as [x' y']. apply list_elem_of_In, in_prod_iff in Hd as [Hx' _].
    rewrite Forall_forall in Ha. left. simpl. by apply Ha, list_elem_of_In.
  - clear -H2. induction H2 as [|y l2 Hs IH Hy]; simpl; [constructor|].
    constructor; [done|]. apply Forall_forall. intros c Hc.
    apply list_elem_of_In, in_map_iff in Hc as (y' & <- & Hy').
    rewrite Forall_forall in Hy. right. simpl. split; [done|].
    by apply Hy, list_elem_of_In.
Qed.

Lemma grid_enumerated (x_count y_count : Z) :
  StronglySorted enumerated_before (list_prod (range x_count) (range y_count)).
Proof. apply list_prod_enumerated; apply seqZ_sorted. Qed.

Lemma enumerated_before_irrefl (c : Z * Z) : ~ enumerated_before c c.
Proof. unfold enumerated_before. lia. Qed.

Lemma py_int_half_quot (n : Z) : py_int (inject_Z n / 2) = n ÷ 2.
Proof. unfold py_int. simpl. by rewrite Z.mul_1_r. Qed.

Lemma coords_from_middle_perm (draws : nat -> nat) (x_count y_count : Z)
    (y_bias : Q) (shuffle_first : Z) :
  coords_from_middle draws x_count y_count y_bias shuffle_first
    ≡ₚ list_prod (range x_count) (range y_count).
Proof.
  unfold coords_from_middle. by rewrite shuffle_first_items_perm, sort_by_perm.
Qed.

(** C6: for counts of at least one, any bias, any prefix length and any
    outcome of the shuffle, the traversal has [x_count * y_count] entries,
    without repetition, and holds exactly the pairs [(x, y)] with
    [0 <= x < x_count] and [0 <= y < y_count]. *)
Theorem coords_from_middle_covers_grid (draws : nat -> nat)
    (x_count y_count : Z) (y_bias : Q) (shuffle_first : Z) :
  1 <= x_count -> 1 <= y_count ->
  let coords := coords_from_middle draws x_count y_count y_bias shuffle_first in
  Z.of_nat (length coords) = x_count * y_count
  /\ NoDup coords
  /\ forall x y, (x, y) ∈ coords <-> (0 <= x < x_count /\ 0 <= y < y_count).
Proof.
  intros Hx Hy coords.
  pose proof (coords_from_middle_perm draws x_count y_count y_bias shuffle_first) as Hp.
  fold coords in Hp. split; [|split].
  - rewrite Hp, length_prod. unfold range. rewrite !length_seqZ. lia.
  - rewrite Hp. eapply StronglySorted_irrefl_NoDup;
      [apply enumerated_before_irrefl|apply grid_enumerated].
  - intros x y. rewrite Hp, list_elem_of_In, in_prod_iff, <- !list_elem_of_In.
    unfold range. rewrite !elem_of_seqZ. lia.
Qed.

(** ** The tile pool and its ranking query *)

Lemma argsort_stable_contract : argsort_contract argsort_stable.
Proof.
  intros v. unfold argsort_stable. split; [apply sort_by_perm|].
  apply (sort_by_sorted (fun i => nth i v 0%Q)).
Qed.

(** C9: when the colour mode of the pool is neither ['RGB'] nor ['L'], the
    ranking query raises for every block: no branch binds the result. *)
Theorem ranking_fails_outside_RGB_and_L {Img} (argsort : list Q -> list nat)
    (tile_box : TileBox Img) (block : list Z) :
  color_mode (config tile_box) <> "RGB" ->
  color_mode (config tile_box) <> "L" ->
  best_tile_block_match argsort tile_box block = Raise UnboundLocalError.
Proof.
  intros Hrgb Hl. unfold best_tile_block_match.
  destruct (decide (color_mode (config tile_box) = "RGB")); [done|].
  destruct (decide (color_mode (config tile_box) = "L")); done.
Qed.

(** In the two modes with a branch the query on a pool that is not empty
    returns what [argsort] makes of the distances: every pool index once. *)
Lemma best_tile_block_match_ranked {Img} (argsort : list Q -> list nat)
    (tile_box : TileBox Img) (block : list Z) :
  argsort_contract argsort ->
  color_mode (config tile_box) = "RGB" \/ color_mode (config tile_box) = "L" ->
  tile_array tile_box <> [] ->
  exists ranking,
    best_tile_block_match argsort tile_box block = Ok ranking
    /\ ranking ≡ₚ seq 0 (length (tile_array tile_box)).
Proof.
  intros Hsort Hmode _.
  set (distance := map (squared_difference_mean block) (tile_array tile_box)).
  exists (argsort distance).
  destruct (Hsort distance) as [Hperm _].
  assert (Hlen : length distance = length (tile_array tile_box)) by apply length_map.
  rewrite Hlen in Hperm.
  split; [|done].
  unfold best_tile_block_match.
  destruct (decide (color_mode (config tile_box) = "RGB")); [done|].
  destruct (decide (color_mode (config tile_box) = "L")); [done|].
  by destruct Hmode.
Qed.

(** ** Configuration and the source image *)



(** ** The two loops of [create_mosaic] together *)

Section create_mosaic.
Context {Img : Type}.
Variable argsort : list Q -> list nat.
Variable draws : nat -> nat.
Variable image_size : SourceImage -> Z * Z.
Variable comparison_block : box -> list Z.
Variable save : list (assignment Img) -> result ().
Variable show_instructions : list (assignment Img) -> result ().

(** When the image library saves and the sheet is drawn, a run whose loop
    ended by itself or by the [break] returns. *)
Lemma finish_Ok (records : list (assignment Img)) (s : stop) :
  (forall r, save r = Ok ()) ->
  (forall r, show_instructions r = Ok ()) ->
  s = Completed \/ s = RanOutOfTiles ->
  finish save show_instructions records s = Ok (records, s).
Proof.
  intros Hsave Hshow Hs. unfold finish, try_finally.
  rewrite !Hsave, Hshow. by destruct Hs as [->| ->].
Qed.

(** The first loop gives every cell a box and a ranking of the whole pool,
    when the pool is not empty. *)
Lemma match_tiles_rankings (tile_box : TileBox Img) (th : Z) (coords : list (Z * Z)) :
  argsort_contract argsort ->
  color_mode (config tile_box) = "RGB" \/ color_mode (config tile_box) = "L" ->
  tile_array tile_box <> [] ->
  tile_height (config tile_box) = Ok th ->
  exists matches boxes,
    match_tiles argsort comparison_block tile_box coords = Ok (matches, boxes)
    /\ length matches = length coords
    /\ length boxes = length coords
    /\ Forall (fun m => m ≡ₚ seq 0 (length (tile_array tile_box))) matches.
Proof.
  intros Hsort Hmode Hpool Hth. induction coords as [|[x y] coords IH].
  { exists [], []. by repeat split. }
  destruct IH as (matches & boxes & Hrun & Hm & Hb & Hperm).
  simpl. rewrite Hth. cbn [mbind result_bind].
  destruct (best_tile_block_match_ranked argsort tile_box
              (comparison_block
                 (x * tile_width (config tile_box), y * th,
                  (x + 1) * tile_width (config tile_box), (y + 1) * th))
              Hsort Hmode Hpool) as (m & -> & Hmperm).
  cbn [mbind result_bind]. rewrite Hrun. cbn [mbind result_bind].
  eexists _, _. split; [reflexivity|]. simpl.
  split; [by rewrite Hm|]. split; [by rewrite Hb|]. by constructor.
Qed.

(** The exhaustion of the pool seen from [create_mosaic]: when the source
    image and the grid are set up, the mode is one of the two with a
    branch, and the grid has more cells than the pool has tiles (at least
    one), a run
    without reuse or rotation, whose saves and instruction sheet succeed,
    returns one record per tile and the mark of the [break]. *)
Lemma create_mosaic_exhausts_pool (img_size : Z * Z) (ratio : Q) (width match_w : Z)
    (enlarge : Q) (mode : string) (pool : Config -> TileBox Img)
    (shuffle_first : Z) (th x_count y_count : Z) (s : SourceImage) :
  let cfg := mkConfig ratio match_w width enlarge mode false in
  let K := length (tiles (pool cfg)) in
  (0 < K)%nat ->
  argsort_contract argsort ->
  mode = "RGB" \/ mode = "L" ->
  config (pool cfg) = cfg ->
  length (tile_names (pool cfg)) = K ->
  length (tile_array (pool cfg)) = K ->
  tile_height cfg = Ok th ->
  SourceImage_init img_size cfg = Ok s ->
  MosaicImage_init (image_size s) cfg = Ok (x_count, y_count) ->
  1 <= x_count -> 1 <= y_count -> Z.of_nat K < x_count * y_count ->
  (forall r, save r = Ok ()) ->
  (forall r, show_instructions r = Ok ()) ->
  exists records,
    create_mosaic argsort draws image_size comparison_block save show_instructions
      img_size ratio width match_w enlarge false mode pool shuffle_first false
      = Ok (records, RanOutOfTiles)
    /\ length records = K
    /\ a_index <$> records ≡ₚ seq 0 K.
Proof.
  intros cfg K HK Hsort Hmode Hcfg Hnames Harray Hth Hs Hgrid Hx Hy Hcells Hsave Hshow.
  unfold create_mosaic, Config_init. cbn [mbind result_bind]. fold cfg.
  rewrite Hs. cbn [mbind result_bind]. rewrite Hgrid. cbn [mbind result_bind].
  set (coords := coords_from_middle draws x_count y_count (tile_ratio cfg) shuffle_first).
  destruct (match_tiles_rankings (pool cfg) th coords Hsort)
    as (matches & boxes & -> & Hm & Hb & Hperm).
  { by rewrite Hcfg. }
  { intros Hnil. rewrite Hnil in Harray. simpl in Harray. lia. }
  { by rewrite Hcfg. }
  cbn [mbind result_bind].
  assert (Hlen : Z.of_nat (length coords) = x_count * y_count).
  { subst coords. rewrite coords_from_middle_perm, length_prod. unfold range.
    rewrite !length_seqZ. lia. }
  assert (Hsize : size (list_to_set (seq 0 K) : gset nat) = K).
  { rewrite size_list_to_set by apply NoDup_seq. apply length_seq. }
  rewrite Harray in Hperm.
  unfold assemble_mosaic. rewrite Hcfg. cbn [rotate cfg]. fold K.
  destruct (assemble_exhausts (tiles (pool cfg)) (tile_names (pool cfg)) boxes K matches
              eq_refl Hnames) with (i := 0%nat) (available := (list_to_set (seq 0 K) : gset nat))
    as (records & Hrun & Hrecs & Hidx & _).
  - eapply Forall_impl; [exact Hperm|]. simpl. intros m Hmp j Hj.
    rewrite Hmp. apply elem_of_seq. lia.
  - intros j Hj. apply elem_of_list_to_set, elem_of_seq in Hj. lia.
  - rewrite Hsize. lia.
  - simpl. lia.
  - exists records. rewrite Hrun. split; [by apply finish_Ok; [..|right]|].
    rewrite Hsize in Hrecs.
    split; [done|].
    apply NoDup_Permutation; [|apply NoDup_seq|].
    + pose proof (no_reuse_groups_distinct false (tiles (pool cfg))
                    (tile_names (pool cfg)) boxes matches 0 (list_to_set (seq 0 K)))
        as Hnd.
      rewrite Hrun in Hnd. simpl in Hnd.
      eapply (NoDup_map_coarser _ a_index) in Hnd; [done|]. by intros a b ->.
    + intros j. rewrite Hidx. apply elem_of_list_to_set.
Qed.

End create_mosaic.

(** ** The statements at sample inputs *)

(** The scenario of a 100 by 50 image cropped to a square. *)
Example aspect_crop_square :
  resize_box_aspect_crop_to_extent (100, 50) 1 None = Ok (25, 0, 75, 50).
Proof. reflexivity. Qed.

(** A centerpoint far outside the image is clamped. *)
Lemma aspect_crop_box_within_image_witness :
  0 < 100 /\ 0 < 50 /\ (0 < 1)%Q
  /\ exists left top right bottom,
       resize_box_aspect_crop_to_extent (100, 50) 1 (Some (1000, -5))
         = Ok (left, top, right, bottom)
       /\ 0 <= left <= right /\ right <= 100
       /\ 0 <= top <= bottom /\ bottom <= 50.
Proof.
  split; [reflexivity|]. split; [reflexivity|]. split; [reflexivity|].
  apply (aspect_crop_box_within_image 100 50 1 (Some (1000, -5)));
    reflexivity.
Defined.

(** Three tiles for five cells. *)
Lemma pool_exhaustion_stops_after_K_witness :
  rotate (config small_pool) = false
  /\ length (tile_names small_pool) = 3%nat
  /\ length small_boxes = length small_matches
  /\ Forall (fun m => m ≡ₚ seq 0 3) small_matches
  /\ (3 < length small_matches)%nat
  /\ exists records,
       assemble_mosaic false small_pool small_matches small_boxes
         = (records, RanOutOfTiles)
       /\ length records = 3%nat
       /\ a_index <$> records ≡ₚ seq 0 3
       /\ a_box <$> records = take 3 small_boxes.
Proof.
  assert (Hperm : Forall (fun m => m ≡ₚ seq 0 3) small_matches).
  { unfold small_matches. repeat constructor; simpl; solve_Permutation. }
  split; [reflexivity|]. split; [reflexivity|]. split; [reflexivity|].
  split; [exact Hperm|]. split; [simpl; lia|].
  apply (pool_exhaustion_stops_after_K small_pool small_matches small_boxes);
    [reflexivity|reflexivity|reflexivity|exact Hperm|simpl; lia].
Defined.

(** A grid of three columns and two rows, the first four entries shuffled. *)
Lemma coords_from_middle_covers_grid_witness :
  1 <= 3 /\ 1 <= 2
  /\ let coords := coords_from_middle (fun i => i) 3 2 (12 # 5) 4 in
     Z.of_nat (length coords) = 3 * 2
     /\ NoDup coords
     /\ forall x y, (x, y) ∈ coords <-> (0 <= x < 3 /\ 0 <= y < 2).
Proof.
  split; [lia|]. split; [lia|].
  apply (coords_from_middle_covers_grid (fun i => i) 3 2 (12 # 5) 4); lia.
Defined.

Lemma ranking_fails_outside_RGB_and_L_witness :
  color_mode (config cmyk_pool) <> "RGB"
  /\ color_mode (config cmyk_pool) <> "L"
  /\ best_tile_block_match argsort_stable cmyk_pool [128; 128; 128; 128]
     = Raise UnboundLocalError.
Proof.
  split; [discriminate|]. split; [discriminate|].
  apply (ranking_fails_outside_RGB_and_L argsort_stable cmyk_pool); discriminate.
Defined.

Example source_image_of_wood_mosaic :
  SourceImage_init (404, 300) (wood_config "RGB" true)
    = Ok (mkSourceImage (1010, 750) (Some (10 # 2, 0 # 2, 2010 # 2, 1500 # 2))).
Proof. reflexivity. Qed.

(** The traversal of a 2 by 2 grid without shuffle, as in the scenario of
    four cells: the keys are 2, 1, 1, 0 in enumeration order. *)
Example coords_from_middle_2x2 :
  coords_from_middle (fun _ => 0%nat) 2 2 1 0 = [(1, 1); (0, 1); (1, 0); (0, 0)].
Proof. reflexivity. Qed.

(** [tile_width = 10] and [tile_ratio = 1] give tiles of 10 by 10. *)
Example tile_size_10 :
  tile_size (mkConfig 1 20 10 8 "RGB" false) = Ok (10, 10).
Proof. reflexivity. Qed.

(** * Further properties of the module *)

(** ** More on the assembly loop *)

Section assembly_more.
Context {Img : Type}.
Implicit Types (tiles : list Img) (tile_names : list string) (boxes : list box).
Implicit Types (available : gset nat) (m : list nat) (matches : list (list nat)).

Lemma find_first {A} (f : A -> bool) (l : list A) (x : A) :
  find f l = Some x ->
  exists l1 l2, l = l1 ++ x :: l2 /\ Forall (fun y => f y = false) l1 /\ f x = true.
Proof.
  induction l as [|a l IH]; simpl; [done|].
  destruct (f a) eqn:Ha.
  - intros [= ->]. exists [], l. by repeat split.
  - intros Hf. destruct (IH Hf) as (l1 & l2 & -> & Hl1 & Hx).
    exists (a :: l1), l2. repeat split; [|done]. by constructor.
Qed.

Lemma next_available_first m available j :
  next_available m available = Ok j ->
  j ∈ available
  /\ exists l1 l2, m = l1 ++ j :: l2 /\ Forall (fun j' => j' ∉ available) l1.
Proof.
  unfold next_available.
  destruct (find _ m) as [j'|] eqn:Hf; [|done].
  intros [= <-]. apply find_first in Hf as (l1 & l2 & -> & Hl1 & Hj).
  apply bool_decide_eq_true in Hj. split; [done|].
  exists l1, l2. split; [done|].
  eapply Forall_impl; [exact Hl1|]. simpl. intros y Hy.
  by apply bool_decide_eq_false in Hy.
Qed.

(** Every record carries the tile and the name stored at its index and the
    box of its cell, and the records follow the cells in order. *)
Lemma assemble_records_integrity reuse rotate tiles tile_names boxes matches :
  forall i available,
    let records :=
      (assemble reuse rotate tiles tile_names boxes i available matches).1 in
    Forall (fun r => tiles !! a_index r = Some (a_tile r)
                     /\ tile_names !! a_index r = Some (a_name r)) records
    /\ a_box <$> records = take (length records) (drop i boxes)
    /\ (length records <= length matches)%nat.
Proof.
  induction matches as [|m matches IH]; intros i available.
  { simpl. split; [constructor|]. split; [done|lia]. }
  cbv zeta.
  destruct (assemble reuse rotate tiles tile_names boxes i available (m :: matches))
    as [records s] eqn:Hrun.
  apply assemble_cons_inv in Hrun
    as [->|(j & available' & tile & tile_name & b & _ & _ & Ht & Hn & Hb & -> & _)].
  { simpl. split; [constructor|]. split; [done|lia]. }
  destruct (IH (S i) available') as (IH1 & IH2 & IH3).
  simpl. split; [by constructor|]. split; [|lia].
  rewrite (drop_S _ _ _ Hb). simpl. by f_equal.
Qed.

Lemma indeces_NoDup (rotate : bool) (j : nat) : NoDup (indeces rotate j).
Proof.
  destruct rotate; simpl.
  - rewrite !NoDup_cons, !elem_of_cons, !elem_of_nil.
    repeat split; try lia. apply NoDup_nil_2.
  - apply NoDup_singleton.
Qed.

Lemma indeces_length (rotate : bool) (j : nat) :
  length (indeces rotate j) = group_size rotate.
Proof. by destruct rotate. Qed.

Lemma div_group (q c : nat) : (c < 4 -> (q * 4 + c) / 4 = q)%nat.
Proof. intros Hc. symmetry. apply (Nat.div_unique _ 4 q c); lia. Qed.

Lemma indeces_same_group (rotate : bool) (j k : nat) :
  k ∈ indeces rotate j -> indeces rotate k = indeces rotate j.
Proof.
  destruct rotate; unfold indeces; cbn [map].
  - rewrite !elem_of_cons, elem_of_nil.
    intros [->|[->|[->|[->|[]]]]]; by rewrite div_group by lia.
  - rewrite elem_of_cons, elem_of_nil. by intros [->|[]].
Qed.

Lemma whole_groups_difference rotate available j :
  whole_groups rotate available ->
  whole_groups rotate (available ∖ list_to_set (indeces rotate j)).
Proof.
  intros Hw j' k Hj' Hk.
  apply elem_of_difference in Hj' as [Hj' Hnot].
  apply elem_of_difference. split; [by eapply Hw|].
  intros Hkj. apply elem_of_list_to_set in Hkj. apply Hnot.
  apply elem_of_list_to_set.
  apply indeces_same_group in Hkj. apply indeces_same_group in Hk.
  rewrite <- Hkj, Hk. apply index_in_indeces.
Qed.

Lemma whole_groups_size rotate available j :
  whole_groups rotate available -> j ∈ available ->
  size available
  = (group_size rotate + size (available ∖ list_to_set (indeces rotate j)))%nat.
Proof.
  intros Hw Hj.
  assert (Hsub : (list_to_set (indeces rotate j) : gset nat) ⊆ available).
  { intros k Hk. apply elem_of_list_to_set in Hk. by eapply Hw. }
  rewrite size_difference by done.
  rewrite size_list_to_set by apply indeces_NoDup.
  rewrite indeces_length.
  pose proof (subseteq_size _ _ Hsub) as Hle.
  rewrite size_list_to_set, indeces_length in Hle by apply indeces_NoDup. lia.
Qed.

(** Without reuse the loop takes one group per cell until the groups or the
    cells run out. *)
Lemma assemble_by_groups rotate tiles tile_names boxes (K : nat) matches :
  length tiles = K -> length tile_names = K ->
  Forall (fun m => forall j, (j < K)%nat -> j ∈ m) matches ->
  forall i available n,
    (forall j, j ∈ available -> (j < K)%nat) ->
    whole_groups rotate available ->
    size available = (group_size rotate * n)%nat ->
    (i + length matches <= length boxes)%nat ->
    exists records s,
      assemble false rotate tiles tile_names boxes i available matches = (records, s)
      /\ ((n < length matches /\ length records = n /\ s = RanOutOfTiles)%nat
          \/ (length matches <= n /\ length records = length matches
              /\ s = Completed)%nat).
Proof.
  intros Ht Hn. induction matches as [|m matches IH];
    intros Hfull i available n Hlt Hw Hsize Hboxes.
  { exists [], Completed. split; [done|]. right. simpl. repeat split; lia. }
  apply Forall_cons in Hfull as [Hm Hfull]. specialize (IH Hfull).
  assert (Hg : (0 < group_size rotate)%nat) by (destruct rotate; simpl; lia).
  simpl assemble. case_decide as Hav.
  { subst available. rewrite size_empty in Hsize.
    exists [], RanOutOfTiles. split; [done|]. left. simpl. repeat split; nia. }
  destruct (set_choose_L _ Hav) as [j0 Hj0].
  destruct (next_available_some m available j0 Hj0 (Hm _ (Hlt _ Hj0))) as [j Hj].
  unfold choose. cbn [negb mbind result_bind]. rewrite Hj. cbn [mbind result_bind].
  apply next_available_Ok in Hj as [Hja _].
  destruct (getitem_lt tiles j) as [tile ->]; [specialize (Hlt _ Hja); lia|].
  destruct (getitem_lt tile_names j) as [tile_name ->]; [specialize (Hlt _ Hja); lia|].
  destruct (getitem_lt boxes i) as [b ->]; [simpl in Hboxes; lia|].
  cbn [mbind result_bind].
  pose proof (whole_groups_size rotate available j Hw Hja) as Hsz.
  destruct n as [|n]; [lia|].
  destruct (IH (S i) (available ∖ list_to_set (indeces rotate j)) n)
    as (records & s & -> & Hcases).
  { intros j' Hj'. apply Hlt. by apply elem_of_difference in Hj' as [? _]. }
  { by apply whole_groups_difference. }
  { nia. }
  { simpl in Hboxes. lia. }
  eexists _, _. split; [reflexivity|]. simpl.
  destruct Hcases as [(? & ? & ?)|(? & ? & ?)]; [left|right]; repeat split; lia || done.
Qed.

(** With reuse and a pool that is not empty every cell gets a record. *)
Lemma assemble_reuse_fills rotate tiles tile_names boxes (K : nat) matches :
  length tiles = K -> length tile_names = K ->
  Forall (fun m => m ≡ₚ seq 0 K) matches ->
  forall i available,
    available ≠ ∅ -> (0 < K)%nat ->
    (i + length matches <= length boxes)%nat ->
    exists records,
      assemble true rotate tiles tile_names boxes i available matches
        = (records, Completed)
      /\ length records = length matches.
Proof.
  intros Ht Hn. induction matches as [|m matches IH];
    intros Hperm i available Hav HK Hboxes.
  { by exists []. }
  apply Forall_cons in Hperm as [Hm Hperm]. specialize (IH Hperm).
  simpl assemble. case_decide; [done|].
  unfold choose. cbn [negb mbind result_bind].
  destruct m as [|j m].
  { apply Permutation_nil_l in Hm. destruct K; [lia|done]. }
  assert (Hj : (j < K)%nat).
  { assert (j ∈ seq 0 K) as Hin by (rewrite <- Hm; left).
    apply elem_of_seq in Hin. lia. }
  assert (Hg : getitem (j :: m) 0 = Ok j) by done.
  rewrite Hg. cbn [mbind result_bind].
  destruct (getitem_lt tiles j) as [tile ->]; [lia|].
  destruct (getitem_lt tile_names j) as [tile_name ->]; [lia|].
  destruct (getitem_lt boxes i) as [b ->]; [simpl in Hboxes; lia|].
  cbn [mbind result_bind].
  destruct (IH (S i) available Hav HK) as (records & -> & Hlen);
    [simpl in Hboxes; lia|].
  eexists. split; [reflexivity|]. simpl. by rewrite Hlen.
Qed.

(** Without reuse the tile of a record is available when its cell is
    reached, and it is the first such tile of the cell's ranking. *)
Lemma assemble_greedy rotate tiles tile_names boxes matches :
  forall i available (p : nat) (r : assignment Img) m,
    let records :=
      (assemble false rotate tiles tile_names boxes i available matches).1 in
    records !! p = Some r ->
    matches !! p = Some m ->
    let av := consume rotate available (take p (a_index <$> records)) in
    a_index r ∈ av
    /\ exists l1 l2, m = l1 ++ a_index r :: l2 /\ Forall (fun j' => j' ∉ av) l1.
Proof.
  induction matches as [|m0 matches IH]; intros i available p r m; [done|].
  cbv zeta.
  destruct (assemble false rotate tiles tile_names boxes i available (m0 :: matches))
    as [records s] eqn:Hrun.
  apply assemble_cons_inv in Hrun
    as [->|(j & available' & tile & tile_name & b & _ & Hc & _ & _ & _ & -> & _)];
    [done|].
  unfold choose in Hc. cbn [negb mbind result_bind] in Hc.
  destruct (next_available m0 available) as [j'|] eqn:Hn; [|done].
  cbn [mbind result_bind] in Hc.
  assert (j' = j /\ available ∖ list_to_set (indeces rotate j') = available')
    as [-> <-] by (by inversion Hc).
  destruct p as [|p]; simpl.
  - intros [= <-] [= <-]. simpl. by apply next_available_first.
  - intros Hr Hm. apply (IH (S i) _ p r m Hr Hm).
Qed.

End assembly_more.

Lemma full_pool_bounded (K : nat) (j : nat) :
  j ∈ (list_to_set (seq 0 K) : gset nat) <-> (j < K)%nat.
Proof. rewrite elem_of_list_to_set, elem_of_seq. lia. Qed.

Lemma full_pool_size (K : nat) : size (list_to_set (seq 0 K) : gset nat) = K.
Proof. rewrite size_list_to_set by apply NoDup_seq. apply length_seq. Qed.

Lemma full_pool_whole_groups (rotate : bool) (G : nat) :
  whole_groups rotate (list_to_set (seq 0 (group_size rotate * G))).
Proof.
  intros j k Hj Hk. apply full_pool_bounded in Hj. apply full_pool_bounded.
  destruct rotate; unfold indeces in Hk; cbn [map group_size] in *.
  - assert (j / 4 < G)%nat by (apply Nat.Div0.div_lt_upper_bound; lia).
    rewrite !elem_of_cons, elem_of_nil in Hk. lia.
  - rewrite elem_of_cons, elem_of_nil in Hk. lia.
Qed.

Lemma rankings_cover (K : nat) (matches : list (list nat)) :
  Forall (fun m => m ≡ₚ seq 0 K) matches ->
  Forall (fun m => forall j, (j < K)%nat -> j ∈ m) matches.
Proof.
  intros H. eapply Forall_impl; [exact H|]. simpl. intros m Hm j Hj.
  rewrite Hm. apply elem_of_seq. lia.
Qed.

(** X1: every record of a run carries the tile image and the label stored
    at its tile index, and the boxes of the records are the boxes of the
    first cells of the traversal, in order: cells are never skipped. *)
Theorem records_follow_cells {Img} (reuse : bool) (tile_box : TileBox Img)
    (matches : list (list nat)) (boxes : list box) :
  let records := (assemble_mosaic reuse tile_box matches boxes).1 in
  Forall (fun r => tiles tile_box !! a_index r = Some (a_tile r)
                   /\ tile_names tile_box !! a_index r = Some (a_name r)) records
  /\ a_box <$> records = take (length records) boxes
  /\ (length records <= length matches)%nat.
Proof.
  unfold assemble_mosaic.
  destruct (assemble_records_integrity reuse (rotate (config tile_box))
              (tiles tile_box) (tile_names tile_box) boxes matches 0%nat
              (list_to_set (seq 0 (length (tiles tile_box)))))
    as (Hstored & Hboxes & Hcount).
  split; [exact Hstored|]. split; [|exact Hcount].
  rewrite Hboxes. by rewrite drop_0.
Qed.

(** X2: without reuse, with or without rotation, a pool of G groups whose
    rankings list the whole pool fills [min G cells] cells: it stops by the
    [break] when the groups run out first and completes otherwise; no
    exception is raised. *)
Theorem no_reuse_fills_until_groups_run_out {Img} (tile_box : TileBox Img)
    (matches : list (list nat)) (boxes : list box) (G : nat) :
  let K := length (tiles tile_box) in
  K = (group_size (rotate (config tile_box)) * G)%nat ->
  length (tile_names tile_box) = K ->
  length boxes = length matches ->
  Forall (fun m => m ≡ₚ seq 0 K) matches ->
  exists records,
    assemble_mosaic false tile_box matches boxes
      = (records, if decide (G < length matches)%nat then RanOutOfTiles else Completed)
    /\ length records = (G `min` length matches)%nat.
Proof.
  intros K HK Hnames Hboxes Hperm. unfold assemble_mosaic. fold K.
  destruct (assemble_by_groups (rotate (config tile_box)) (tiles tile_box)
              (tile_names tile_box) boxes K matches eq_refl Hnames
              (rankings_cover K matches Hperm) 0%nat (list_to_set (seq 0 K)) G)
    as (records & s & -> & Hcases).
  - intros j. apply full_pool_bounded.
  - rewrite HK. apply full_pool_whole_groups.
  - rewrite full_pool_size. exact HK.
  - simpl. lia.
  - exists records. case_decide; destruct Hcases as [(? & ? & ->)|(? & ? & ->)];
      try lia; (split; [done|lia]).
Qed.

(** X3: with reuse and a pool that is not empty, every cell of the
    traversal gets a record and the loop completes. *)
Theorem reuse_fills_every_cell {Img} (tile_box : TileBox Img)
    (matches : list (list nat)) (boxes : list box) :
  let K := length (tiles tile_box) in
  (0 < K)%nat ->
  length (tile_names tile_box) = K ->
  length boxes = length matches ->
  Forall (fun m => m ≡ₚ seq 0 K) matches ->
  exists records,
    assemble_mosaic true tile_box matches boxes = (records, Completed)
    /\ length records = length matches
    /\ a_box <$> records = boxes.
Proof.
  intros K HK Hnames Hboxes Hperm. unfold assemble_mosaic. fold K.
  destruct (assemble_reuse_fills (rotate (config tile_box)) (tiles tile_box)
              (tile_names tile_box) boxes K matches eq_refl Hnames Hperm 0%nat
              (list_to_set (seq 0 K))) as (records & Hrun & Hlen).
  - intros Hempty. assert (0%nat ∈ (∅ : gset nat)) as H0.
    { rewrite <- Hempty. apply full_pool_bounded. lia. }
    by apply elem_of_empty in H0.
  - done.
  - simpl. lia.
  - exists records. split; [done|]. split; [done|].
    pose proof (assemble_records_integrity true (rotate (config tile_box))
                  (tiles tile_box) (tile_names tile_box) boxes matches 0%nat
                  (list_to_set (seq 0 K))) as (_ & Hb & _).
    rewrite Hrun in Hb. simpl in Hb. rewrite Hb, Hlen, <- Hboxes. apply take_ge. lia.
Qed.

(** X4: without reuse the tile of the p-th record is the best-ranked tile
    of its cell among those still available, the availability being the
    whole pool less the [indeces] of the tiles of the records before it. *)
Theorem no_reuse_takes_best_available {Img} (tile_box : TileBox Img)
    (matches : list (list nat)) (boxes : list box) (p : nat)
    (r : assignment Img) (m : list nat) :
  let records := (assemble_mosaic false tile_box matches boxes).1 in
  let available :=
    consume (rotate (config tile_box))
      (list_to_set (seq 0 (length (tiles tile_box))))
      (take p (a_index <$> records)) in
  records !! p = Some r ->
  matches !! p = Some m ->
  a_index r ∈ available
  /\ exists better worse,
       m = better ++ a_index r :: worse
       /\ Forall (fun j => j ∉ available) better.
Proof.
  intros records available Hr Hm.
  apply (assemble_greedy (rotate (config tile_box)) (tiles tile_box)
           (tile_names tile_box) boxes matches 0%nat _ p r m Hr Hm).
Qed.

(** ** More on the ranking query *)

Lemma zip_with_Forall {A B C} (P : C -> Prop) (f : A -> B -> C) (l : list A) (k : list B) :
  (forall a b, a ∈ l -> b ∈ k -> P (f a b)) -> Forall P (zip_with f l k).
Proof.
  revert k. induction l as [|a l IH]; intros [|b k] Hf; simpl; try constructor.
  - apply Hf; left.
  - apply IH. intros a' b' Ha Hb. apply Hf; by right.
Qed.

Lemma sum_nonneg (l : list Q) :
  Forall (fun q => (0 <= q)%Q) l -> (0 <= foldr Qplus 0 l)%Q.
Proof.
  induction 1 as [|q l Hq Hl IH]; simpl; [apply Qle_refl|].
  exact (Qplus_le_compat 0 q 0 _ Hq IH).
Qed.

Lemma mean_nonneg (l : list Q) : Forall (fun q => (0 <= q)%Q) l -> (0 <= mean l)%Q.
Proof.
  intros Hl. unfold mean. destruct l as [|q l]; [done|].
  apply Qle_shift_div_l.
  - rewrite <- (Zlt_Qlt 0). simpl. lia.
  - rewrite Qmult_0_l. by apply sum_nonneg.
Qed.

Lemma mean_zero (l : list Q) : Forall (fun q => (q == 0)%Q) l -> (mean l == 0)%Q.
Proof.
  intros Hl. unfold mean.
  assert (Hsum : (foldr Qplus 0 l == 0)%Q).
  { induction Hl as [|q l Hq Hl IH]; simpl; [done|]. rewrite Hq, IH. apply Qplus_0_l. }
  unfold Qdiv. rewrite Hsum. apply Qmult_0_l.
Qed.

Lemma squared_difference_mean_nonneg (a t : list Z) :
  (0 <= squared_difference_mean a t)%Q.
Proof.
  apply mean_nonneg, zip_with_Forall. intros p q _ _.
  rewrite <- (Zle_Qle 0). apply Z.pow_even_nonneg. by exists 1.
Qed.

Lemma squared_difference_mean_self (a : list Z) :
  (squared_difference_mean a a == 0)%Q.
Proof.
  apply mean_zero. unfold squared_difference_mean.
  induction a as [|p a IH]; simpl; constructor; [|done].
  by rewrite Z.sub_diag.
Qed.

(** The head of what [argsort] returns is a position of least value. *)
Lemma argsort_head_least (argsort : list Q -> list nat) (d : list Q) :
  argsort_contract argsort -> d <> [] ->
  exists j rest,
    argsort d = j :: rest
    /\ (j < length d)%nat
    /\ forall i, (i < length d)%nat -> (nth j d 0 <= nth i d 0)%Q.
Proof.
  intros Hsort Hd. destruct (Hsort d) as [Hperm Hsorted].
  destruct (argsort d) as [|j rest] eqn:Hr.
  { apply Permutation_nil_l in Hperm. destruct d; [done|discriminate]. }
  exists j, rest. split; [done|].
  assert (Hin : forall i, i ∈ j :: rest <-> (i < length d)%nat).
  { intros i. rewrite Hperm, elem_of_seq. lia. }
  split; [apply Hin; left|].
  intros i Hi. apply Hin in Hi.
  apply StronglySorted_inv in Hsorted as [_ Hrest].
  apply elem_of_cons in Hi as [->|Hi]; [apply Qle_refl|].
  rewrite Forall_forall in Hrest. by apply Hrest.
Qed.

(** X6: the mean squared difference is never negative and is zero between
    equal samples, so when the pool holds a tile whose samples equal the
    block, the first index of the ranking is a tile at distance zero. *)
Theorem exact_match_is_ranked_first {Img} (argsort : list Q -> list nat)
    (tile_box : TileBox Img) (block : list Z) :
  argsort_contract argsort ->
  color_mode (config tile_box) = "RGB" \/ color_mode (config tile_box) = "L" ->
  block ∈ tile_array tile_box ->
  exists best rest t_best,
    best_tile_block_match argsort tile_box block = Ok (best :: rest)
    /\ tile_array tile_box !! best = Some t_best
    /\ (squared_difference_mean block t_best == 0)%Q.
Proof.
  intros Hsort Hmode Hin.
  set (d := map (squared_difference_mean block) (tile_array tile_box)).
  destruct (argsort_head_least argsort d Hsort) as (j & rest & Hr & Hj & Hleast).
  { subst d. destruct (tile_array tile_box); [by apply elem_of_nil in Hin|done]. }
  assert (Hlen : length d = length (tile_array tile_box)) by apply length_map.
  rewrite Hlen in Hj, Hleast.
  destruct (lookup_lt_is_Some_2 _ _ Hj) as [t_best Hbest].
  assert (Hnth : forall i t, tile_array tile_box !! i = Some t ->
                   nth i d 0%Q = squared_difference_mean block t).
  { intros i t Hi. apply nth_lookup_Some. subst d.
    change (map ?f ?l) with (f <$> l). by rewrite list_lookup_fmap, Hi. }
  exists j, rest, t_best. split; [|split; [done|]].
  - unfold best_tile_block_match. fold d.
    destruct (decide (color_mode (config tile_box) = "RGB"));
      [cbn [mbind result_bind]; by rewrite Hr|].
    destruct (decide (color_mode (config tile_box) = "L"));
      [cbn [mbind result_bind]; by rewrite Hr|].
    by destruct Hmode.
  - apply list_elem_of_lookup in Hin as [i Hi].
    apply Qle_antisym; [|apply squared_difference_mean_nonneg].
    rewrite <- (squared_difference_mean_self block).
    rewrite <- (Hnth _ _ Hbest), <- (Hnth _ _ Hi) at 1.
    apply Hleast. by eapply lookup_lt_Some.
Qed.

(** ** More on the geometry *)

Lemma Qle_div_mul (a b c : Q) : (0 < b)%Q -> (c <= a / b)%Q -> (c * b <= a)%Q.
Proof.
  intros Hb H. apply (Qmult_le_r _ _ b) in H; [|done].
  by rewrite Qdiv_mul_cancel in H.
Qed.

Lemma Qdiv_lt_mul (a b c : Q) : (0 < b)%Q -> (a / b < c)%Q -> (a < c * b)%Q.
Proof.
  intros Hb H. apply (Qmult_lt_r _ _ b) in H; [|done].
  by rewrite Qdiv_mul_cancel in H.
Qed.

Lemma Qdiv_nonneg (a b : Q) : (0 <= a)%Q -> (0 < b)%Q -> (0 <= a / b)%Q.
Proof.
  intros Ha Hb. apply Qle_shift_div_l; [done|]. by rewrite Qmult_0_l.
Qed.

Lemma inject_Z_pos (n : Z) : 0 < n -> (0 < inject_Z n)%Q.
Proof. intros H. by rewrite <- (Zlt_Qlt 0). Qed.

Lemma inject_Z_nonneg (n : Z) : 0 <= n -> (0 <= inject_Z n)%Q.
Proof. intros H. by rewrite <- (Zle_Qle 0). Qed.

(** [int(a / b)] on integers is the floored quotient when nothing is
    negative. *)
Lemma py_int_div (a b : Z) :
  0 <= a -> 0 < b -> py_int (inject_Z a / inject_Z b) = a / b.
Proof.
  intros Ha Hb.
  assert (HbQ : (0 < inject_Z b)%Q) by by apply inject_Z_pos.
  assert (Hq : (0 <= inject_Z a / inject_Z b)%Q)
    by (apply Qdiv_nonneg; [by apply inject_Z_nonneg|done]).
  rewrite py_int_floor by done.
  pose proof (Qfloor_le (inject_Z a / inject_Z b)) as Hlo.
  pose proof (Qlt_floor (inject_Z a / inject_Z b)) as Hhi.
  apply Qle_div_mul in Hlo; [|done]. apply Qdiv_lt_mul in Hhi; [|done].
  rewrite <- inject_Z_mult in Hlo, Hhi.
  rewrite <- Zle_Qle in Hlo. rewrite <- Zlt_Qlt in Hhi.
  set (q := Qfloor (inject_Z a / inject_Z b)) in *.
  apply (Z.div_unique a b q (a - b * q)); lia.
Qed.


(** X10: for a positive tile size and an image size that is not negative,
    the tile counts are the floored quotients of the image size by the tile
    size, so the grid of tiles fits the image and less than one tile is
    left over on each axis. *)
Theorem mosaic_tile_counts (size : Z * Z) (cfg : Config) (th : Z) :
  0 < tile_width cfg -> tile_height cfg = Ok th -> 0 < th ->
  0 <= size.1 -> 0 <= size.2 ->
  exists x_tile_count y_tile_count,
    MosaicImage_init size cfg = Ok (x_tile_count, y_tile_count)
    /\ x_tile_count = size.1 / tile_width cfg
    /\ y_tile_count = size.2 / th
    /\ 0 <= x_tile_count /\ 0 <= y_tile_count
    /\ x_tile_count * tile_width cfg <= size.1 < (x_tile_count + 1) * tile_width cfg
    /\ y_tile_count * th <= size.2 < (y_tile_count + 1) * th.
Proof.
  intros Htw Hth Hth0 Hx Hy.
  unfold MosaicImage_init, py_truediv. rewrite Hth.
  destruct (Qeq_bool (inject_Z (tile_width cfg)) 0) eqn:Ew.
  { apply Qeq_bool_iff in Ew. unfold Qeq in Ew. simpl in Ew. lia. }
  cbn [mbind result_bind].
  destruct (Qeq_bool (inject_Z th) 0) eqn:Eh.
  { apply Qeq_bool_iff in Eh. unfold Qeq in Eh. simpl in Eh. lia. }
  cbn [mbind result_bind]. rewrite !py_int_div by lia.
  eexists _, _. split; [reflexivity|]. split; [done|]. split; [done|].
  pose proof (Z.div_mod size.1 (tile_width cfg) ltac:(lia)).
  pose proof (Z.mod_pos_bound size.1 (tile_width cfg) Htw).
  pose proof (Z.div_mod size.2 th ltac:(lia)).
  pose proof (Z.mod_pos_bound size.2 th Hth0).
  pose proof (Z.div_pos size.1 (tile_width cfg) Hx Htw).
  pose proof (Z.div_pos size.2 th Hy Hth0).
  repeat split; lia.
Qed.

Lemma coords_from_middle_elem (draws : nat -> nat) (x_count y_count : Z)
    (y_bias : Q) (shuffle_first : Z) (c : Z * Z) :
  c ∈ coords_from_middle draws x_count y_count y_bias shuffle_first
  <-> (0 <= c.1 < x_count /\ 0 <= c.2 < y_count).
Proof.
  destruct c as [x y].
  rewrite coords_from_middle_perm, list_elem_of_In, in_prod_iff, <- !list_elem_of_In.
  unfold range. rewrite !elem_of_seqZ. simpl. lia.
Qed.

Lemma coords_from_middle_NoDup (draws : nat -> nat) (x_count y_count : Z)
    (y_bias : Q) (shuffle_first : Z) :
  NoDup (coords_from_middle draws x_count y_count y_bias shuffle_first).
Proof.
  rewrite coords_from_middle_perm.
  eapply StronglySorted_irrefl_NoDup;
    [apply enumerated_before_irrefl|apply grid_enumerated].
Qed.

Lemma coords_from_middle_length (draws : nat -> nat) (x_count y_count : Z)
    (y_bias : Q) (shuffle_first : Z) :
  length (coords_from_middle draws x_count y_count y_bias shuffle_first)
  = (Z.to_nat x_count * Z.to_nat y_count)%nat.
Proof.
  rewrite coords_from_middle_perm, length_prod. unfold range.
  by rewrite !length_seqZ.
Qed.

Section cells.
Context {Img : Type}.
Variable argsort : list Q -> list nat.
Variable draws : nat -> nat.
Variable image_size : SourceImage -> Z * Z.
Variable comparison_block : box -> list Z.

(** The first loop stores the box of each cell it visits, in order. *)
Lemma match_tiles_boxes (tile_box : TileBox Img) (th : Z) (coords : list (Z * Z))
    (matches : list (list nat)) (boxes : list box) :
  tile_height (config tile_box) = Ok th ->
  match_tiles argsort comparison_block tile_box coords = Ok (matches, boxes) ->
  boxes = box_crop (config tile_box) th <$> coords
  /\ length matches = length coords.
Proof.
  intros Hth. revert matches boxes.
  induction coords as [|[x y] coords IH]; intros matches boxes; simpl.
  { by intros [= <- <-]. }
  rewrite Hth. cbn [mbind result_bind].
  destruct (best_tile_block_match _ _ _) as [m|]; cbn [mbind result_bind]; [|done].
  destruct (match_tiles argsort comparison_block tile_box coords) as [[ms bs]|];
    cbn [mbind result_bind]; [|done].
  intros [= <- <-]. destruct (IH ms bs eq_refl) as [-> Hlen].
  split; [done|]. simpl. by rewrite Hlen.
Qed.

(** X11: the cells of the first loop tile the image: there is one box per
    cell of the grid, no box is stored twice, and every box is one tile
    wide and high, lies inside the image and starts on a multiple of the
    tile size. *)
Theorem cell_boxes_tile_the_image (tile_box : TileBox Img) (size : Z * Z) (th : Z)
    (x_count y_count : Z) (y_bias : Q) (shuffle_first : Z)
    (matches : list (list nat)) (boxes : list box) :
  let cfg := config tile_box in
  0 < tile_width cfg -> tile_height cfg = Ok th -> 0 < th ->
  0 <= size.1 -> 0 <= size.2 ->
  MosaicImage_init size cfg = Ok (x_count, y_count) ->
  match_tiles argsort comparison_block tile_box
    (coords_from_middle draws x_count y_count y_bias shuffle_first)
    = Ok (matches, boxes) ->
  Z.of_nat (length boxes) = x_count * y_count
  /\ length matches = length boxes
  /\ NoDup boxes
  /\ Forall (fun '(l, t, r, b) =>
               0 <= l /\ r = l + tile_width cfg /\ r <= size.1
               /\ 0 <= t /\ b = t + th /\ b <= size.2
               /\ l mod tile_width cfg = 0 /\ t mod th = 0) boxes.
Proof.
  intros cfg Htw Hth Hth0 Hx Hy Hgrid Hrun.
  apply (match_tiles_boxes tile_box th) in Hrun as [-> Hlen]; [|done].
  fold cfg.
  assert (Hcount : x_count = size.1 / tile_width cfg /\ y_count = size.2 / th).
  { revert Hgrid. unfold MosaicImage_init, py_truediv. rewrite Hth.
    destruct (Qeq_bool (inject_Z (tile_width cfg)) 0); [done|].
    cbn [mbind result_bind].
    destruct (Qeq_bool (inject_Z th) 0); [done|].
    cbn [mbind result_bind]. rewrite !py_int_div by lia. by intros [= <- <-]. }
  destruct Hcount as [Hxc Hyc].
  pose proof (Z.div_pos size.1 (tile_width cfg) Hx Htw) as Hxc0.
  pose proof (Z.div_pos size.2 th Hy Hth0) as Hyc0.
  pose proof (Z.mul_div_le size.1 (tile_width cfg) Htw) as Hxfit.
  pose proof (Z.mul_div_le size.2 th Hth0) as Hyfit.
  rewrite <- Hxc in Hxc0, Hxfit. rewrite <- Hyc in Hyc0, Hyfit.
  rewrite length_fmap, coords_from_middle_length.
  split; [lia|]. split; [by rewrite Hlen, coords_from_middle_length|]. split.
  - apply NoDup_fmap_2_strong; [|apply coords_from_middle_NoDup].
    intros [x y] [x' y'] _ _. unfold box_crop. simpl. intros [= H1 H2 _ _].
    f_equal; nia.
  - apply Forall_fmap, Forall_forall. intros [x y] Hc.
    apply coords_from_middle_elem in Hc. simpl in Hc.
    unfold box_crop. simpl.
    rewrite !Z.mod_mul by lia. repeat split; nia.
Qed.

End cells.

(** ** More on [create_mosaic] *)



Lemma MosaicImage_init_tile_height (size : Z * Z) (cfg : Config) (counts : Z * Z) :
  MosaicImage_init size cfg = Ok counts -> exists th, tile_height cfg = Ok th.
Proof.
  unfold MosaicImage_init.
  destruct (py_truediv _ _); cbn [mbind result_bind]; [|done].
  destruct (tile_height cfg) as [th|]; cbn [mbind result_bind]; [by exists th|done].
Qed.

Section create_mosaic_more.
Context {Img : Type}.
Variable argsort : list Q -> list nat.
Variable draws : nat -> nat.
Variable image_size : SourceImage -> Z * Z.
Variable comparison_block : box -> list Z.
Variable save : list (assignment Img) -> result ().
Variable show_instructions : list (assignment Img) -> result ().


(** X13: under a colour mode other than ['RGB'] and ['L'], once the source
    image is built and the grid has at least one cell, the run raises
    [UnboundLocalError] at the first cell and returns no record. *)
Theorem create_mosaic_unknown_mode (img_size : Z * Z) (ratio : Q)
    (width match_w : Z) (enlarge : Q) (reuse : bool) (mode : string)
    (pool : Config -> TileBox Img) (shuffle_first : Z) (rot : bool)
    (s : SourceImage) (x_count y_count : Z) :
  let cfg := mkConfig ratio match_w width enlarge mode rot in
  mode <> "RGB" -> mode <> "L" ->
  config (pool cfg) = cfg ->
  SourceImage_init img_size cfg = Ok s ->
  MosaicImage_init (image_size s) cfg = Ok (x_count, y_count) ->
  1 <= x_count -> 1 <= y_count ->
  create_mosaic argsort draws image_size comparison_block save show_instructions
    img_size ratio width match_w enlarge reuse mode pool shuffle_first rot
  = Raise UnboundLocalError.
Proof.
  intros cfg Hrgb Hl Hcfg Hs Hgrid Hx Hy.
  unfold create_mosaic, Config_init. cbn [mbind result_bind]. fold cfg.
  rewrite Hs. cbn [mbind result_bind]. rewrite Hgrid. cbn [mbind result_bind].
  destruct (MosaicImage_init_tile_height _ _ _ Hgrid) as [th Hth].
  pose proof (coords_from_middle_length draws x_count y_count (tile_ratio cfg)
                shuffle_first) as Hlen.
  destruct (coords_from_middle draws x_count y_count (tile_ratio cfg) shuffle_first)
    as [|[x y] coords]; [simpl in Hlen; nia|].
  simpl. rewrite Hcfg, Hth. cbn [mbind result_bind].
  unfold best_tile_block_match. rewrite Hcfg. cbn [color_mode cfg].
  destruct (decide (mode = "RGB")); [done|].
  destruct (decide (mode = "L")); done.
Qed.

(** X14: when the image is narrower or lower than one tile the grid has no
    cell: no ranking query is made and no tile is placed, whatever the
    colour mode and the pool, and the run goes on to save the untouched
    canvas (in the [finally] and once more) and to draw an empty sheet;
    its outcome is that of these calls, so a library that refuses the
    canvas makes the run raise there. *)
Theorem create_mosaic_empty_grid (img_size : Z * Z) (ratio : Q)
    (width match_w : Z) (enlarge : Q) (reuse : bool) (mode : string)
    (pool : Config -> TileBox Img) (shuffle_first : Z) (rot : bool)
    (s : SourceImage) (x_count y_count : Z) :
  let cfg := mkConfig ratio match_w width enlarge mode rot in
  SourceImage_init img_size cfg = Ok s ->
  MosaicImage_init (image_size s) cfg = Ok (x_count, y_count) ->
  x_count <= 0 \/ y_count <= 0 ->
  coords_from_middle draws x_count y_count ratio shuffle_first = []
  /\ create_mosaic argsort draws image_size comparison_block save show_instructions
       img_size ratio width match_w enlarge reuse mode pool shuffle_first rot
     = (_ ← save []; _ ← save []; _ ← show_instructions []; Ok ([], Completed)).
Proof.
  intros cfg Hs Hgrid Hempty.
  assert (Hnil : coords_from_middle draws x_count y_count ratio shuffle_first = []).
  { pose proof (coords_from_middle_length draws x_count y_count ratio shuffle_first)
      as Hlen.
    destruct (coords_from_middle draws x_count y_count ratio shuffle_first)
      as [|c coords]; [done|].
    simpl in Hlen. destruct Hempty; nia. }
  split; [done|].
  unfold create_mosaic, Config_init. cbn [mbind result_bind]. fold cfg.
  rewrite Hs. cbn [mbind result_bind]. rewrite Hgrid. cbn [mbind result_bind].
  cbn [tile_ratio cfg]. rewrite Hnil. cbn [match_tiles mbind result_bind].
  unfold assemble_mosaic. cbn [assemble]. unfold finish, try_finally.
  by destruct (save []) as [[]|].
Qed.

End create_mosaic_more.

(** X29: a canvas of the size of the crop box, [w - w mod tile_width] by
    [h - h mod tile_height], is tiled with nothing left over: the tile
    counts are [floor(w / tile_width)] and [floor(h / tile_height)] and the
    grid is exactly as wide and as high as the canvas. *)
Theorem cropped_canvas_is_tiled_exactly (cfg : Config) (th w h : Z) :
  0 < tile_width cfg -> tile_height cfg = Ok th -> 0 < th ->
  0 <= w -> 0 <= h ->
  let width := w - w mod tile_width cfg in
  let height := h - h mod th in
  exists x_tile_count y_tile_count,
    MosaicImage_init (width, height) cfg = Ok (x_tile_count, y_tile_count)
    /\ x_tile_count = w / tile_width cfg
    /\ y_tile_count = h / th
    /\ x_tile_count * tile_width cfg = width
    /\ y_tile_count * th = height.
Proof.
  intros Htw Hth Hth0 Hw Hh width height.
  pose proof (Z.div_mod w (tile_width cfg) ltac:(lia)) as Hdw.
  pose proof (Z.div_mod h th ltac:(lia)) as Hdh.
  pose proof (Z.mod_pos_bound w (tile_width cfg) Htw) as Hrw.
  pose proof (Z.mod_pos_bound h th Hth0) as Hrh.
  pose proof (Z.mod_le w (tile_width cfg) Hw Htw) as Hlw.
  pose proof (Z.mod_le h th Hh Hth0) as Hlh.
  assert (Hwidth : width = w / tile_width cfg * tile_width cfg) by (subst width; lia).
  assert (Hheight : height = h / th * th) by (subst height; lia).
  unfold MosaicImage_init, py_truediv. rewrite Hth. cbn [fst snd].
  destruct (Qeq_bool (inject_Z (tile_width cfg)) 0) eqn:Ew.
  { apply Qeq_bool_iff in Ew. unfold Qeq in Ew. simpl in Ew. lia. }
  cbn [mbind result_bind].
  destruct (Qeq_bool (inject_Z th) 0) eqn:Eh.
  { apply Qeq_bool_iff in Eh. unfold Qeq in Eh. simpl in Eh. lia. }
  cbn [mbind result_bind].
  rewrite !py_int_div by lia.
  rewrite Hwidth, Hheight, !Z.div_mul by lia.
  eexists _, _. repeat split; reflexivity.
Qed.

(** ** More on the aspect crop *)


(** ** More on the traversal *)

Section shuffle_more.
Context {A : Type}.

Lemma shuffle_length (draws : nat -> nat) (x : list A) :
  length (shuffle draws x) = length x.
Proof. by rewrite shuffle_perm. Qed.

(** The shuffle of the items before the slice bound, and nothing else. *)
Lemma shuffle_first_items_split (draws : nat -> nat) (lst : list A) (i : Z) :
  i <> 0 ->
  let k := slice_bound (length lst) i in
  (k <= length lst)%nat
  /\ length (shuffle_first_items draws lst i) = length lst
  /\ take k (shuffle_first_items draws lst i) ≡ₚ take k lst
  /\ drop k (shuffle_first_items draws lst i) = drop k lst.
Proof.
  intros Hi k. unfold shuffle_first_items. fold k.
  destruct (Z.eqb_spec i 0) as [|_]; [done|].
  assert (Hk : (k <= length lst)%nat).
  { subst k. unfold slice_bound. destruct (Z.ltb_spec i 0); lia. }
  assert (Hlen : length (shuffle draws (take k lst)) = k).
  { rewrite shuffle_length, length_take. lia. }
  split; [done|]. split; [|split].
  - rewrite length_app, Hlen, length_drop. lia.
  - rewrite take_app_length' by done. apply shuffle_perm.
  - by rewrite drop_app_length'.
Qed.

End shuffle_more.

Lemma shuffle_first_items_prefix {A} (draws : nat -> nat)
    (lst : list A) (i : Z) :
  0 < i ->
  let k := Z.to_nat i in
  length (shuffle_first_items draws lst i) = length lst
  /\ take k (shuffle_first_items draws lst i) ≡ₚ take k lst
  /\ drop k (shuffle_first_items draws lst i) = drop k lst.
Proof.
  intros Hi k.
  destruct (shuffle_first_items_split draws lst i ltac:(lia)) as (Hb & Hlen & Ht & Hd).
  split; [done|].
  assert (Hsb : slice_bound (length lst) i = (k `min` length lst)%nat).
  { unfold slice_bound. destruct (Z.ltb_spec i 0); lia. }
  rewrite Hsb in Ht, Hd.
  destruct (Nat.le_gt_cases k (length lst)) as [Hle|Hgt].
  - by rewrite Nat.min_l in Ht, Hd by done.
  - rewrite Nat.min_r in Ht, Hd by lia.
    rewrite !(take_ge _ k) by lia. rewrite !(drop_ge _ k) by lia.
    rewrite !take_ge in Ht by lia. done.
Qed.

(** X19: for a positive count [i], [shuffle_first_items] permutes the
    first [i] items among themselves and leaves every later item where it
    was; the length is kept. *)
Theorem shuffle_first_items_keeps_the_rest {A} (draws : nat -> nat)
    (lst : list A) (i : Z) :
  0 < i ->
  let k := Z.to_nat i in
  length (shuffle_first_items draws lst i) = length lst
  /\ take k (shuffle_first_items draws lst i) ≡ₚ take k lst
  /\ drop k (shuffle_first_items draws lst i) = drop k lst.
Proof.
  intros Hi k.
  destruct (shuffle_first_items_prefix draws lst i Hi) as (Hlen & Hfirst & Hrest).
  fold k in Hfirst, Hrest.
  split; [exact Hlen|]. split; [exact Hfirst|exact Hrest].
Qed.

(** X20: for a negative count [i] the slices count from the end: the last
    [-i] items stay where they are and all the items before them are
    permuted among themselves. *)
Theorem shuffle_first_items_negative_count {A} (draws : nat -> nat)
    (lst : list A) (i : Z) :
  i < 0 ->
  let k := (length lst - Z.to_nat (- i))%nat in
  length (shuffle_first_items draws lst i) = length lst
  /\ take k (shuffle_first_items draws lst i) ≡ₚ take k lst
  /\ drop k (shuffle_first_items draws lst i) = drop k lst.
Proof.
  intros Hi k.
  destruct (shuffle_first_items_split draws lst i ltac:(lia)) as (Hb & Hlen & Ht & Hd).
  split; [done|].
  assert (Hsb : slice_bound (length lst) i = k).
  { unfold slice_bound. destruct (Z.ltb_spec i 0); lia. }
  by rewrite Hsb in Ht, Hd.
Qed.

Lemma key_zero_at_centre (a b : Z) (y_bias : Q) :
  0 <= a -> 0 <= b -> (0 < y_bias)%Q ->
  (inject_Z a * y_bias + inject_Z b <= 0)%Q -> a = 0 /\ b = 0.
Proof.
  intros Ha Hb Hy Hle.
  assert (Hab : (0 <= inject_Z a * y_bias)%Q).
  { apply Qmult_le_0_compat; [by apply inject_Z_nonneg|by apply Qlt_le_weak]. }
  assert (HbQ : (0 <= inject_Z b)%Q) by by apply inject_Z_nonneg.
  assert (Hb0 : (inject_Z b <= 0)%Q) by lra.
  assert (Ha0 : (inject_Z a * y_bias <= 0)%Q) by lra.
  unfold Qle in Hb0. simpl in Hb0.
  split; [|lia].
  destruct (Z.eq_dec a 0) as [|Hne]; [done|].
  assert (H1 : (inject_Z 1 <= inject_Z a)%Q) by (rewrite <- Zle_Qle; lia).
  apply (Qmult_le_r _ _ y_bias) in H1; [|done].
  rewrite Qmult_1_l in H1. lra.
Qed.

(** X21: without shuffle, on a grid with at least one cell and with a
    positive bias, the traversal starts at the middle cell
    [(int(x_count/2), int(y_count/2))]. *)
Theorem coords_from_middle_starts_in_the_middle (draws : nat -> nat)
    (x_count y_count : Z) (y_bias : Q) :
  1 <= x_count -> 1 <= y_count -> (0 < y_bias)%Q ->
  head (coords_from_middle draws x_count y_count y_bias 0)
  = Some (x_count / 2, y_count / 2).
Proof.
  intros Hx Hy Hb.
  set (xm := x_count / 2). set (ym := y_count / 2).
  assert (Hxm : 0 <= xm < x_count).
  { subst xm. pose proof (Z.div_pos x_count 2). pose proof (Z.div_lt x_count 2). lia. }
  assert (Hym : 0 <= ym < y_count).
  { subst ym. pose proof (Z.div_pos y_count 2). pose proof (Z.div_lt y_count 2). lia. }
  pose proof (coords_from_middle_elem draws x_count y_count y_bias 0 (xm, ym)) as Hmid.
  assert (Hs : StronglySorted
                 (fun c d => (coords_key xm ym y_bias c <= coords_key xm ym y_bias d)%Q)
                 (coords_from_middle draws x_count y_count y_bias 0)).
  { unfold coords_from_middle. rewrite shuffle_first_items_zero, !py_int_half by lia.
    apply sort_by_sorted. }
  destruct (coords_from_middle draws x_count y_count y_bias 0) as [|c coords].
  { exfalso. eapply elem_of_nil, Hmid. done. }
  simpl. f_equal.
  assert (Hle : (coords_key xm ym y_bias c <= coords_key xm ym y_bias (xm, ym))%Q).
  { assert (Hm : (xm, ym) ∈ c :: coords) by by apply Hmid.
    apply StronglySorted_inv in Hs as [_ Hrest].
    apply elem_of_cons in Hm as [<-|Hm]; [apply Qle_refl|].
    rewrite Forall_forall in Hrest. by apply Hrest. }
  unfold coords_key in Hle. cbn [fst snd] in Hle. rewrite !Z.sub_diag in Hle.
  assert (Hz : (inject_Z (Z.abs 0) * y_bias + inject_Z (Z.abs 0) == 0)%Q)
    by (change (inject_Z (Z.abs 0)) with 0%Q; ring).
  rewrite Hz in Hle.
  destruct c as [x y]. cbn [fst snd] in Hle.
  apply key_zero_at_centre in Hle as [H1 H2]; [|lia|lia|done].
  f_equal; lia.
Qed.

(** ** The construction of the tile pool *)

Lemma append_nil_r (s : string) : s +:+ "" = s.
Proof.
  induction s as [|c s IH]; [done|].
  change (String c (s +:+ "") = String c s). by rewrite IH.
Qed.

Lemma append_inj (p a b : string) : p +:+ a = p +:+ b -> a = b.
Proof.
  induction p as [|c p IH]; [done|].
  change (String c (p +:+ a) = String c (p +:+ b) -> a = b).
  intros [= H]. by apply IH.
Qed.

Lemma substring_all (m : nat) (s : string) :
  (String.length s <= m)%nat -> String.substring 0 m s = s.
Proof.
  revert m. induction s as [|c s IH]; intros [|m] Hm; simpl in *; try done; try lia.
  rewrite IH; [done|lia].
Qed.

Lemma substring_length_le (n m : nat) (s : string) :
  (String.length (String.substring n m s) <= m)%nat.
Proof.
  revert n m. induction s as [|c s IH]; intros [|n] [|m]; simpl; try lia.
  - specialize (IH 0%nat m). lia.
  - apply (IH n 0%nat).
  - apply (IH n (S m)).
Qed.

Lemma substring_suffix (n m : nat) (s : string) :
  (String.length s <= n + m)%nat ->
  exists pre,
    s = pre +:+ String.substring n m s
    /\ String.length pre = (n `min` String.length s)%nat.
Proof.
  revert n. induction s as [|c s IH]; intros n Hlen.
  { exists "". by destruct n, m. }
  destruct n as [|n].
  - exists "". rewrite substring_all by (simpl in *; lia). done.
  - simpl in Hlen. destruct (IH n ltac:(lia)) as (pre & Hs & Hn).
    exists (String c pre).
    change (String c s = String c (pre +:+ String.substring n m s)
            /\ S (String.length pre) = (S n `min` S (String.length s))%nat).
    split; [by rewrite <- Hs|lia].
Qed.

Section TileBox_init.
Context {Img Path : Type}.
Variable stem : Path -> string.
Variable open_image : Path -> Img.
Variable image_size_of : Img -> Z * Z.
Variable crop : Img -> box -> Img.
Variable resize_antialias : Img -> Z * Z -> Img.
Variable resize_nearest : Img -> Z * Z -> Img.
Variable convert : Img -> string -> Img.
Variable rotate_image : Img -> Z -> Img.
Variable pixels : Img -> list Z.


(** What one tile path adds to the pool. *)
Lemma process_tile_adds (cfg : Config) (self : list Img * list string) (p : Path)
    (self' : list Img * list string) :
  process_tile stem open_image image_size_of crop resize_antialias
      convert rotate_image cfg self p = Ok self' ->
  exists base,
    let name := last_four (before_first_dot (stem p)) in
    let copies := if rotate cfg then rotated_copies rotate_image base name else [] in
    self'.1 = self.1 ++ base :: copies.*1
    /\ self'.2 = self.2 ++ name :: copies.*2.
Proof.
  unfold process_tile.
  destruct (aspect_crop_to_extent _ _ _ _ _) as [img|]; cbn [mbind result_bind];
    [|done].
  destruct (tile_size cfg) as [sz|]; cbn [mbind result_bind]; [|done].
  destruct (rotate cfg); intros [= <-]; eexists; cbn [fst snd];
    rewrite <- ?app_assoc; done.
Qed.

Lemma process_tile_lengths (cfg : Config) (self : list Img * list string) (p : Path)
    (self' : list Img * list string) :
  process_tile stem open_image image_size_of crop resize_antialias
      convert rotate_image cfg self p = Ok self' ->
  length self'.1 = (length self.1 + group_size (rotate cfg))%nat
  /\ length self'.2 = (length self.2 + group_size (rotate cfg))%nat.
Proof.
  intros (base & H1 & H2)%process_tile_adds. rewrite H1, H2, !length_app.
  by destruct (rotate cfg).
Qed.

(** The loop only appends, one group per path, in the order of the paths. *)
Lemma process_tiles_layout (cfg : Config) (paths : list Path) :
  forall (self self' : list Img * list string),
    process_tiles stem open_image image_size_of crop resize_antialias
      convert rotate_image cfg self paths = Ok self' ->
    length self'.1 = (length self.1 + group_size (rotate cfg) * length paths)%nat
    /\ length self'.2 = (length self.2 + group_size (rotate cfg) * length paths)%nat
    /\ (forall j, (j < length self.1)%nat -> self'.1 !! j = self.1 !! j)
    /\ (forall j, (j < length self.2)%nat -> self'.2 !! j = self.2 !! j)
    /\ forall k p, paths !! k = Some p ->
         exists base,
           let name := last_four (before_first_dot (stem p)) in
           let copies :=
             if rotate cfg then rotated_copies rotate_image base name else [] in
           forall i,
             (i < group_size (rotate cfg))%nat ->
             self'.1 !! (length self.1 + group_size (rotate cfg) * k + i)%nat
               = (base :: copies.*1) !! i
             /\ self'.2 !! (length self.2 + group_size (rotate cfg) * k + i)%nat
                = (name :: copies.*2) !! i.
Proof.
  induction paths as [|p0 paths IH]; intros self self'; simpl.
  { intros [= <-]. repeat split; try lia; done. }
  destruct (process_tile stem open_image image_size_of crop resize_antialias
      convert rotate_image cfg self p0) as [self1|] eqn:Hstep; cbn [mbind result_bind];
    [|done].
  intros Hrest.
  destruct (IH _ _ Hrest) as (Hl1 & Hl2 & Hk1 & Hk2 & Hgroups).
  pose proof (process_tile_lengths _ _ _ _ Hstep) as [Hs1 Hs2].
  destruct (process_tile_adds _ _ _ _ Hstep) as (base & Ha1 & Ha2).
  cbv zeta in Ha1, Ha2.
  split; [lia|]. split; [lia|]. split; [|split].
  - intros j Hj. rewrite Hk1 by lia. rewrite Ha1. by apply lookup_app_l.
  - intros j Hj. rewrite Hk2 by lia. rewrite Ha2. by apply lookup_app_l.
  - intros [|k] p Hp.
    + injection Hp as ->. exists base. intros i Hi.
      rewrite Hk1, Hk2 by lia. rewrite Ha1, Ha2.
      replace (length self.1 + group_size (rotate cfg) * 0 + i)%nat
        with (length self.1 + i)%nat by lia.
      replace (length self.2 + group_size (rotate cfg) * 0 + i)%nat
        with (length self.2 + i)%nat by lia.
      by rewrite !lookup_app_r, !Nat.add_sub' by lia.
    + destruct (Hgroups k p Hp) as (b & Hb). exists b. intros i Hi.
      destruct (Hb i Hi) as [H1 H2]. rewrite <- H1, <- H2.
      split; f_equal; lia.
Qed.

Lemma TileBox_init_Ok (paths : list Path) (cfg : Config) (tb : TileBox Img) :
  TileBox_init stem open_image image_size_of crop resize_antialias
      resize_nearest convert rotate_image pixels paths cfg = Ok tb ->
  config tb = cfg
  /\ process_tiles stem open_image image_size_of crop resize_antialias
      convert rotate_image cfg ([], []) paths = Ok (tiles tb, tile_names tb)
  /\ length (tile_array tb) = length (tiles tb).
Proof.
  unfold TileBox_init, prepare_tiles_from_paths.
  destruct (process_tiles stem open_image image_size_of crop resize_antialias
      convert rotate_image cfg ([], []) paths) as [[ts ns]|]; cbn [mbind result_bind];
    [|done].
  destruct (py_truediv _ _); cbn [mbind result_bind]; [|done].
  intros [= <-]. simpl. by rewrite length_map.
Qed.

(** X23: a pool that is built holds one entry per path, or four with
    rotation, and its three lists (tiles, labels, samples) have the same
    length; the configuration is the one given. *)
Theorem tile_pool_lists_agree (paths : list Path) (cfg : Config) (tb : TileBox Img) :
  TileBox_init stem open_image image_size_of crop resize_antialias
      resize_nearest convert rotate_image pixels paths cfg = Ok tb ->
  config tb = cfg
  /\ length (tiles tb) = (group_size (rotate cfg) * length paths)%nat
  /\ length (tile_names tb) = length (tiles tb)
  /\ length (tile_array tb) = length (tiles tb).
Proof.
  intros (Hcfg & Hrun & Harr)%TileBox_init_Ok.
  destruct (process_tiles_layout cfg paths _ _ Hrun) as (H1 & H2 & _).
  simpl in H1, H2. repeat split; try done; lia.
Qed.

(** X24: with rotation, the entries [4k .. 4k+3] of the pool are the tile
    of the k-th path and its copies rotated by 90, 180 and 270 degrees, and
    [indeces] of any of the four is exactly these four positions: what is
    consumed together is one source tile with its rotations. *)
Theorem rotation_group_is_one_source_tile (paths : list Path) (cfg : Config)
    (tb : TileBox Img) (k : nat) (p : Path) :
  rotate cfg = true ->
  TileBox_init stem open_image image_size_of crop resize_antialias
      resize_nearest convert rotate_image pixels paths cfg = Ok tb ->
  paths !! k = Some p ->
  exists base,
    tiles tb !! (4 * k)%nat = Some base
    /\ tiles tb !! (4 * k + 1)%nat = Some (rotate_image base 90)
    /\ tiles tb !! (4 * k + 2)%nat = Some (rotate_image base 180)
    /\ tiles tb !! (4 * k + 3)%nat = Some (rotate_image base 270)
    /\ forall i, (i < 4)%nat ->
         indeces true (4 * k + i)
         = [4 * k + 3; 4 * k + 2; 4 * k + 1; 4 * k + 0]%nat.
Proof.
  intros Hrot (Hcfg & Hrun & Harr)%TileBox_init_Ok Hp.
  destruct (process_tiles_layout cfg paths _ _ Hrun) as (_ & _ & _ & _ & Hgroups).
  destruct (Hgroups k p Hp) as (base & Hbase). rewrite Hrot in Hbase.
  cbn [group_size fst snd length] in Hbase. exists base.
  destruct (Hbase 0%nat ltac:(lia)) as [H0 _].
  destruct (Hbase 1%nat ltac:(lia)) as [H1 _].
  destruct (Hbase 2%nat ltac:(lia)) as [H2 _].
  destruct (Hbase 3%nat ltac:(lia)) as [H3 _].
  rewrite Nat.add_0_r in H0.
  split; [exact H0|]. split; [exact H1|]. split; [exact H2|]. split; [exact H3|].
  intros i Hi. unfold indeces. cbn [map].
  replace (4 * k + i)%nat with (k * 4 + i)%nat by lia.
  rewrite div_group by done.
  f_equal; [lia|]. f_equal; [lia|]. f_equal; [lia|]. f_equal; lia.
Qed.

(** X25: with rotation, the four labels of the k-th path are its label and
    that label followed by a line break, [r], the angle and an arrow; the
    four are different from one another. *)
Theorem rotation_group_labels (paths : list Path) (cfg : Config)
    (tb : TileBox Img) (k : nat) (p : Path) :
  rotate cfg = true ->
  TileBox_init stem open_image image_size_of crop resize_antialias
      resize_nearest convert rotate_image pixels paths cfg = Ok tb ->
  paths !! k = Some p ->
  let name := last_four (before_first_dot (stem p)) in
  let labels :=
    [name; name +:+ newline +:+ "r90→"; name +:+ newline +:+ "r180↓";
     name +:+ newline +:+ "r270←"] in
  (forall i, (i < 4)%nat -> tile_names tb !! (4 * k + i)%nat = labels !! i)
  /\ NoDup labels.
Proof.
  intros Hrot (Hcfg & Hrun & Harr)%TileBox_init_Ok Hp name labels.
  destruct (process_tiles_layout cfg paths _ _ Hrun) as (_ & _ & _ & _ & Hgroups).
  destruct (Hgroups k p Hp) as (base & Hbase). rewrite Hrot in Hbase.
  cbn [group_size fst snd length] in Hbase. split.
  - intros i Hi. destruct (Hbase i Hi) as [_ Hn].
    rewrite Nat.add_0_l in Hn. rewrite Hn.
    subst labels name.
    destruct i as [|[|[|[|i]]]]; [reflexivity|reflexivity|reflexivity|reflexivity|lia].
  - subst labels. rewrite <- (append_nil_r name) at 1.
    rewrite !NoDup_cons, !elem_of_cons, !elem_of_nil.
    repeat split; try apply NoDup_nil_2; intros H;
      repeat (destruct H as [H|H]; [apply append_inj in H; discriminate|]); done.
Qed.

(** X26: the label of a tile is the end of the part of its file stem before
    the first dot: at most four characters, and exactly four when that part
    has four or more. *)
Theorem tile_label_is_stem_end (paths : list Path) (cfg : Config)
    (tb : TileBox Img) (k : nat) (p : Path) :
  TileBox_init stem open_image image_size_of crop resize_antialias
      resize_nearest convert rotate_image pixels paths cfg = Ok tb ->
  paths !! k = Some p ->
  exists label pre,
    tile_names tb !! (group_size (rotate cfg) * k)%nat = Some label
    /\ before_first_dot (stem p) = pre +:+ label
    /\ (String.length label <= 4)%nat
    /\ ((4 <= String.length (before_first_dot (stem p)))%nat ->
        String.length label = 4%nat).
Proof.
  intros (Hcfg & Hrun & Harr)%TileBox_init_Ok Hp.
  destruct (process_tiles_layout cfg paths _ _ Hrun) as (_ & _ & _ & _ & Hgroups).
  destruct (Hgroups k p Hp) as (base & Hbase).
  destruct (Hbase 0%nat) as [_ Hn]; [destruct (rotate cfg); simpl; lia|].
  cbn [fst snd length lookup list_lookup] in Hn.
  rewrite Nat.add_0_l, Nat.add_0_r in Hn.
  set (s := before_first_dot (stem p)) in *.
  destruct (substring_suffix (String.length s - 4) 4 s ltac:(lia)) as (pre & Hs & Hpre).
  exists (last_four s), pre. split; [done|]. split; [done|].
  split; [apply substring_length_le|].
  intros Hlen. unfold last_four.
  assert (Hall : String.length s
                 = (String.length pre
                    + String.length (String.substring (String.length s - 4) 4 s))%nat).
  { rewrite Hs at 1. clear. generalize (String.substring (String.length s - 4) 4 s).
    intros t. induction pre as [|c pre IH]; [done|].
    change (S (String.length (pre +:+ t)) = S (String.length pre + String.length t)).
    by rewrite IH. }
  lia.
Qed.


End TileBox_init.

(** ** The further properties at sample inputs *)

Lemma small_matches_perm : Forall (fun m => m ≡ₚ seq 0 3) small_matches.
Proof. unfold small_matches. repeat constructor; simpl; solve_Permutation. Qed.

Lemma no_reuse_fills_until_groups_run_out_witness :
  length (tiles small_pool) = (group_size (rotate (config small_pool)) * 3)%nat
  /\ length (tile_names small_pool) = length (tiles small_pool)
  /\ length small_boxes = length small_matches
  /\ exists records,
       assemble_mosaic false small_pool small_matches small_boxes
         = (records,
            if decide (3 < length small_matches)%nat then RanOutOfTiles else Completed)
       /\ length records = (3 `min` length small_matches)%nat.
Proof.
  split; [reflexivity|]. split; [reflexivity|]. split; [reflexivity|].
  apply (no_reuse_fills_until_groups_run_out small_pool small_matches small_boxes 3);
    [reflexivity|reflexivity|reflexivity|exact small_matches_perm].
Defined.

Lemma reuse_fills_every_cell_witness :
  (0 < length (tiles small_pool))%nat
  /\ length (tile_names small_pool) = length (tiles small_pool)
  /\ length small_boxes = length small_matches
  /\ exists records,
       assemble_mosaic true small_pool small_matches small_boxes = (records, Completed)
       /\ length records = length small_matches
       /\ a_box <$> records = small_boxes.
Proof.
  split; [simpl; lia|]. split; [reflexivity|]. split; [reflexivity|].
  apply (reuse_fills_every_cell small_pool small_matches small_boxes);
    [simpl; lia|reflexivity|reflexivity|exact small_matches_perm].
Defined.

Lemma no_reuse_takes_best_available_witness :
  (assemble_mosaic false small_pool small_matches small_boxes).1 !! 1%nat
    = Some small_second_record
  /\ small_matches !! 1%nat = Some [1; 2; 0]%nat
  /\ exists better worse,
       [1; 2; 0]%nat = better ++ a_index small_second_record :: worse
       /\ Forall (fun j => j ∉ consume false (list_to_set (seq 0 3)) [1%nat]) better.
Proof.
  assert (Hr : (assemble_mosaic false small_pool small_matches small_boxes).1 !! 1%nat
               = Some small_second_record) by (vm_compute; reflexivity).
  split; [exact Hr|]. split; [reflexivity|].
  apply (no_reuse_takes_best_available small_pool small_matches small_boxes 1
           small_second_record [1; 2; 0]%nat Hr eq_refl).
Defined.

Lemma exact_match_is_ranked_first_witness :
  argsort_contract argsort_stable
  /\ [20] ∈ tile_array small_pool
  /\ exists best rest t_best,
       best_tile_block_match argsort_stable small_pool [20] = Ok (best :: rest)
       /\ tile_array small_pool !! best = Some t_best
       /\ (squared_difference_mean [20%Z] t_best == 0)%Q.
Proof.
  assert (Hin : [20] ∈ tile_array small_pool) by (simpl; right; left).
  split; [apply argsort_stable_contract|]. split; [exact Hin|].
  apply (exact_match_is_ranked_first argsort_stable small_pool [20]);
    [apply argsort_stable_contract|by left|exact Hin].
Defined.

Example tile_height_of_default_config :
  tile_height (mkConfig (12 # 5) 20 50 8 "RGB" false) = Ok 20.
Proof. reflexivity. Qed.

Lemma mosaic_tile_counts_witness :
  0 < tile_width (wood_config "RGB" true)
  /\ tile_height (wood_config "RGB" true) = Ok 50
  /\ exists x_tile_count y_tile_count,
       MosaicImage_init (1010, 775) (wood_config "RGB" true)
         = Ok (x_tile_count, y_tile_count)
       /\ x_tile_count = 1010 / 50
       /\ y_tile_count = 775 / 50
       /\ 0 <= x_tile_count /\ 0 <= y_tile_count
       /\ x_tile_count * 50 <= 1010 < (x_tile_count + 1) * 50
       /\ y_tile_count * 50 <= 775 < (y_tile_count + 1) * 50.
Proof.
  split; [reflexivity|]. split; [reflexivity|].
  apply (mosaic_tile_counts (1010, 775) (wood_config "RGB" true) 50);
    try reflexivity; simpl; lia.
Defined.

Lemma cell_boxes_tile_the_image_witness :
  MosaicImage_init (100, 100) (config small_pool) = Ok (2, 2)
  /\ match_tiles argsort_stable sample_block small_pool
       (coords_from_middle (fun i => i) 2 2 1 2)
     = Ok (sample_cells.1, sample_cells.2)
  /\ Z.of_nat (length sample_cells.2) = 2 * 2
  /\ length sample_cells.1 = length sample_cells.2
  /\ NoDup sample_cells.2
  /\ Forall (fun '(l, t, r, b) =>
               0 <= l /\ r = l + 50 /\ r <= 100
               /\ 0 <= t /\ b = t + 50 /\ b <= 100
               /\ l mod 50 = 0 /\ t mod 50 = 0) sample_cells.2.
Proof.
  split; [reflexivity|]. split; [reflexivity|].
  apply (cell_boxes_tile_the_image argsort_stable (fun i => i) sample_block small_pool
           (100, 100) 50 2 2 1 2 sample_cells.1 sample_cells.2);
    try reflexivity; simpl; lia.
Defined.


Lemma create_mosaic_unknown_mode_witness :
  "CMYK" <> "RGB" /\ "CMYK" <> "L"
  /\ SourceImage_init (40, 40) (mkConfig 1 20 50 (5 # 2) "CMYK" false)
     = Ok (mkSourceImage (100, 100) None)
  /\ MosaicImage_init (100, 100) (mkConfig 1 20 50 (5 # 2) "CMYK" false) = Ok (2, 2)
  /\ create_mosaic argsort_stable (fun i => i) large_size sample_block
       (fun _ => Ok ()) (fun _ => Ok ()) (40, 40)
       1 50 20 (5 # 2) true "CMYK" one_tile_pool 30 false
     = Raise UnboundLocalError.
Proof.
  split; [discriminate|]. split; [discriminate|].
  split; [reflexivity|]. split; [reflexivity|].
  apply (create_mosaic_unknown_mode argsort_stable (fun i => i) large_size sample_block
           (fun _ => Ok ()) (fun _ => Ok ())
           (40, 40) 1 50 20 (5 # 2) true "CMYK" one_tile_pool 30 false
           (mkSourceImage (100, 100) None) 2 2);
    try discriminate; try reflexivity; lia.
Defined.

(** A source of 16 by 12 enlarged to 40 by 30 is cropped to nothing under
    tiles of 50 by 50; with a library that refuses to save the empty canvas
    the run raises at the save of the [finally]. *)
Lemma create_mosaic_empty_grid_witness :
  SourceImage_init (16, 12) (mkConfig 1 20 50 (5 # 2) "RGB" false)
  = Ok (mkSourceImage (40, 30) (Some (40 # 2, 30 # 2, 40 # 2, 30 # 2)))
  /\ MosaicImage_init (0, 0) (mkConfig 1 20 50 (5 # 2) "RGB" false) = Ok (0, 0)
  /\ coords_from_middle (fun i => i) 0 0 1 30 = []
  /\ create_mosaic argsort_stable (fun i => i) (fun _ => (0, 0)) sample_block
       (fun _ => Raise (LibraryError "SystemError")) (fun _ => Ok ()) (16, 12)
       1 50 20 (5 # 2) false "RGB" one_tile_pool 30 false
     = Raise (LibraryError "SystemError").
Proof.
  split; [reflexivity|]. split; [reflexivity|].
  apply (create_mosaic_empty_grid argsort_stable (fun i => i) (fun _ => (0, 0))
           sample_block (fun _ => Raise (LibraryError "SystemError")) (fun _ => Ok ())
           (16, 12) 1 50 20 (5 # 2) false "RGB" one_tile_pool 30 false
           (mkSourceImage (40, 30) (Some (40 # 2, 30 # 2, 40 # 2, 30 # 2))) 0 0);
    [reflexivity|reflexivity|left; lia].
Defined.

Lemma shuffle_first_items_keeps_the_rest_witness :
  0 < 2
  /\ length (shuffle_first_items (fun i => i) [10; 20; 30; 40; 50] 2)
     = length [10; 20; 30; 40; 50]
  /\ take 2 (shuffle_first_items (fun i => i) [10; 20; 30; 40; 50] 2)
       ≡ₚ take 2 [10; 20; 30; 40; 50]
  /\ drop 2 (shuffle_first_items (fun i => i) [10; 20; 30; 40; 50] 2)
     = drop 2 [10; 20; 30; 40; 50].
Proof.
  split; [reflexivity|].
  apply (shuffle_first_items_keeps_the_rest (fun i => i) [10; 20; 30; 40; 50] 2).
  reflexivity.
Defined.

Lemma shuffle_first_items_negative_count_witness :
  -2 < 0
  /\ length (shuffle_first_items (fun _ => 0%nat) [10; 20; 30; 40; 50] (-2))
     = length [10; 20; 30; 40; 50]
  /\ take 3 (shuffle_first_items (fun _ => 0%nat) [10; 20; 30; 40; 50] (-2))
       ≡ₚ take 3 [10; 20; 30; 40; 50]
  /\ drop 3 (shuffle_first_items (fun _ => 0%nat) [10; 20; 30; 40; 50] (-2))
     = drop 3 [10; 20; 30; 40; 50].
Proof.
  split; [reflexivity|].
  apply (shuffle_first_items_negative_count (fun _ => 0%nat) [10; 20; 30; 40; 50] (-2)).
  reflexivity.
Defined.

(** A count of -2 shuffles the first three of five items. *)
Example shuffle_first_items_minus_two :
  shuffle_first_items (fun _ => 0%nat) [10; 20; 30; 40; 50] (-2)
  = [20; 30; 10; 40; 50].
Proof. reflexivity. Qed.

Lemma coords_from_middle_starts_in_the_middle_witness :
  1 <= 5 /\ 1 <= 4 /\ (0 < 12 # 5)%Q
  /\ head (coords_from_middle (fun i => i) 5 4 (12 # 5) 0) = Some (5 / 2, 4 / 2).
Proof.
  split; [lia|]. split; [lia|]. split; [reflexivity|].
  apply (coords_from_middle_starts_in_the_middle (fun i => i) 5 4 (12 # 5));
    [lia|lia|reflexivity].
Defined.

Lemma sample_rotated_pool_built :
  sample_TileBox_init ["IMG_0012.v2"; "ab"] (wood_config "RGB" true)
  = Ok sample_rotated_pool.
Proof. vm_compute. reflexivity. Qed.

Lemma tile_pool_lists_agree_witness :
  sample_TileBox_init ["IMG_0012.v2"; "ab"] (wood_config "RGB" true)
  = Ok sample_rotated_pool
  /\ config sample_rotated_pool = wood_config "RGB" true
  /\ length (tiles sample_rotated_pool) = (4 * 2)%nat
  /\ length (tile_names sample_rotated_pool) = length (tiles sample_rotated_pool)
  /\ length (tile_array sample_rotated_pool) = length (tiles sample_rotated_pool).
Proof.
  split; [exact sample_rotated_pool_built|].
  apply (tile_pool_lists_agree (fun p => p) (fun p => p) (fun _ => (100, 50))
           (fun img _ => img) (fun img _ => img) (fun img _ => img) (fun img _ => img)
           sample_rotate (fun _ => [1; 2; 3]) ["IMG_0012.v2"; "ab"]
           (wood_config "RGB" true) sample_rotated_pool sample_rotated_pool_built).
Defined.

Lemma rotation_group_is_one_source_tile_witness :
  ["IMG_0012.v2"; "ab"] !! 1%nat = Some "ab"
  /\ exists base,
       tiles sample_rotated_pool !! (4 * 1)%nat = Some base
       /\ tiles sample_rotated_pool !! (4 * 1 + 1)%nat = Some (sample_rotate base 90)
       /\ tiles sample_rotated_pool !! (4 * 1 + 2)%nat = Some (sample_rotate base 180)
       /\ tiles sample_rotated_pool !! (4 * 1 + 3)%nat = Some (sample_rotate base 270)
       /\ forall i, (i < 4)%nat ->
            indeces true (4 * 1 + i)
            = [4 * 1 + 3; 4 * 1 + 2; 4 * 1 + 1; 4 * 1 + 0]%nat.
Proof.
  split; [reflexivity|].
  apply (rotation_group_is_one_source_tile (fun p => p) (fun p => p)
           (fun _ => (100, 50)) (fun img _ => img) (fun img _ => img)
           (fun img _ => img) (fun img _ => img) sample_rotate (fun _ => [1; 2; 3])
           ["IMG_0012.v2"; "ab"] (wood_config "RGB" true) sample_rotated_pool 1 "ab"
           eq_refl sample_rotated_pool_built eq_refl).
Defined.

Lemma rotation_group_labels_witness :
  ["IMG_0012.v2"; "ab"] !! 0%nat = Some "IMG_0012.v2"
  /\ let name := last_four (before_first_dot "IMG_0012.v2") in
     let labels :=
       [name; name +:+ newline +:+ "r90→"; name +:+ newline +:+ "r180↓";
        name +:+ newline +:+ "r270←"] in
     (forall i, (i < 4)%nat ->
        tile_names sample_rotated_pool !! (4 * 0 + i)%nat = labels !! i)
     /\ NoDup labels.
Proof.
  split; [reflexivity|].
  apply (rotation_group_labels (fun p => p) (fun p => p)
           (fun _ => (100, 50)) (fun img _ => img) (fun img _ => img)
           (fun img _ => img) (fun img _ => img) sample_rotate (fun _ => [1; 2; 3])
           ["IMG_0012.v2"; "ab"] (wood_config "RGB" true) sample_rotated_pool 0
           "IMG_0012.v2" eq_refl sample_rotated_pool_built eq_refl).
Defined.

Lemma tile_label_is_stem_end_witness :
  ["IMG_0012.v2"; "ab"] !! 0%nat = Some "IMG_0012.v2"
  /\ exists label pre,
       tile_names sample_rotated_pool !! (4 * 0)%nat = Some label
       /\ before_first_dot "IMG_0012.v2" = pre +:+ label
       /\ (String.length label <= 4)%nat
       /\ ((4 <= String.length (before_first_dot "IMG_0012.v2"))%nat ->
           String.length label = 4%nat).
Proof.
  split; [reflexivity|].
  apply (tile_label_is_stem_end (fun p => p) (fun p => p)
           (fun _ => (100, 50)) (fun img _ => img) (fun img _ => img)
           (fun img _ => img) (fun img _ => img) sample_rotate (fun _ => [1; 2; 3])
           ["IMG_0012.v2"; "ab"] (wood_config "RGB" true) sample_rotated_pool 0
           "IMG_0012.v2" sample_rotated_pool_built eq_refl).
Defined.

Example label_of_sample_tile :
  last_four (before_first_dot "IMG_0012.v2") = "0012".
Proof. reflexivity. Qed.

(** ** The script [compile_wood_mosaic.py] *)

Section process.
Context {Img : Type}.
Variable argsort : list Q -> list nat.
Variable draws : nat -> nat.
Variable image_size : SourceImage -> Z * Z.
Variable comparison_block : box -> list Z.
Variable save : list (assignment Img) -> result ().
Variable show_instructions : list (assignment Img) -> result ().

(** X28: under the settings of the script (tiles of 50 by 50, rotation,
    no reuse) and a pool of G source tiles with their rotations, a run on
    a source image whose canvas the image library saves and whose sheet is
    drawn returns without exception: it places [min G cells] tiles, no two
    from the same source tile, and ends by the [break] exactly when the
    grid has more cells than the pool has source tiles. *)
Theorem process_places_each_source_tile_once (path_size : Z * Z)
    (pool : Config -> TileBox Img) (G : nat) (s : SourceImage)
    (x_count y_count : Z) :
  let cfg := mkConfig 1 20 50 (5 # 2) "RGB" true in
  let cells := (Z.to_nat x_count * Z.to_nat y_count)%nat in
  argsort_contract argsort ->
  config (pool cfg) = cfg ->
  (0 < G)%nat ->
  length (tiles (pool cfg)) = (4 * G)%nat ->
  length (tile_names (pool cfg)) = (4 * G)%nat ->
  length (tile_array (pool cfg)) = (4 * G)%nat ->
  (forall b, Forall (fun t => length t = length (comparison_block b))
               (tile_array (pool cfg))) ->
  SourceImage_init path_size cfg = Ok s ->
  MosaicImage_init (image_size s) cfg = Ok (x_count, y_count) ->
  (forall r, save r = Ok ()) ->
  (forall r, show_instructions r = Ok ()) ->
  exists records,
    process argsort draws image_size comparison_block save show_instructions
      path_size pool
      = Ok (records, if decide (G < cells)%nat then RanOutOfTiles else Completed)
    /\ length records = (G `min` cells)%nat
    /\ NoDup (map (fun r => (a_index r / 4)%nat) records).
Proof.
  intros cfg cells Hsort Hcfg HG Htiles Hnames Harray _ Hs Hgrid Hsave Hshow.
  unfold process, create_mosaic, Config_init. cbn [mbind result_bind]. fold cfg.
  rewrite Hs. cbn [mbind result_bind]. rewrite Hgrid. cbn [mbind result_bind].
  set (coords := coords_from_middle draws x_count y_count (tile_ratio cfg) 30).
  destruct (match_tiles_rankings argsort comparison_block (pool cfg) 50 coords Hsort)
    as (matches & boxes & -> & Hm & Hb & Hperm).
  { rewrite Hcfg. by left. }
  { intros Hnil. rewrite Hnil in Harray. simpl in Harray. lia. }
  { by rewrite Hcfg. }
  cbn [mbind result_bind].
  assert (Hcells : length matches = cells).
  { rewrite Hm. apply coords_from_middle_length. }
  rewrite Harray in Hperm.
  unfold assemble_mosaic. rewrite Hcfg, Htiles. cbn [rotate cfg].
  destruct (assemble_by_groups true (tiles (pool cfg)) (tile_names (pool cfg)) boxes
              (4 * G) matches Htiles Hnames (rankings_cover _ _ Hperm) 0%nat
              (list_to_set (seq 0 (4 * G))) G)
    as (records & st & Hrun & Hcases).
  - intros j. apply full_pool_bounded.
  - apply (full_pool_whole_groups true).
  - by rewrite full_pool_size.
  - simpl. lia.
  - exists records. rewrite Hrun. split; [|split].
    + rewrite <- Hcells.
      case_decide; destruct Hcases as [(? & ? & ->)|(? & ? & ->)]; try lia;
        apply finish_Ok; auto.
    + rewrite <- Hcells. destruct Hcases as [(? & ? & _)|(? & ? & _)]; lia.
    + pose proof (no_reuse_groups_distinct true (tiles (pool cfg))
                    (tile_names (pool cfg)) boxes matches 0
                    (list_to_set (seq 0 (4 * G)))) as Hnd.
      rewrite Hrun in Hnd. cbn [fst] in Hnd.
      eapply NoDup_map_coarser; [|exact Hnd]. cbn beta.
      intros a b Hab. unfold indeces. cbn [map]. by rewrite Hab.
Qed.

End process.

Lemma sample_rotated_pool_shape (b : box) :
  Forall (fun t => length t = length (sample_block3 b)) (tile_array sample_rotated_pool).
Proof. repeat constructor. Qed.

Lemma process_places_each_source_tile_once_witness :
  argsort_contract argsort_stable
  /\ (0 < 2)%nat
  /\ length (tiles sample_rotated_pool) = (4 * 2)%nat
  /\ SourceImage_init (40, 40) (mkConfig 1 20 50 (5 # 2) "RGB" true)
     = Ok (mkSourceImage (100, 100) None)
  /\ MosaicImage_init (100, 100) (mkConfig 1 20 50 (5 # 2) "RGB" true) = Ok (2, 2)
  /\ exists records,
       process argsort_stable (fun i => i) large_size sample_block3
         (fun _ => Ok ()) (fun _ => Ok ()) (40, 40) (fun _ => sample_rotated_pool)
       = Ok (records,
             if decide (2 < Z.to_nat 2 * Z.to_nat 2)%nat
             then RanOutOfTiles else Completed)
       /\ length records = (2 `min` (Z.to_nat 2 * Z.to_nat 2))%nat
       /\ NoDup (map (fun r => (a_index r / 4)%nat) records).
Proof.
  split; [apply argsort_stable_contract|]. split; [lia|]. split; [reflexivity|].
  split; [reflexivity|]. split; [reflexivity|].
  apply (process_places_each_source_tile_once argsort_stable (fun i => i) large_size
           sample_block3 (fun _ => Ok ()) (fun _ => Ok ()) (40, 40)
           (fun _ => sample_rotated_pool) 2 (mkSourceImage (100, 100) None) 2 2);
    [apply argsort_stable_contract|reflexivity|lia|reflexivity|reflexivity|reflexivity
    |apply sample_rotated_pool_shape|reflexivity|reflexivity|done|done].
Defined.

Lemma cropped_canvas_is_tiled_exactly_witness :
  0 < tile_width (wood_config "RGB" true)
  /\ tile_height (wood_config "RGB" true) = Ok 50
  /\ exists x_tile_count y_tile_count,
       MosaicImage_init (1010 - 1010 mod 50, 775 - 775 mod 50) (wood_config "RGB" true)
         = Ok (x_tile_count, y_tile_count)
       /\ x_tile_count = 1010 / 50
       /\ y_tile_count = 775 / 50
       /\ x_tile_count * 50 = 1010 - 1010 mod 50
       /\ y_tile_count * 50 = 775 - 775 mod 50.
Proof.
  split; [reflexivity|]. split; [reflexivity|].
  apply (cropped_canvas_is_tiled_exactly (wood_config "RGB" true) 50 1010 775);
    try reflexivity; simpl; lia.
Defined.

(** * Double precision *)

(** ** The order of floats *)

Lemma SFltb_rank (x y : spec_float) :
  x <> S754_nan -> y <> S754_nan ->
  SFltb x y = true <-> Double.rank_lt (Double.rank x) (Double.rank y).
Proof.
  intros Hx Hy. unfold SFltb, Double.rank_lt.
  destruct x as [sx|sx| |sx mx ex], y as [sy|sy| |sy my ey]; try done;
    try destruct sx; try destruct sy; cbn;
    try (split; [discriminate|lia]); try (split; [lia|done]).
  - destruct (Z.compare_spec ex ey); cbn.
    + rewrite Pos.compare_cont_spec. cbn.
      destruct (Pos.compare_spec mx my); cbn; split; try discriminate; try done; lia.
    + split; [discriminate|lia].
    + split; [lia|done].
  - destruct (Z.compare_spec ex ey); cbn.
    + rewrite Pos.compare_cont_spec. cbn.
      destruct (Pos.compare_spec mx my); cbn; split; try discriminate; try done; lia.
    + split; [lia|done].
    + split; [discriminate|lia].
Qed.

Lemma SFltb_asym (x y : spec_float) :
  x <> S754_nan -> y <> S754_nan -> SFltb x y = true -> SFltb y x = false.
Proof.
  intros Hx Hy Hlt. apply (SFltb_rank x y Hx Hy) in Hlt.
  destruct (SFltb y x) eqn:E; [|done].
  apply (SFltb_rank y x Hy Hx) in E. unfold Double.rank_lt in *. lia.
Qed.

Lemma SFltb_negtrans (x y z : spec_float) :
  x <> S754_nan -> y <> S754_nan -> z <> S754_nan ->
  SFltb y x = false -> SFltb z y = false -> SFltb z x = false.
Proof.
  intros Hx Hy Hz Hyx Hzy.
  destruct (SFltb z x) eqn:E; [|done].
  apply (SFltb_rank z x Hz Hx) in E.
  assert (Hn1 : ~ Double.rank_lt (Double.rank y) (Double.rank x)).
  { intros H. apply (SFltb_rank y x Hy Hx) in H. congruence. }
  assert (Hn2 : ~ Double.rank_lt (Double.rank z) (Double.rank y)).
  { intros H. apply (SFltb_rank z y Hz Hy) in H. congruence. }
  unfold Double.rank_lt in *. lia.
Qed.

(** ** Rounding never yields NaN *)

Lemma iter_pos_invariant {A} (P : A -> Prop) (f : A -> A) :
  (forall x, P x -> P (f x)) -> forall n x, P x -> P (SpecFloat.iter_pos f n x).
Proof. intros Hf. induction n as [n IH|n IH|]; intros x Hx; simpl; auto. Qed.

Lemma shr_1_nonneg (mrs : shr_record) : 0 <= shr_m mrs -> 0 <= shr_m (shr_1 mrs).
Proof.
  destruct mrs as [m r s]. destruct m as [|p|p]; [done| |done].
  intros _. by destruct p.
Qed.

Lemma shr_fexp_nonneg (m e : Z) (l : location) :
  0 <= m -> 0 <= shr_m (shr_fexp Double.prec Double.emax m e l).1.
Proof.
  intros Hm. unfold shr_fexp, shr.
  assert (H0 : 0 <= shr_m (shr_record_of_loc m l)) by (by destruct l as [|[]]).
  destruct (fexp Double.prec Double.emax (Zdigits2 m + e) - e) as [|p|p]; [done| |done].
  cbn [fst]. apply (iter_pos_invariant (fun mrs => 0 <= shr_m mrs)); [|done].
  apply shr_1_nonneg.
Qed.

Lemma round_nearest_even_nonneg (m : Z) (l : location) :
  0 <= m -> 0 <= round_nearest_even m l.
Proof.
  intros Hm. destruct l as [|[]]; simpl; [done| |done|lia].
  destruct (Z.even m); lia.
Qed.

Lemma binary_round_aux_not_nan (sx : bool) (mx ex : Z) (lx : location) :
  0 <= mx -> binary_round_aux Double.prec Double.emax sx mx ex lx <> S754_nan.
Proof.
  intros Hm. unfold binary_round_aux.
  pose proof (shr_fexp_nonneg mx ex lx Hm) as H1.
  destruct (shr_fexp Double.prec Double.emax mx ex lx) as [mrs' e']. cbn [fst] in H1.
  pose proof (shr_fexp_nonneg _ e' loc_Exact
                (round_nearest_even_nonneg _ (loc_of_shr_record mrs') H1)) as H2.
  destruct (shr_fexp Double.prec Double.emax _ e' loc_Exact) as [mrs'' e''].
  cbn [fst] in H2.
  destruct (shr_m mrs'') as [|p|p]; [done| |lia].
  by destruct (e'' <=? Double.emax - Double.prec).
Qed.

Lemma binary_normalize_not_nan (m e : Z) (szero : bool) :
  binary_normalize Double.prec Double.emax m e szero <> S754_nan.
Proof.
  destruct m as [|p|p]; [done| |]; cbn [binary_normalize]; unfold binary_round;
    (destruct (shl_align p e _) as [mz ez]; by apply binary_round_aux_not_nan).
Qed.

Lemma float_of_int_finite (n : Z) (x : spec_float) :
  Double.float_of_int n = Ok x -> Double.finite_float x.
Proof.
  unfold Double.float_of_int.
  pose proof (binary_normalize_not_nan n 0 false) as Hn.
  destruct (binary_normalize Double.prec Double.emax n 0 false); [| |done|];
    by intros [= <-].
Qed.

Lemma SFmul_not_nan (x y : spec_float) :
  Double.finite_float x -> Double.finite_float y ->
  SFmul Double.prec Double.emax x y <> S754_nan.
Proof.
  destruct x as [sx|sx| |sx mx ex], y as [sy|sy| |sy my ey]; try done.
  intros _ _. cbn [SFmul]. by apply binary_round_aux_not_nan.
Qed.

Lemma SFadd_not_nan (x y : spec_float) :
  x <> S754_nan -> Double.finite_float y ->
  SFadd Double.prec Double.emax x y <> S754_nan.
Proof.
  destruct x as [sx|sx| |sx mx ex], y as [sy|sy| |sy my ey]; try done.
  - intros _ _. cbn [SFadd]. by destruct sx, sy.
  - intros _ _. cbn [SFadd]. apply binary_normalize_not_nan.
Qed.

(** ** Integers below 2^53 convert to floats *)

Lemma digits2_pos_size (p : positive) : digits2_pos p = Pos.size p.
Proof. induction p as [p IH|p IH|]; simpl; congruence. Qed.

Lemma digits2_pos_iter (m k : positive) :
  digits2_pos (Pos.iter xO m k) = (digits2_pos m + k)%positive.
Proof.
  induction k as [|k IH] using Pos.peano_ind.
  - simpl. lia.
  - rewrite Pos.iter_succ. simpl. rewrite IH. lia.
Qed.

Lemma digits2_pos_bound (m : positive) :
  Zpos m < 2 ^ 53 -> Zpos (digits2_pos m) <= 53.
Proof.
  intros Hm. rewrite digits2_pos_size.
  pose proof (Pos.size_le m) as Hs.
  apply Pos2Z.pos_le_pos in Hs. rewrite Pos2Z.inj_pow in Hs.
  change (Z.pos m~0) with (2 * Z.pos m) in Hs.
  assert (H54 : 2 ^ Z.pos (Pos.size m) < 2 ^ 54) by (change (2 ^ 54) with (2 * 2 ^ 53); lia).
  apply Z.pow_lt_mono_r_iff in H54; lia.
Qed.

Lemma binary_round_aux_canonical (s : bool) (m : positive) (e : Z) :
  Zpos (digits2_pos m) = 53 -> -1074 <= e -> e <= 971 ->
  binary_round_aux Double.prec Double.emax s (Zpos m) e loc_Exact = S754_finite s m e.
Proof.
  intros Hd Hlo Hhi.
  assert (Hshift : forall l,
            shr_fexp Double.prec Double.emax (Zpos m) e l
            = (shr_record_of_loc (Zpos m) l, e)).
  { intros l. unfold shr_fexp, fexp, emin, Double.prec, Double.emax.
    cbn [Zdigits2]. rewrite Hd.
    replace (Z.max (53 + e - 53) (3 - 1024 - 53) - e) with 0 by lia. done. }
  unfold binary_round_aux. rewrite Hshift. cbn [shr_record_of_loc loc_of_shr_record
    shr_m round_nearest_even]. rewrite Hshift. cbn [shr_record_of_loc shr_m].
  unfold Double.prec, Double.emax.
  destruct (Z.leb_spec e (1024 - 53)); [done|lia].
Qed.

Lemma float_of_int_small (n : Z) :
  Z.abs n < 2 ^ 53 -> exists x, Double.float_of_int n = Ok x.
Proof.
  intros Hn. unfold Double.float_of_int.
  assert (Hpos : forall (s : bool) (p : positive),
            Zpos p < 2 ^ 53 ->
            exists m e, binary_round Double.prec Double.emax s p 0 = S754_finite s m e).
  { intros s p Hp. pose proof (digits2_pos_bound p Hp) as Hd.
    unfold binary_round, shl_align, fexp, emin, Double.prec, Double.emax.
    replace (Z.max (Z.pos (digits2_pos p) + 0 - 53) (3 - 1024 - 53))
      with (Z.pos (digits2_pos p) - 53) by lia.
    destruct (Z.pos (digits2_pos p) - 53 - 0) as [|k|k] eqn:Ek; [|lia|].
    - eexists _, _. apply binary_round_aux_canonical; lia.
    - eexists _, _. apply binary_round_aux_canonical; [|lia|lia].
      rewrite digits2_pos_iter. lia. }
  destruct n as [|p|p]; cbn [binary_normalize].
  - by eexists.
  - destruct (Hpos false p) as (m & e & ->); [lia|]. by eexists.
  - destruct (Hpos true p) as (m & e & ->); [lia|]. by eexists.
Qed.

(** ** Values below 2^53 are computed exactly *)

Lemma iter_pos_iter {A} (f : A -> A) (n : positive) (x : A) :
  SpecFloat.iter_pos f n x = Pos.iter f x n.
Proof.
  revert x. induction n as [n IH|n IH|]; intros x; simpl.
  - rewrite !IH. by rewrite <- !Pos.iter_swap.
  - by rewrite !IH.
  - done.
Qed.

Lemma shr_1_xO (p : positive) :
  shr_1 {| shr_m := Zpos p~0; shr_r := false; shr_s := false |}
  = {| shr_m := Zpos p; shr_r := false; shr_s := false |}.
Proof. reflexivity. Qed.

Lemma iter_shr_1 (p k : positive) :
  Pos.iter shr_1 {| shr_m := Zpos (Pos.iter xO p k); shr_r := false; shr_s := false |} k
  = {| shr_m := Zpos p; shr_r := false; shr_s := false |}.
Proof.
  induction k as [|k IH] using Pos.peano_ind.
  - reflexivity.
  - rewrite Pos.iter_succ_r, Pos.iter_succ, shr_1_xO. exact IH.
Qed.

(** A mantissa of 53 digits followed by [k] zeros loses the zeros. *)
Lemma binary_round_aux_shr (s : bool) (p k : positive) (e : Z) :
  Zpos (digits2_pos p) = 53 -> -1074 <= e + Zpos k -> e + Zpos k <= 971 ->
  binary_round_aux Double.prec Double.emax s (Zpos (Pos.iter xO p k)) e loc_Exact
  = S754_finite s p (e + Zpos k).
Proof.
  intros Hd Hlo Hhi.
  assert (H1 : shr_fexp Double.prec Double.emax (Zpos (Pos.iter xO p k)) e loc_Exact
               = ({| shr_m := Zpos p; shr_r := false; shr_s := false |}, e + Zpos k)).
  { unfold shr_fexp, fexp, emin, Double.prec, Double.emax.
    cbn [Zdigits2]. rewrite digits2_pos_iter, Pos2Z.inj_add, Hd.
    replace (Z.max (53 + Z.pos k + e - 53) (3 - 1024 - 53) - e) with (Zpos k) by lia.
    cbn [shr shr_record_of_loc]. by rewrite iter_pos_iter, iter_shr_1. }
  unfold binary_round_aux. rewrite H1.
  cbn [shr_m loc_of_shr_record round_nearest_even].
  assert (H2 : shr_fexp Double.prec Double.emax (Zpos p) (e + Zpos k) loc_Exact
               = ({| shr_m := Zpos p; shr_r := false; shr_s := false |}, e + Zpos k)).
  { unfold shr_fexp, fexp, emin, Double.prec, Double.emax.
    cbn [Zdigits2]. rewrite Hd.
    replace (Z.max (53 + (e + Z.pos k) - 53) (3 - 1024 - 53) - (e + Z.pos k)) with 0 by lia.
    done. }
  rewrite H2. cbn [shr_m]. unfold Double.prec, Double.emax.
  destruct (Z.leb_spec (e + Zpos k) (1024 - 53)); [done|lia].
Qed.

Lemma digits2_pos_lshift (q : positive) (n : Z) :
  0 <= n -> Zpos (digits2_pos (Double.lshift q n)) = Zpos (digits2_pos q) + n.
Proof.
  intros Hn. destruct n as [|k|k]; [simpl; lia| |lia].
  cbn [Double.lshift]. rewrite digits2_pos_iter. lia.
Qed.

Lemma lshift_add (q : positive) (n m : Z) :
  0 <= n -> 0 <= m -> Double.lshift (Double.lshift q n) m = Double.lshift q (n + m).
Proof.
  intros Hn Hm. destruct n as [|k|k], m as [|l|l]; try lia; try done.
  change (Z.pos k + Z.pos l) with (Z.pos (k + l)). cbn [Double.lshift].
  by rewrite Pos.add_comm, Pos.iter_add.
Qed.

(** A mantissa of at most 53 digits is shifted to 53 digits. *)
Lemma binary_round_canonical (s : bool) (q : positive) (e : Z) :
  let d := Zpos (digits2_pos q) in
  d <= 53 -> -1074 <= e + d - 53 -> e + d - 53 <= 971 ->
  binary_round Double.prec Double.emax s q e
  = S754_finite s (Double.lshift q (53 - d)) (e + d - 53).
Proof.
  intros d Hd Hlo Hhi.
  unfold binary_round, shl_align, fexp, emin, Double.prec, Double.emax. fold d.
  replace (Z.max (d + e - 53) (3 - 1024 - 53)) with (e + d - 53) by lia.
  destruct (e + d - 53 - e) as [|k|k] eqn:Ek; [|lia|].
  - replace (53 - d) with 0 by lia. cbn [Double.lshift].
    replace (e + d - 53) with e by lia.
    apply binary_round_aux_canonical; [|lia|lia]. subst d. lia.
  - replace (53 - d) with (Zpos k) by lia. cbn [Double.lshift].
    apply binary_round_aux_canonical; [|lia|lia].
    rewrite digits2_pos_iter. subst d. lia.
Qed.

(** Trailing zeros of the mantissa can be moved to the exponent. *)
Lemma binary_round_shift (s : bool) (q : positive) (j e : Z) :
  let d := Zpos (digits2_pos q) in
  0 <= j -> d <= 53 -> -1074 <= e + j + d - 53 -> e + j + d - 53 <= 971 ->
  binary_round Double.prec Double.emax s (Double.lshift q j) e
  = binary_round Double.prec Double.emax s q (e + j).
Proof.
  intros d Hj Hd Hlo Hhi.
  rewrite (binary_round_canonical s q (e + j)) by (fold d; lia). fold d.
  destruct (Z.le_gt_cases (d + j) 53) as [Hle|Hgt].
  - rewrite binary_round_canonical; rewrite digits2_pos_lshift by done; fold d; [|lia..].
    rewrite lshift_add by lia. f_equal; [f_equal|]; lia.
  - unfold binary_round, shl_align, fexp, emin, Double.prec, Double.emax.
    rewrite digits2_pos_lshift by done. fold d.
    replace (Z.max (d + j + e - 53) (3 - 1024 - 53)) with (e + j + d - 53) by lia.
    destruct (e + j + d - 53 - e) as [|k|k] eqn:Ek; [lia| |lia].
    replace (Double.lshift q j) with (Pos.iter xO (Double.lshift q (53 - d)) k).
    + rewrite binary_round_aux_shr.
      * f_equal. lia.
      * rewrite digits2_pos_lshift by lia. fold d. lia.
      * lia.
      * lia.
    + change (Pos.iter xO (Double.lshift q (53 - d)) k) with (Double.lshift (Double.lshift q (53 - d)) (Zpos k)).
      rewrite lshift_add by lia. f_equal. lia.
Qed.


Lemma Zpos_iter_xO (q k : positive) : Zpos (Pos.iter xO q k) = Zpos q * 2 ^ Zpos k.
Proof.
  induction k as [|k IH] using Pos.peano_ind.
  - simpl. lia.
  - rewrite Pos.iter_succ, Pos2Z.inj_succ, Z.pow_succ_r by lia.
    rewrite Pos2Z.inj_xO, IH. lia.
Qed.

Lemma Zpos_lshift (q : positive) (j : Z) : 0 <= j -> Zpos (Double.lshift q j) = Zpos q * 2 ^ j.
Proof.
  intros Hj. destruct j as [|k|k]; [simpl; lia| |lia].
  cbn [Double.lshift]. apply Zpos_iter_xO.
Qed.

Lemma digits2_pos_mono (a w : positive) :
  (a <= w)%positive -> Zpos (digits2_pos a) <= Zpos (digits2_pos w).
Proof.
  intros Haw. rewrite !digits2_pos_size.
  pose proof (Pos.size_le a) as Ha. pose proof (Pos.size_gt w) as Hw.
  apply Pos2Z.pos_le_pos in Ha. apply Pos2Z.pos_lt_pos in Hw.
  rewrite Pos2Z.inj_pow in Ha, Hw. change (Z.pos a~0) with (2 * Z.pos a) in Ha.
  destruct (Z.le_gt_cases (Z.pos (Pos.size a)) (Z.pos (Pos.size w))) as [|Hgt]; [done|].
  assert (H : 2 * 2 ^ Z.pos (Pos.size w) <= 2 ^ Z.pos (Pos.size a)).
  { rewrite <- Z.pow_succ_r by lia. apply Z.pow_le_mono_r; lia. }
  lia.
Qed.

(** The float of a number below 2^53 as a mantissa of 53 digits. *)
Lemma binary_normalize_canonical (s : bool) (q : positive) (e : Z) :
  Zpos q < 2 ^ 53 -> -1022 <= e -> e <= 971 ->
  binary_round Double.prec Double.emax s q e
  = S754_finite s (Double.lshift q (53 - Zpos (digits2_pos q))) (e + Zpos (digits2_pos q) - 53).
Proof.
  intros Hq Hlo Hhi. pose proof (digits2_pos_bound q Hq).
  apply binary_round_canonical; lia.
Qed.

Lemma binary_normalize_scale (n j e : Z) :
  0 <= j -> Z.abs n < 2 ^ 53 -> -1022 <= e -> e <= 971 ->
  binary_normalize Double.prec Double.emax (n * 2 ^ j) (e - j) false
  = binary_normalize Double.prec Double.emax n e false.
Proof.
  intros Hj Hn Hlo Hhi. destruct n as [|q|q].
  - reflexivity.
  - rewrite <- Zpos_lshift by done. cbn [binary_normalize].
    pose proof (digits2_pos_bound q ltac:(lia)).
    rewrite binary_round_shift by lia. f_equal. lia.
  - replace (Z.neg q * 2 ^ j) with (Z.neg (Double.lshift q j))
      by (rewrite <- !Pos2Z.opp_pos, Zpos_lshift by done; lia).
    cbn [binary_normalize].
    pose proof (digits2_pos_bound q ltac:(lia)).
    rewrite binary_round_shift by lia. f_equal. lia.
Qed.

(** [n / 2] for an int below 2^53 is the float of Double.half its value. *)
Lemma SFdiv_by_2 (n : Z) :
  Z.abs n < 2 ^ 53 ->
  SFdiv Double.prec Double.emax (Double.exact n) (Double.exact 2) = Double.half n.
Proof.
  intros Hn.
  assert (Hpos : forall (s : bool) (p : positive), Zpos p < 2 ^ 53 ->
            SFdiv Double.prec Double.emax (S754_finite s p 0) (S754_finite false 2 0)
            = binary_round Double.prec Double.emax s p (-1)).
  { intros s p Hp. pose proof (digits2_pos_bound p Hp) as Hd.
    set (d := Zpos (digits2_pos p)) in *.
    rewrite binary_normalize_canonical by lia. fold d.
    cbn [SFdiv]. unfold SFdiv_core_binary, fexp, emin, Double.prec, Double.emax.
    cbn [Zdigits2 digits2_pos]. change (Z.pos (PosDef.Pos.succ 1)) with 2. fold d.
    replace (Z.min (Z.max (d + 0 - (2 + 0) - 53) (3 - 1024 - 53)) (0 - 0)) with (d - 55)
      by lia.
    replace (0 - 0 - (d - 55)) with (55 - d) by lia.
    destruct (55 - d) as [|k|k] eqn:Ek; [lia| |lia].
    rewrite Z.shiftl_mul_pow2 by lia. rewrite <- Ek.
    assert (Hm : Zpos p * 2 ^ (55 - d) = 2 * Zpos (Double.lshift p (54 - d))).
    { rewrite Zpos_lshift by lia. replace (55 - d) with (Z.succ (54 - d)) by lia.
      rewrite Z.pow_succ_r by lia. lia. }
    rewrite Hm.
    pose proof (Z.div_eucl_eq (2 * Z.pos (Double.lshift p (54 - d))) 2 ltac:(lia)) as Hq.
    pose proof (Z.mod_pos_bound (2 * Z.pos (Double.lshift p (54 - d))) 2 ltac:(lia)) as Hr.
    unfold Z.modulo in Hr.
    destruct (Z.div_eucl (2 * Z.pos (Double.lshift p (54 - d))) 2) as [q r].
    assert (r = 0) by lia. assert (q = Zpos (Double.lshift p (54 - d))) by lia. subst q r.
    change (new_location 2 0) with loc_Exact. rewrite xorb_false_r.
    replace (Double.lshift p (54 - d)) with (Pos.iter xO (Double.lshift p (53 - d)) 1).
    - rewrite binary_round_aux_shr.
      + f_equal. lia.
      + rewrite digits2_pos_lshift by lia. fold d. lia.
      + lia.
      + lia.
    - change (Pos.iter xO (Double.lshift p (53 - d)) 1) with (Double.lshift (Double.lshift p (53 - d)) 1).
      rewrite lshift_add by lia. f_equal. lia. }
  destruct n as [|p|p]; [reflexivity| |]; apply Hpos; lia.
Qed.

Lemma int_half (n : Z) :
  Z.abs n < 2 ^ 53 -> Double.int (Double.Float (Double.half n)) = Ok (n ÷ 2).
Proof.
  intros Hn. unfold Double.half.
  assert (Hpos : forall (s : bool) (p : positive), Zpos p < 2 ^ 53 ->
            Double.int (Double.Float (binary_round Double.prec Double.emax s p (-1)))
            = Ok (cond_Zopp s (Zpos p / 2))).
  { intros s p Hp. pose proof (digits2_pos_bound p Hp) as Hd.
    rewrite binary_normalize_canonical by lia.
    set (d := Zpos (digits2_pos p)) in *. cbn [Double.int]. do 2 f_equal.
    rewrite Z.shiftl_div_pow2 by lia.
    rewrite Zpos_lshift by lia.
    replace (- (-1 + d - 53)) with (Z.succ (53 - d)) by lia.
    rewrite Z.pow_succ_r by lia.
    rewrite Z.div_mul_cancel_r; lia. }
  destruct n as [|p|p]; cbn [binary_normalize].
  - reflexivity.
  - rewrite Hpos by lia. cbn [cond_Zopp]. f_equal. rewrite Z.quot_div_nonneg; lia.
  - rewrite Hpos by lia. cbn [cond_Zopp]. f_equal.
    rewrite <- Pos2Z.opp_pos, Z.quot_opp_l by lia. rewrite Z.quot_div_nonneg; lia.
Qed.

Lemma whole_pos (p : positive) :
  Zpos p < 2 ^ 53 ->
  Double.whole (Zpos p)
  = S754_finite false (Double.lshift p (53 - Zpos (digits2_pos p))) (Zpos (digits2_pos p) - 53).
Proof.
  intros Hp. unfold Double.whole. cbn [binary_normalize].
  rewrite binary_normalize_canonical by lia. f_equal.
Qed.

Lemma shl_align_lshift (m : positive) (e e' : Z) :
  e' <= e -> shl_align m e e' = (Double.lshift m (e - e'), e').
Proof.
  intros He. unfold shl_align.
  destruct (e' - e) as [|k|k] eqn:Ek; [|lia|].
  - replace (e - e') with 0 by lia. cbn [Double.lshift]. f_equal. lia.
  - replace (e - e') with (Zpos k) by lia. done.
Qed.

(** The difference of two Double.whole floats below 2^53 is the float of the
    difference. *)
Lemma SFsub_whole (w a : Z) :
  0 <= a <= w -> w < 2 ^ 53 ->
  SFsub Double.prec Double.emax (Double.whole w) (Double.whole a) = Double.whole (w - a).
Proof.
  intros Ha Hw. destruct a as [|pa|pa]; [| |lia].
  { rewrite Z.sub_0_r. destruct w as [|pw|pw]; [reflexivity| |lia].
    rewrite whole_pos by lia. reflexivity. }
  destruct w as [|pw|pw]; [lia| |lia].
  rewrite !whole_pos by lia.
  set (dw := Zpos (digits2_pos pw)). set (da := Zpos (digits2_pos pa)).
  assert (Hd : da <= dw) by (apply digits2_pos_mono; lia).
  pose proof (digits2_pos_bound pw ltac:(lia)) as Hdw. fold dw in Hdw.
  cbn [SFsub cond_Zopp].
  replace (Z.min (dw - 53) (da - 53)) with (da - 53) by lia.
  rewrite (shl_align_lshift _ (dw - 53)) by lia.
  rewrite (shl_align_lshift _ (da - 53)) by lia. cbn [fst].
  rewrite !Zpos_lshift by lia.
  replace (Z.pos pw * 2 ^ (53 - dw) * 2 ^ (dw - 53 - (da - 53))
           - Z.pos pa * 2 ^ (53 - da) * 2 ^ (da - 53 - (da - 53)))
    with ((Z.pos pw - Z.pos pa) * 2 ^ (53 - da)).
  - replace (da - 53) with (0 - (53 - da)) by lia.
    apply binary_normalize_scale; lia.
  - rewrite Z.sub_diag, Z.mul_1_r. rewrite <- Z.mul_assoc, <- Z.pow_add_r by lia.
    replace (53 - dw + (dw - 53 - (da - 53))) with (53 - da) by lia. lia.
Qed.

Lemma half_even (a : Z) : Z.abs a < 2 ^ 53 -> Double.half (2 * a) = Double.whole a.
Proof.
  intros Ha. unfold Double.half, Double.whole.
  replace (2 * a) with (a * 2 ^ 1) by lia.
  change (-1) with (0 - 1). apply binary_normalize_scale; lia.
Qed.

Lemma half_finite (n : Z) : Z.abs n < 2 ^ 53 -> Double.finite_float (Double.half n).
Proof.
  intros Hn. unfold Double.half. destruct n as [|p|p]; cbn [binary_normalize]; [done| |];
    by rewrite binary_normalize_canonical by lia.
Qed.

(** [n / 2] on an int below 2^53. *)
Lemma truediv_by_2 (n : Z) :
  Z.abs n < 2 ^ 53 ->
  Double.truediv (Double.Int n) (Double.Int 2) = Ok (Double.Float (Double.half n)).
Proof.
  intros Hn. unfold Double.truediv. cbn [Z.eqb]. rewrite SFdiv_by_2 by done.
  pose proof (half_finite n Hn) as Hf. by destruct (Double.half n).
Qed.

(** [int(n / 2)] on an int below 2^53 is the quotient truncated toward
    zero. *)
Lemma int_truediv_by_2 (n : Z) :
  Z.abs n < 2 ^ 53 ->
  (q ← Double.truediv (Double.Int n) (Double.Int 2); Double.int q) = Ok (n ÷ 2).
Proof.
  intros Hn. rewrite truediv_by_2 by done. cbn [mbind result_bind].
  by apply int_half.
Qed.

Lemma whole_is_zero (n : Z) :
  Z.abs n < 2 ^ 53 -> Double.is_zero (Double.whole n) = (n =? 0).
Proof.
  intros Hn. unfold Double.whole. destruct n as [|p|p]; cbn [binary_normalize]; [done| |];
    by rewrite binary_normalize_canonical by lia.
Qed.

(** ** The stable sort *)

Section sort_lt.
Context {A K : Type} (lt : K -> K -> bool) (key : A -> K) (P : K -> Prop).
Hypothesis lt_asym : forall a b, P a -> P b -> lt a b = true -> lt b a = false.
Hypothesis lt_negtrans : forall a b c, P a -> P b -> P c ->
  lt b a = false -> lt c b = false -> lt c a = false.

Lemma insert_lt_perm (a : A) (l : list A) : Double.insert_lt lt key a l ≡ₚ a :: l.
Proof.
  induction l as [|b l IH]; simpl; [done|].
  destruct (lt (key b) (key a)); [|done].
  by rewrite IH, Permutation_swap.
Qed.

Lemma sort_lt_perm (l : list A) : Double.sort_lt lt key l ≡ₚ l.
Proof.
  induction l as [|a l IH]; simpl; [done|].
  by rewrite insert_lt_perm, IH.
Qed.

Lemma insert_lt_sorted (before : A -> A -> Prop) (a : A) (l : list A) :
  P (key a) -> Forall (fun b => P (key b)) l -> Forall (before a) l ->
  StronglySorted
    (fun c d => lt (key d) (key c) = false /\ (lt (key c) (key d) = true \/ before c d)) l ->
  StronglySorted
    (fun c d => lt (key d) (key c) = false /\ (lt (key c) (key d) = true \/ before c d))
    (Double.insert_lt lt key a l).
Proof.
  intros Pa. induction l as [|b l IH]; intros Pl Hbef Hs; simpl.
  { by repeat constructor. }
  apply Forall_cons in Pl as [Pb Pl]. apply Forall_cons in Hbef as [Hab Hbef].
  apply StronglySorted_inv in Hs as [Hsl Hbl].
  destruct (lt (key b) (key a)) eqn:E.
  - constructor; [by apply IH|].
    rewrite insert_lt_perm. constructor; [|done].
    split; [by apply lt_asym|by left].
  - constructor; [by constructor|].
    constructor; [by split; [|right]|].
    rewrite Forall_forall in Hbl, Hbef, Pl. apply Forall_forall. intros x Hx.
    split; [|right; by apply Hbef].
    destruct (Hbl x Hx) as [Hxb _]. by apply (lt_negtrans _ (key b)); auto.
Qed.

Lemma sort_lt_sorted (before : A -> A -> Prop) (l : list A) :
  Forall (fun b => P (key b)) l ->
  StronglySorted before l ->
  StronglySorted
    (fun c d => lt (key d) (key c) = false /\ (lt (key c) (key d) = true \/ before c d))
    (Double.sort_lt lt key l).
Proof.
  induction l as [|a l IH]; intros Pl Hs; simpl; [constructor|].
  apply Forall_cons in Pl as [Pa Pl]. apply StronglySorted_inv in Hs as [Hsl Hal].
  fold (Double.sort_lt lt key l).
  apply insert_lt_sorted; [done| | |by apply IH].
  - by rewrite sort_lt_perm.
  - by rewrite sort_lt_perm.
Qed.

End sort_lt.

Lemma lt_int_asym (a b : Double.number) :
  Double.int_key a -> Double.int_key b -> Double.lt a b = true -> Double.lt b a = false.
Proof. destruct a, b; try done. simpl. lia. Qed.

Lemma lt_int_negtrans (a b c : Double.number) :
  Double.int_key a -> Double.int_key b -> Double.int_key c ->
  Double.lt b a = false -> Double.lt c b = false -> Double.lt c a = false.
Proof. destruct a, b, c; try done. simpl. lia. Qed.

Lemma lt_float_asym (a b : Double.number) :
  Double.float_key a -> Double.float_key b -> Double.lt a b = true -> Double.lt b a = false.
Proof. destruct a, b; try done. simpl. apply SFltb_asym. Qed.

Lemma lt_float_negtrans (a b c : Double.number) :
  Double.float_key a -> Double.float_key b -> Double.float_key c ->
  Double.lt b a = false -> Double.lt c b = false -> Double.lt c a = false.
Proof. destruct a, b, c; try done. simpl. apply SFltb_negtrans. Qed.

Section list_sort.
Context {A : Type} (key : A -> result Double.number) (P : Double.number -> Prop).
Hypothesis lt_asym : forall a b, P a -> P b -> Double.lt a b = true -> Double.lt b a = false.
Hypothesis lt_negtrans : forall a b c, P a -> P b -> P c ->
  Double.lt b a = false -> Double.lt c b = false -> Double.lt c a = false.

Lemma decorate_Ok (l : list A) :
  Forall (fun a => exists k, key a = Ok k /\ P k) l ->
  exists d,
    Double.decorate key l = Ok d
    /\ d.*2 = l
    /\ Forall (fun p => key p.2 = Ok p.1 /\ P p.1) d.
Proof.
  induction l as [|a l IH]; intros Hl.
  { exists []. by repeat split. }
  apply Forall_cons in Hl as [(k & Hk & Pk) Hl].
  destruct (IH Hl) as (d & Hd & Hsnd & Hkeys).
  exists ((k, a) :: d). cbn [Double.decorate]. rewrite Hk. cbn [mbind result_bind].
  rewrite Hd. cbn [mbind result_bind]. split; [done|].
  split; [by rewrite fmap_cons, Hsnd|]. by constructor.
Qed.

Lemma StronglySorted_fmap_inv {B C} (f : B -> C) (R : C -> C -> Prop) (l : list B) :
  StronglySorted R (f <$> l) -> StronglySorted (fun x y => R (f x) (f y)) l.
Proof.
  induction l as [|x l IH]; simpl; intros Hs; [constructor|].
  apply StronglySorted_inv in Hs as [Hs Hx].
  constructor; [by apply IH|]. rewrite Forall_fmap in Hx. exact Hx.
Qed.

Lemma StronglySorted_with {B} (Q : B -> Prop) (R : B -> B -> Prop) (l : list B) :
  Forall Q l -> StronglySorted R l ->
  StronglySorted (fun x y => Q x /\ Q y /\ R x y) l.
Proof.
  induction l as [|x l IH]; intros HQ Hs; [constructor|].
  apply Forall_cons in HQ as [Hx HQ]. apply StronglySorted_inv in Hs as [Hs Hxl].
  constructor; [by apply IH|].
  rewrite Forall_forall in HQ, Hxl. apply Forall_forall. intros y Hy.
  split; [done|]. split; [by apply HQ|by apply Hxl].
Qed.

(** [list.sort(key=...)] on a list whose keys are computed and ordered by
    [<]: the result is a permutation of the list, stably sorted. *)
Lemma list_sort_sorted (before : A -> A -> Prop) (l : list A) :
  Forall (fun a => exists k, key a = Ok k /\ P k) l ->
  StronglySorted before l ->
  exists l',
    Double.list_sort key l = Ok l'
    /\ l' ≡ₚ l
    /\ StronglySorted (Double.sorted_before key before) l'.
Proof.
  intros Hl Hs.
  destruct (decorate_Ok l Hl) as (d & Hd & Hsnd & Hkeys).
  unfold Double.list_sort. rewrite Hd. cbn [mbind result_bind].
  eexists. split; [reflexivity|].
  pose proof (sort_lt_perm Double.lt fst d) as Hperm.
  split; [by rewrite Hperm, Hsnd|].
  assert (Hds : StronglySorted (fun p q => before p.2 q.2) d).
  { apply (StronglySorted_fmap_inv snd before). by rewrite Hsnd. }
  pose proof (sort_lt_sorted Double.lt fst P lt_asym lt_negtrans _ d
                (Forall_impl _ _ _ Hkeys (fun p H => proj2 H)) Hds) as Hsorted.
  rewrite <- Hperm in Hkeys.
  pose proof (StronglySorted_with _ _ _ Hkeys Hsorted) as Hboth.
  eapply (StronglySorted_fmap snd); [|exact Hboth].
  intros [kc c] [kd d'] ([Hc _] & [Hd' _] & Hlt & Hor). cbn [fst snd] in *.
  by exists kc, kd.
Qed.

End list_sort.

(** ** The traversal in double precision *)

(** With an int bias the key is an int, computed exactly. *)
Lemma coords_key_int (x_mid y_mid b : Z) (c : Z * Z) :
  Double.coords_key x_mid y_mid (Double.Int b) c
  = Ok (Double.Int (Z.abs (c.1 - x_mid) * b + Z.abs (c.2 - y_mid))).
Proof. reflexivity. Qed.

(** With a finite float bias and coordinates below 2^53 the key is a
    float other than NaN. *)
Lemma coords_key_float (x_mid y_mid : Z) (f : spec_float) (c : Z * Z) :
  Double.finite_float f ->
  Z.abs (c.1 - x_mid) < 2 ^ 53 -> Z.abs (c.2 - y_mid) < 2 ^ 53 ->
  exists k,
    Double.coords_key x_mid y_mid (Double.Float f) c = Ok (Double.Float k)
    /\ k <> S754_nan.
Proof.
  intros Hf Hx Hy. unfold Double.coords_key, Double.mul, Double.add, Double.to_float.
  destruct (float_of_int_small (Z.abs (c.1 - x_mid))) as (a & Ha); [lia|].
  destruct (float_of_int_small (Z.abs (c.2 - y_mid))) as (b & Hb); [lia|].
  rewrite Ha. cbn [mbind result_bind]. rewrite Hb. cbn [mbind result_bind].
  eexists. split; [reflexivity|].
  apply SFadd_not_nan; [|by eapply float_of_int_finite].
  apply SFmul_not_nan; [by eapply float_of_int_finite|done].
Qed.

Lemma grid_cell_near_middle (count x : Z) :
  Z.abs count < 2 ^ 53 -> 0 <= x < count -> Z.abs (x - count ÷ 2) < 2 ^ 53.
Proof.
  intros Hc Hx.
  assert (0 <= count ÷ 2 < count).
  { split; [apply Z.quot_pos; lia|]. apply Z.quot_lt; lia. }
  lia.
Qed.

(** The keys of the cells of a grid are computed and ordered by [<]. *)
Lemma grid_keys (x_count y_count : Z) (y_bias : Double.number) :
  Z.abs x_count < 2 ^ 53 -> Z.abs y_count < 2 ^ 53 -> Double.finite y_bias ->
  exists P : Double.number -> Prop,
    (forall a b, P a -> P b -> Double.lt a b = true -> Double.lt b a = false)
    /\ (forall a b c, P a -> P b -> P c ->
          Double.lt b a = false -> Double.lt c b = false -> Double.lt c a = false)
    /\ Forall (fun c => exists k,
                 Double.coords_key (x_count ÷ 2) (y_count ÷ 2) y_bias c = Ok k /\ P k)
         (list_prod (range x_count) (range y_count)).
Proof.
  intros Hx Hy Hb. destruct y_bias as [b|f].
  - exists Double.int_key. split; [exact lt_int_asym|]. split; [exact lt_int_negtrans|].
    apply Forall_forall. intros c _. eexists. by rewrite coords_key_int.
  - exists Double.float_key. split; [exact lt_float_asym|].
    split; [exact lt_float_negtrans|].
    apply Forall_forall. intros [x y] Hc.
    rewrite list_elem_of_In, in_prod_iff, <- !list_elem_of_In in Hc.
    unfold range in Hc. rewrite !elem_of_seqZ in Hc.
    destruct (coords_key_float (x_count ÷ 2) (y_count ÷ 2) f (x, y) (proj1 Hb))
      as (k & Hk & Hnan).
    + apply grid_cell_near_middle; [done|simpl; lia].
    + apply grid_cell_near_middle; [done|simpl; lia].
    + by exists (Double.Float k).
Qed.

Lemma coords_from_middle_sorted (draws : nat -> nat) (x_count y_count : Z)
    (y_bias : Double.number) (shuffle_first : Z) :
  Z.abs x_count < 2 ^ 53 -> Z.abs y_count < 2 ^ 53 -> Double.finite y_bias ->
  exists sorted,
    Double.coords_from_middle draws x_count y_count y_bias shuffle_first
      = Ok (shuffle_first_items draws sorted shuffle_first)
    /\ sorted ≡ₚ list_prod (range x_count) (range y_count)
    /\ StronglySorted
         (Double.sorted_before
            (Double.coords_key (x_count ÷ 2) (y_count ÷ 2) y_bias) enumerated_before)
         sorted.
Proof.
  intros Hx Hy Hb.
  destruct (grid_keys x_count y_count y_bias Hx Hy Hb) as (P & Hasym & Hneg & Hkeys).
  destruct (list_sort_sorted _ P Hasym Hneg enumerated_before _ Hkeys
              (grid_enumerated x_count y_count)) as (sorted & Hrun & Hperm & Hsorted).
  exists sorted. unfold Double.coords_from_middle.
  pose proof (int_truediv_by_2 x_count ltac:(lia)) as Hxm.
  pose proof (int_truediv_by_2 y_count ltac:(lia)) as Hym.
  destruct (Double.truediv (Double.Int x_count) (Double.Int 2)) as [qx|];
    cbn [mbind result_bind] in Hxm |- *; [|done].
  rewrite Hxm. cbn [mbind result_bind].
  destruct (Double.truediv (Double.Int y_count) (Double.Int 2)) as [qy|];
    cbn [mbind result_bind] in Hym |- *; [|done].
  rewrite Hym. cbn [mbind result_bind]. by rewrite Hrun.
Qed.

(** C5, as the code has it: for counts below 2^53, a bias that is an int
    or a finite float, and no shuffled prefix, the traversal lists every
    cell of the grid, sorted ascending by the key
    [|x - x_mid| * y_bias + |y - y_mid|] as Python computes it (exactly for
    an int bias, in double precision with each operation rounded for a
    float bias), where [x_mid] and [y_mid] are the halves of the counts
    truncated to integers; cells whose keys compare equal stay in the
    order of the enumeration (x outer, y inner). *)
Theorem coords_from_middle_unshuffled_order (draws : nat -> nat)
    (x_count y_count : Z) (y_bias : Double.number) :
  Z.abs x_count < 2 ^ 53 -> Z.abs y_count < 2 ^ 53 -> Double.finite y_bias ->
  let x_mid := x_count ÷ 2 in
  let y_mid := y_count ÷ 2 in
  let key := Double.coords_key x_mid y_mid y_bias in
  exists coords,
    Double.coords_from_middle draws x_count y_count y_bias 0 = Ok coords
    /\ coords ≡ₚ list_prod (range x_count) (range y_count)
    /\ StronglySorted (Double.sorted_before key enumerated_before) coords.
Proof.
  intros Hx Hy Hb x_mid y_mid key.
  destruct (coords_from_middle_sorted draws x_count y_count y_bias 0 Hx Hy Hb)
    as (sorted & Hrun & Hperm & Hsorted).
  exists sorted. by rewrite Hrun, shuffle_first_items_zero.
Qed.

Lemma StronglySorted_lookup {A} (R : A -> A -> Prop) (l : list A) (i j : nat) (a b : A) :
  StronglySorted R l -> l !! i = Some a -> l !! j = Some b -> (i < j)%nat -> R a b.
Proof.
  intros Hs Ha Hb Hij. rewrite <- (take_drop j l) in Hs.
  eapply StronglySorted_app_1_elem_of; [exact Hs| |].
  - apply list_elem_of_lookup. exists i. by rewrite lookup_take_lt.
  - apply list_elem_of_lookup. exists 0%nat. by rewrite lookup_drop, Nat.add_0_r.
Qed.

(** C5, the stated key refuted: on a grid of three columns and one row the
    traversal is [(1,0); (0,0); (2,0)], which is not ascending in
    [|x - 3/2| * 1 + |y - 1/2|] (the keys are 1, 2, 1).  Nor is the
    traversal ascending in the exact value of the key once the centre is
    truncated: on a grid of 13 by 24 with the bias 2.4, the product
    [5 * 2.4] is rounded to 12.0, so [(6,0)] stays ahead of [(11,12)]
    although the exact key of the latter is smaller, and [6 * 2.4] is
    rounded below 14.4, so [(12,12)] moves ahead of [(5,0)] although 14.4
    is the key of both when 2.4 is read as 12/5. *)
Lemma coords_from_middle_exact_centre_fails :
  (Double.coords_from_middle (fun _ => 0%nat) 3 1 (Double.Int 1) 0
   = Ok [(1, 0); (0, 0); (2, 0)]
   /\ ~ sorted_from_exact_centre 3 1 1 [(1, 0); (0, 0); (2, 0)])
  /\ exists coords,
       Double.coords_from_middle (fun _ => 0%nat) 13 24 (Double.Float Double.f2_4) 0
       = Ok coords
       /\ coords !! 120%nat = Some (6, 0) /\ coords !! 121%nat = Some (11, 12)
       /\ coords !! 167%nat = Some (12, 12) /\ coords !! 168%nat = Some (5, 0)
       /\ ~ sorted_by_exact_key 13 24 (Double.value Double.f2_4) coords
       /\ ~ sorted_by_exact_key 13 24 (12 # 5) coords.
Proof.
  split.
  - split; [reflexivity|].
    unfold sorted_from_exact_centre. intros Hs.
    apply StronglySorted_inv in Hs as [Hs _].
    apply StronglySorted_inv in Hs as [_ Hs].
    apply Forall_inv, stable_lt_key_le in Hs.
    vm_compute in Hs. by apply Hs.
  - destruct (Double.coords_from_middle (fun _ => 0%nat) 13 24
                (Double.Float Double.f2_4) 0) as [coords|e] eqn:E;
      vm_compute in E; [|discriminate].
    injection E as <-. eexists. split; [reflexivity|].
    split; [reflexivity|]. split; [reflexivity|].
    split; [reflexivity|]. split; [reflexivity|].
    split; intros Hs.
    + eapply (StronglySorted_lookup _ _ 120 121 (6, 0) (11, 12)) in Hs;
        [|reflexivity|reflexivity|lia].
      destruct Hs as [Hlt|[Heq _]]; vm_compute in Hlt || vm_compute in Heq;
        discriminate.
    + eapply (StronglySorted_lookup _ _ 167 168 (12, 12) (5, 0)) in Hs;
        [|reflexivity|reflexivity|lia].
      destruct Hs as [Hlt|[_ Hbefore]]; [vm_compute in Hlt; discriminate|].
      unfold enumerated_before in Hbefore. simpl in Hbefore. lia.
Qed.

(** A grid of 13 by 24 under the default bias 2.4. *)
Lemma coords_from_middle_unshuffled_order_witness :
  Z.abs 13 < 2 ^ 53 /\ Z.abs 24 < 2 ^ 53 /\ Double.finite (Double.Float Double.f2_4)
  /\ exists coords,
       Double.coords_from_middle (fun i => i) 13 24 (Double.Float Double.f2_4) 0
       = Ok coords
       /\ coords ≡ₚ list_prod (range 13) (range 24)
       /\ StronglySorted
            (Double.sorted_before
               (Double.coords_key (13 ÷ 2) (24 ÷ 2) (Double.Float Double.f2_4))
               enumerated_before)
            coords.
Proof.
  split; [lia|]. split; [lia|]. split; [by split|].
  apply (coords_from_middle_unshuffled_order (fun i => i) 13 24
           (Double.Float Double.f2_4)); [lia|lia|by split].
Defined.

(** X22: with a shuffled prefix of [k] cells, the cells after the prefix are
    still in ascending order of the computed key, ties in enumeration
    order, and no cell of the prefix has a larger key than a cell after
    it: the shuffle only reorders the [k] cells nearest the middle. *)
Theorem coords_from_middle_shuffles_nearest (draws : nat -> nat)
    (x_count y_count : Z) (y_bias : Double.number) (shuffle_first : Z) :
  Z.abs x_count < 2 ^ 53 -> Z.abs y_count < 2 ^ 53 -> Double.finite y_bias ->
  0 < shuffle_first ->
  let key := Double.coords_key (x_count ÷ 2) (y_count ÷ 2) y_bias in
  let k := Z.to_nat shuffle_first in
  exists coords,
    Double.coords_from_middle draws x_count y_count y_bias shuffle_first = Ok coords
    /\ StronglySorted (Double.sorted_before key enumerated_before) (drop k coords)
    /\ forall c d, c ∈ take k coords -> d ∈ drop k coords -> Double.not_farther key c d.
Proof.
  intros Hx Hy Hb Hk key k.
  destruct (coords_from_middle_sorted draws x_count y_count y_bias shuffle_first
              Hx Hy Hb) as (sorted & Hrun & _ & Hsorted).
  eexists. split; [exact Hrun|].
  destruct (shuffle_first_items_prefix draws sorted shuffle_first Hk)
    as (_ & Ht & Hd).
  fold k in Ht, Hd. rewrite Hd.
  rewrite <- (take_drop k sorted) in Hsorted.
  apply StronglySorted_app in Hsorted as (Hcross & _ & Hdrop).
  split; [done|].
  intros c d Hc Hdd. rewrite Ht in Hc.
  destruct (Hcross c d Hc Hdd) as (kc & kd & Hkc & Hkd & Hlt & _).
  by exists kc, kd.
Qed.

(** A grid of 13 by 24 under the default bias and the default prefix. *)
Lemma coords_from_middle_shuffles_nearest_witness :
  Z.abs 13 < 2 ^ 53 /\ Z.abs 24 < 2 ^ 53 /\ Double.finite (Double.Float Double.f2_4) /\ 0 < 30
  /\ let key := Double.coords_key (13 ÷ 2) (24 ÷ 2) (Double.Float Double.f2_4) in
     exists coords,
       Double.coords_from_middle (fun i => i) 13 24 (Double.Float Double.f2_4) 30
       = Ok coords
       /\ StronglySorted (Double.sorted_before key enumerated_before)
            (drop (Z.to_nat 30) coords)
       /\ forall c d, c ∈ take (Z.to_nat 30) coords -> d ∈ drop (Z.to_nat 30) coords ->
                      Double.not_farther key c d.
Proof.
  split; [lia|]. split; [lia|]. split; [by split|]. split; [lia|].
  apply (coords_from_middle_shuffles_nearest (fun i => i) 13 24
           (Double.Float Double.f2_4) 30); [lia|lia|by split|lia].
Defined.

(** ** The source image in double precision *)

Lemma whole_finite (n : Z) : Z.abs n < 2 ^ 53 -> Double.finite_float (Double.whole n).
Proof.
  intros Hn. unfold Double.whole. destruct n as [|p|p]; cbn [binary_normalize]; [done| |];
    by rewrite binary_normalize_canonical by lia.
Qed.

Lemma float_of_int_whole (n : Z) :
  Z.abs n < 2 ^ 53 -> Double.float_of_int n = Ok (Double.whole n).
Proof.
  intros Hn. pose proof (whole_finite n Hn) as Hf.
  unfold Double.float_of_int. fold (Double.whole n). by destruct (Double.whole n).
Qed.

(** [(r / 2, n - r / 2)] for an even remainder [r = 2 * a] of [n]. *)
Lemma half_and_rest (n a : Z) :
  0 <= a -> 2 * a <= n -> n < 2 ^ 53 ->
  Double.truediv (Double.Int (2 * a)) (Double.Int 2) = Ok (Double.Float (Double.whole a))
  /\ Double.sub (Double.Int n) (Double.Float (Double.whole a))
     = Ok (Double.Float (Double.whole (n - a)))
  /\ Double.truthy (Double.Float (Double.whole a)) = negb (a =? 0).
Proof.
  intros Ha Han Hn. split; [|split].
  - rewrite <- half_even by lia. apply truediv_by_2. lia.
  - unfold Double.sub, Double.to_float. rewrite float_of_int_whole by lia.
    cbn [mbind result_bind]. by rewrite SFsub_whole by lia.
  - cbn [Double.truthy]. by rewrite whole_is_zero by lia.
Qed.

(** X9: the image is scaled to [w = int(orig_w * enlargement)] and
    [h = int(orig_h * enlargement)], the product rounded to a double before
    the truncation when the enlargement is a float.  When the remainders
    of [w] by the tile width and of [h] by the tile height are both even,
    each side loses exactly half the remainder, in whole pixels (nothing
    is cropped when both are zero), and what is left is an exact multiple
    of the tile width wide and of the tile height high. *)
Theorem source_image_even_remainders (img_size : Z * Z) (cfg : Double.Config)
    (w h th a b : Z) :
  0 < Double.tile_width cfg ->
  Double.tile_height cfg = Ok th ->
  0 < th ->
  (p ← Double.mul (Double.Int img_size.1) (Double.enlargement cfg); Double.int p) = Ok w ->
  (p ← Double.mul (Double.Int img_size.2) (Double.enlargement cfg); Double.int p) = Ok h ->
  0 <= w < 2 ^ 53 -> 0 <= h < 2 ^ 53 ->
  w mod Double.tile_width cfg = 2 * a ->
  h mod th = 2 * b ->
  exists s,
    Double.SourceImage_init img_size cfg = Ok s
    /\ Double.large_size s = (w, h)
    /\ 0 <= a /\ 0 <= b
    /\ Double.crop_box s
       = (if decide (a = 0 /\ b = 0) then None
          else Some (Double.Float (Double.whole a), Double.Float (Double.whole b),
                     Double.Float (Double.whole (w - a)),
                     Double.Float (Double.whole (h - b))))
    /\ (w - a) - a = Double.tile_width cfg * (w / Double.tile_width cfg)
    /\ (h - b) - b = th * (h / th).
Proof.
  intros Htw Hth Hth0 Hw Hh Hwb Hhb Ha Hb.
  pose proof (Z.mod_pos_bound w (Double.tile_width cfg) Htw) as Hrw.
  pose proof (Z.mod_pos_bound h th Hth0) as Hrh.
  pose proof (Z.mod_le w (Double.tile_width cfg) ltac:(lia) Htw) as Hlw.
  pose proof (Z.mod_le h th ltac:(lia) Hth0) as Hlh.
  pose proof (Z.div_mod w (Double.tile_width cfg) ltac:(lia)) as Hdw.
  pose proof (Z.div_mod h th ltac:(lia)) as Hdh.
  destruct (half_and_rest w a) as (Hwd & Hwr & Hwt); [lia..|].
  destruct (half_and_rest h b) as (Hhd & Hhr & Hht); [lia..|].
  unfold Double.SourceImage_init.
  destruct (Double.mul (Double.Int img_size.1) (Double.enlargement cfg)) as [pw|];
    cbn [mbind result_bind] in Hw |- *; [|done].
  rewrite Hw. cbn [mbind result_bind].
  destruct (Double.mul (Double.Int img_size.2) (Double.enlargement cfg)) as [ph|];
    cbn [mbind result_bind] in Hh |- *; [|done].
  rewrite Hh. cbn [mbind result_bind].
  unfold py_mod. rewrite Hth.
  destruct (Z.eqb_spec (Double.tile_width cfg) 0) as [|_]; [lia|].
  cbn [mbind result_bind]. rewrite Ha, Hwd. cbn [mbind result_bind].
  destruct (Z.eqb_spec th 0) as [|_]; [lia|].
  cbn [mbind result_bind]. rewrite Hb, Hhd. cbn [mbind result_bind].
  rewrite Hwt, Hht.
  destruct (Z.eqb_spec a 0) as [Ha0|Ha0], (Z.eqb_spec b 0) as [Hb0|Hb0];
    cbn [negb orb]; rewrite ?Hwr, ?Hhr; cbn [mbind result_bind];
    (eexists; split; [reflexivity|]; split; [reflexivity|];
     split; [lia|]; split; [lia|]; split; [|lia];
     cbn [Double.crop_box]; case_decide; [try lia|try tauto]; done).
Qed.

(** A source image 404 by 300 enlarged 2.5 times for tiles of 50 by 50:
    the remainders are 10 and 0. *)
Lemma source_image_even_remainders_witness :
  0 < Double.tile_width Double.wood_config
  /\ Double.tile_height Double.wood_config = Ok 50
  /\ (p ← Double.mul (Double.Int 404) (Double.Float Double.f2_5); Double.int p) = Ok 1010
  /\ (p ← Double.mul (Double.Int 300) (Double.Float Double.f2_5); Double.int p) = Ok 750
  /\ 1010 mod 50 = 2 * 5 /\ 750 mod 50 = 2 * 0
  /\ exists s,
       Double.SourceImage_init (404, 300) Double.wood_config = Ok s
       /\ Double.large_size s = (1010, 750)
       /\ 0 <= 5 /\ 0 <= 0
       /\ Double.crop_box s
          = (if decide (5 = 0 /\ 0 = 0) then None
             else Some (Double.Float (Double.whole 5), Double.Float (Double.whole 0),
                        Double.Float (Double.whole (1010 - 5)),
                        Double.Float (Double.whole (750 - 0))))
       /\ (1010 - 5) - 5 = 50 * (1010 / 50)
       /\ (750 - 0) - 0 = 50 * (750 / 50).
Proof.
  split; [reflexivity|]. split; [reflexivity|]. split; [reflexivity|].
  split; [reflexivity|]. split; [reflexivity|]. split; [reflexivity|].
  apply (source_image_even_remainders (404, 300) Double.wood_config 1010 750 50 5 0);
    try reflexivity; lia.
Defined.

(** C7, the code at an odd remainder: for an image 228 wide and 150 high,
    tiles of 75 by 75 and no enlargement, the remainder of the width is 3
    and the box handed to [crop] runs from 1.5 to 226.5: its edges are no
    whole pixels, the left one is not the truncated half 1, and the code
    has not made the width a whole number of tiles, as its comment says
    it does. *)
Theorem source_image_odd_remainder :
  Double.SourceImage_init (228, 150)
    (Double.mkConfig (Double.Int 1) 20 75 (Double.Int 1) "RGB" false)
    = Ok (Double.mkSourceImage (228, 150)
            (Some (Double.Float (Double.half 3), Double.Float (Double.half 0),
                   Double.Float (Double.half 453), Double.Float (Double.half 300))))
  /\ (Double.value (Double.half 3) == 3 # 2)%Q
  /\ (Double.value (Double.half 453) == 453 # 2)%Q
  /\ ~ Double.truncated_crop (228, 150)
         (Double.mkConfig (Double.Int 1) 20 75 (Double.Int 1) "RGB" false).
Proof.
  split; [reflexivity|]. split; [reflexivity|]. split; [reflexivity|].
  intros (s & th & Hs & Hth & H).
  vm_compute in Hs. injection Hs as <-.
  vm_compute in Hth. injection Hth as <-.
  cbn [Double.crop_box] in H. destruct H as [Hl _]. vm_compute in Hl. discriminate.
Qed.

(** The scaling follows the rounding of the product: [100 * 2.3] is a
    double just below 230, and [10 * 0.7] is rounded up to 7. *)
Example source_image_scaled_by_2_3 :
  exists s,
    Double.SourceImage_init (100, 100)
      (Double.mkConfig (Double.Int 1) 20 10 (Double.Float Double.f2_3) "RGB" false)
    = Ok s
    /\ Double.large_size s = (229, 229).
Proof. eexists. split; reflexivity. Qed.

Example source_image_scaled_by_0_7 :
  exists s,
    Double.SourceImage_init (10, 10)
      (Double.mkConfig (Double.Int 1) 20 2 (Double.Float Double.f0_7) "RGB" false)
    = Ok s
    /\ Double.large_size s = (7, 7).
Proof. eexists. split; reflexivity. Qed.

(** The tile height follows the rounding of the quotient: [33 / 1.1] is a
    double just below 30, and [11 / 1.1] is rounded up to 10. *)
Example tile_height_by_1_1 :
  Double.tile_height (Double.mkConfig (Double.Float Double.f1_1) 20 33 (Double.Int 1) "RGB" false)
  = Ok 29
  /\ Double.tile_height
       (Double.mkConfig (Double.Float Double.f1_1) 20 11 (Double.Int 1) "RGB" false)
     = Ok 10.
Proof. split; reflexivity. Qed.
